(** * Shoseki-Scraper: the baseline estimator, the row and date extractors
      and the ranking pipeline of [shoseki_scraper.py], embedded in Rocq.

    Python [int] is unbounded and is modelled by [Z]; a Python [str] is a
    sequence of Unicode code points and is modelled by [list Z]; a Python
    [float] is an IEEE-754 binary64 number and is modelled by its exact
    dyadic value [m * 2^e].  Exceptions are modelled by an error monad. *)

From Stdlib Require Import ZArith List Bool Lia Permutation Sorted.
From Stdlib Require Ascii String SpecFloat.
Import String.StringSyntax.
Delimit Scope string_scope with string.
Import ListNotations.
Local Open Scope Z_scope.

(* ------------------------------------------------------------------ *)
(** * Part I: definitions                                               *)
(* ------------------------------------------------------------------ *)

(** ** Exceptions and the error monad *)

Inductive exn : Type :=
| ValueError          (* raised by the estimator's range guard *)
| IndexError          (* list index out of range *)
| OverflowError       (* int/float conversions out of the binary64 range *)
| ZeroDivisionError
| RuntimeError.       (* raised by the baseline parser *)

Inductive result (A : Type) : Type :=
| Ok (a : A)
| Raise (e : exn).
Arguments Ok {A} a.
Arguments Raise {A} e.

Definition bind {A B : Type} (x : result A) (f : A -> result B) : result B :=
  match x with
  | Ok a => f a
  | Raise e => Raise e
  end.

Notation "x <- c ;; k" := (bind c (fun x => k))
  (at level 61, c at next level, right associativity).
Notation "' p <- c ;; k" := (bind c (fun x => let p := x in k))
  (at level 61, p pattern, c at next level, right associativity).

(** ** Python floats (IEEE-754 binary64, round to nearest, ties to even) *)

Module PyFloat.

(** A finite float is kept as its exact value [m * 2^e]; the sign of
    zero is not kept (no operation used by the scraper observes it). *)
Inductive float : Type :=
| Finite (m e : Z)
| Infinite.

Definition prec : Z := 53.
Definition emin : Z := -1074.      (* exponent of the smallest subnormal *)
Definition emax : Z := 1024.       (* values of magnitude >= 2^emax overflow *)

(** [n / d] rounded to the nearest integer, ties to the even one
    ([0 < d]). *)
Definition div_half_even (n d : Z) : Z :=
  let q := n / d in
  let r := n mod d in
  if 2 * r <? d then q
  else if d <? 2 * r then q + 1
  else if Z.even q then q else q + 1.

(** [floor (log2 (a / d))] for [0 < a] and [0 < d]. *)
Definition ilog2_ratio (a d : Z) : Z :=
  let k0 := Z.log2 a - Z.log2 d in
  let ge := if 0 <=? k0 then d * 2 ^ k0 <=? a else d <=? a * 2 ^ (- k0) in
  if ge then k0 else k0 - 1.

(** The exponent of the unit in the last place of a number whose
    binary logarithm has floor [k]. *)
Definition fexp (k : Z) : Z := Z.max (k - (prec - 1)) emin.

(** The rational [n / d] ([0 < d]) correctly rounded to binary64;
    [None] when the rounded magnitude reaches [2^emax]. *)
Definition round_ratio (n d : Z) : option (Z * Z) :=
  if n =? 0 then Some (0, 0)
  else
    let e := fexp (ilog2_ratio (Z.abs n) d) in
    let m := if e <=? 0 then div_half_even (n * 2 ^ (- e)) d
             else div_half_even n (d * 2 ^ e) in
    if (0 <=? e) && (2 ^ emax <=? Z.abs m * 2 ^ e) then None
    else Some (m, e).

(** [a / b] on two ints ([long_true_divide]): correctly rounded,
    [ZeroDivisionError] on [b = 0], [OverflowError] when the quotient
    is too large for a float. *)
Definition int_true_div (a b : Z) : result float :=
  if b =? 0 then Raise ZeroDivisionError
  else
    let (n, d) := if b <? 0 then (- a, - b) else (a, b) in
    match round_ratio n d with
    | Some (m, e) => Ok (Finite m e)
    | None => Raise OverflowError
    end.

(** [float(n)] on an int: [OverflowError] when too large. *)
Definition of_int (n : Z) : result float :=
  match round_ratio n 1 with
  | Some (m, e) => Ok (Finite m e)
  | None => Raise OverflowError
  end.

(** Float addition: exact sum rounded; overflow gives an infinity and
    raises nothing. *)
Definition add (x y : float) : float :=
  match x, y with
  | Finite m1 e1, Finite m2 e2 =>
      let e := Z.min e1 e2 in
      let n := m1 * 2 ^ (e1 - e) + m2 * 2 ^ (e2 - e) in
      let r := if 0 <=? e then round_ratio (n * 2 ^ e) 1
               else round_ratio n (2 ^ (- e)) in
      match r with
      | Some (m, e') => Finite m e'
      | None => Infinite
      end
  | _, _ => Infinite
  end.

(** [n + x] with [n] an int and [x] a float: [n] is converted first. *)
Definition int_add (n : Z) (x : float) : result float :=
  fn <- of_int n ;;
  Ok (add fn x).

(** [int(x)]: truncation toward zero; [OverflowError] on an infinity. *)
Definition to_int (x : float) : result Z :=
  match x with
  | Finite m e => Ok (if 0 <=? e then m * 2 ^ e else Z.quot m (2 ^ (- e)))
  | Infinite => Raise OverflowError
  end.

(** The same operations through the Standard Library's specification of
    IEEE-754 arithmetic, at binary64, to check the model against. *)
Definition sf_of_Z (z : Z) : SpecFloat.spec_float :=
  SpecFloat.binary_normalize 53 1024 z 0 false.

Definition sf_value (x : SpecFloat.spec_float) : option (Z * Z) :=
  match x with
  | SpecFloat.S754_zero _ => Some (0, 0)
  | SpecFloat.S754_finite s m e => Some (if s then Z.neg m else Z.pos m, e)
  | _ => None
  end.

Definition same_value (x y : option (Z * Z)) : bool :=
  match x, y with
  | Some (m1, e1), Some (m2, e2) =>
      let e := Z.min e1 e2 in
      m1 * 2 ^ (e1 - e) =? m2 * 2 ^ (e2 - e)
  | None, None => true
  | _, _ => false
  end.

(** [a / b] and [c + a / b] on ints that floats hold exactly. *)
Definition div_agrees (ab : Z * Z) : bool :=
  let (a, b) := ab in
  same_value (round_ratio a b)
    (sf_value (SpecFloat.SFdiv 53 1024 (sf_of_Z a) (sf_of_Z b))).

Definition add_div_agrees (cab : Z * Z * Z) : bool :=
  let '(c, a, b) := cab in
  match round_ratio c 1, round_ratio a b with
  | Some (mc, ec), Some (mq, eq) =>
      same_value
        (match add (Finite mc ec) (Finite mq eq) with
         | Finite m e => Some (m, e)
         | Infinite => None
         end)
        (sf_value (SpecFloat.SFadd 53 1024 (sf_of_Z c)
                     (SpecFloat.SFdiv 53 1024 (sf_of_Z a) (sf_of_Z b))))
  | _, _ => false
  end.

End PyFloat.

(** ** 3. Baseline estimator *)

Definition breakpoint : Type := (Z * Z)%type.     (* (rank, sales) *)

(** [l[0]] and [l[-1]] on a Python list. *)
Definition index_first {A : Type} (l : list A) : result A :=
  match l with
  | [] => Raise IndexError
  | x :: _ => Ok x
  end.

Fixpoint index_last {A : Type} (l : list A) : result A :=
  match l with
  | [] => Raise IndexError
  | [x] => Ok x
  | _ :: l' => index_last l'
  end.

(** [for r, v in breakpoints: if rank == r: return v] *)
Fixpoint exact_loop (rank : Z) (bps : list breakpoint) : option Z :=
  match bps with
  | [] => None
  | (r, v) :: rest => if rank =? r then Some v else exact_loop rank rest
  end.

(** [int(v1 + (v2 - v1) * (rank - r1) / (r2 - r1))]: the product and the
    two differences are exact ints, [/] is true division to a float, the
    sum is a float sum, [int] truncates. *)
Definition interpolate (rank r1 v1 r2 v2 : Z) : result Z :=
  q <- PyFloat.int_true_div ((v2 - v1) * (rank - r1)) (r2 - r1) ;;
  s <- PyFloat.int_add v1 q ;;
  PyFloat.to_int s.

(** [for (r1, v1), (r2, v2) in zip(breakpoints, breakpoints[1:]): ...] *)
Fixpoint interp_loop (rank : Z) (pairs : list (breakpoint * breakpoint))
  : option (result Z) :=
  match pairs with
  | [] => None
  | ((r1, v1), (r2, v2)) :: rest =>
      if (r1 <? rank) && (rank <? r2) then Some (interpolate rank r1 v1 r2 v2)
      else interp_loop rank rest
  end.

(** [_make_estimator(breakpoints)] is the closure [estimator]; here it is
    the function of the rank.  On an empty list both the range test and
    the message of the ValueError evaluate [breakpoints[-1]], so every
    call raises IndexError. *)
Definition _make_estimator (breakpoints : list breakpoint) (rank : Z) : result Z :=
  '(rlast, vlast) <- index_last breakpoints ;;
  if negb ((1 <=? rank) && (rank <=? rlast)) then Raise ValueError
  else
    '(rfirst, _) <- index_first breakpoints ;;
    if rank <=? rfirst then Ok (-1)
    else
      match exact_loop rank breakpoints with
      | Some v => Ok v
      | None =>
          match interp_loop rank (combine breakpoints (tl breakpoints)) with
          | Some res => res
          | None => Ok vlast
          end
      end.

(** ** Text: code points, whitespace, [str] methods *)

Definition char : Type := Z.
Definition str : Type := list char.

(** An ASCII literal as a [str]. *)
Definition lit (s : String.string) : str :=
  map (fun a => Z.of_N (Ascii.N_of_ascii a)) (String.list_ascii_of_string s).
Arguments lit s%_string.

(** [str.isspace] on one character, which is also the class [\s] of a
    [str] pattern. *)
Definition is_space (c : char) : bool :=
  ((0x09 <=? c) && (c <=? 0x0D)) || ((0x1C <=? c) && (c <=? 0x20))
  || (c =? 0x85) || (c =? 0xA0) || (c =? 0x1680)
  || ((0x2000 <=? c) && (c <=? 0x200A))
  || (c =? 0x2028) || (c =? 0x2029) || (c =? 0x202F) || (c =? 0x205F)
  || (c =? 0x3000).

Fixpoint lstrip (s : str) : str :=
  match s with
  | c :: s' => if is_space c then lstrip s' else s
  | [] => []
  end.

Definition rstrip (s : str) : str := rev (lstrip (rev s)).

(** [s.strip()] *)
Definition strip (s : str) : str := rstrip (lstrip s).

(** [s.replace(a, b)] for one-character [a] and [b]. *)
Definition replace_char (a b : char) (s : str) : str :=
  map (fun c => if c =? a then b else c) s.

Fixpoint starts_with (p s : str) : bool :=
  match p, s with
  | [], _ => true
  | a :: p', b :: s' => (a =? b) && starts_with p' s'
  | _ :: _, [] => false
  end.

(** [s.split(sep)] for a non-empty [sep]: [skip] counts the characters of
    a separator still to be passed over, [cur] is the current piece,
    reversed. *)
Fixpoint split_aux (sep : str) (skip : nat) (cur : str) (s : str) : list str :=
  match s with
  | [] => [rev cur]
  | c :: s' =>
      match skip with
      | S n => split_aux sep n cur s'
      | O => if starts_with sep s
             then rev cur :: split_aux sep (length sep - 1) [] s'
             else split_aux sep O (c :: cur) s'
      end
  end.

Definition split (sep s : str) : list str := split_aux sep 0 [] s.

(** ** Regular expressions: the fragment of [re] used by the scraper,
       run by a backtracking matcher with Python's priorities *)

Module Re.

Inductive regex : Type :=
| Eps
| Chr (c : char)                       (* a literal character *)
| Cls (p : char -> bool)               (* one character of a class *)
| Rep (greedy : bool) (p : char -> bool) (lo : nat) (hi : option nat)
                                       (* class{lo,hi}, greedy or lazy *)
| Cat (r1 r2 : regex)
| Grp (i : nat) (r : regex)            (* capturing group number i *)
| Bos                                  (* ^ *)
| Eos.                                 (* $, no MULTILINE *)

(** A literal string. *)
Fixpoint Str (s : str) : regex :=
  match s with
  | [] => Eps
  | c :: s' => Cat (Chr c) (Str s')
  end.

Definition Star (p : char -> bool) : regex := Rep true p 0 None.
Definition Plus (p : char -> bool) : regex := Rep true p 1 None.
Definition LazyPlus (p : char -> bool) : regex := Rep false p 1 None.
Definition Opt (p : char -> bool) : regex := Rep true p 0 (Some 1%nat).
Definition Times (p : char -> bool) (lo hi : nat) : regex := Rep true p lo (Some hi).

(** Captured groups: the latest text of each group that took part. *)
Definition caps : Type := list (nat * str).

Fixpoint group (cs : caps) (i : nat) : option str :=
  match cs with
  | [] => None
  | (j, s) :: cs' => if Nat.eqb i j then Some s else group cs' i
  end.

Definition set_group (i : nat) (s : str) (cs : caps) : caps := (i, s) :: cs.

Definition hi_open (hi : option nat) : bool :=
  match hi with
  | Some O => false
  | _ => true
  end.

Section Exec.
Context {R : Type}.

(** Greedy [p{lo,hi}]: take one more character first, give it back
    when the rest of the pattern fails. *)
Fixpoint rep_greedy (p : char -> bool) (lo : nat) (hi : option nat)
  (pos : nat) (s : str) (k : nat -> str -> option R) {struct s} : option R :=
  let stop := match lo with O => k pos s | S _ => None end in
  match s with
  | c :: s' =>
      if hi_open hi && p c then
        match rep_greedy p (pred lo) (option_map pred hi) (S pos) s' k with
        | Some x => Some x
        | None => stop
        end
      else stop
  | [] => stop
  end.

(** Lazy [p{lo,hi}?]: try the rest of the pattern first, take one
    more character when it fails. *)
Fixpoint rep_lazy (p : char -> bool) (lo : nat) (hi : option nat)
  (pos : nat) (s : str) (k : nat -> str -> option R) {struct s} : option R :=
  let more :=
    match s with
    | c :: s' =>
        if hi_open hi && p c
        then rep_lazy p (pred lo) (option_map pred hi) (S pos) s' k
        else None
    | [] => None
    end in
  match lo with
  | O => match k pos s with
         | Some x => Some x
         | None => more
         end
  | S _ => more
  end.

(** [exec r pos s cs k]: match [r] at offset [pos], where [s] is the
    text from [pos] on, then run the continuation [k] on what is
    left; [None] after every alternative has failed. *)
Fixpoint exec (r : regex) (pos : nat) (s : str) (cs : caps)
  (k : nat -> str -> caps -> option R) {struct r} : option R :=
  match r with
  | Eps => k pos s cs
  | Chr c =>
      match s with
      | x :: s' => if x =? c then k (S pos) s' cs else None
      | [] => None
      end
  | Cls p =>
      match s with
      | x :: s' => if p x then k (S pos) s' cs else None
      | [] => None
      end
  | Rep greedy p lo hi =>
      (if greedy then rep_greedy else rep_lazy) p lo hi pos s
        (fun pos' s' => k pos' s' cs)
  | Cat r1 r2 =>
      exec r1 pos s cs (fun pos' s' cs' => exec r2 pos' s' cs' k)
  | Grp i r1 =>
      exec r1 pos s cs
        (fun pos' s' cs' => k pos' s' (set_group i (firstn (pos' - pos) s) cs'))
  | Bos => if Nat.eqb pos 0 then k pos s cs else None
  | Eos =>
      match s with
      | [] => k pos s cs
      | [c] => if c =? 0x0A then k pos s cs else None
      | _ => None
      end
  end.
End Exec.

(** A match object: the span and the groups. *)
Record match_obj : Type := MatchObj {
  m_start : nat;
  m_end : nat;
  m_caps : caps
}.

(** Try the pattern at offset [pos] only. *)
Definition match_at (r : regex) (pos : nat) (s : str) : option match_obj :=
  exec r pos s [] (fun e _ cs => Some (MatchObj pos e cs)).

(** [re.match(r, s)] *)
Definition re_match (r : regex) (s : str) : option match_obj := match_at r 0 s.

(** [re.search(r, s)]: the leftmost offset at which the pattern matches. *)
Fixpoint search_from (r : regex) (pos : nat) (s : str) : option match_obj :=
  match match_at r pos s with
  | Some m => Some m
  | None =>
      match s with
      | [] => None
      | _ :: s' => search_from r (S pos) s'
      end
  end.

Definition re_search (r : regex) (s : str) : option match_obj := search_from r 0 s.

(** [re.findall(r, s)] for a pattern that matches no empty text: the
    groups of the successive non-overlapping matches, left to right;
    [skip] counts the characters of the last match still to be passed. *)
Fixpoint findall_from (r : regex) (skip : nat) (pos : nat) (s : str) : list match_obj :=
  match skip with
  | S n =>
      match s with
      | [] => []
      | _ :: s' => findall_from r n (S pos) s'
      end
  | O =>
      match match_at r pos s with
      | Some m =>
          m :: match s with
               | [] => []
               | _ :: s' => findall_from r (m_end m - pos - 1) (S pos) s'
               end
      | None =>
          match s with
          | [] => []
          | _ :: s' => findall_from r O (S pos) s'
          end
      end
  end.

Definition re_findall (r : regex) (s : str) : list match_obj := findall_from r 0 0 s.

(** [re.sub] of a one-character class by a function of the matched
    character. *)
Definition re_sub_class {E : Type} (p : char -> bool) (f : char -> E + str) (s : str)
  : E + str :=
  fold_right
    (fun c acc =>
       match acc with
       | inl e => inl e
       | inr t => if p c then match f c with
                              | inl e => inl e
                              | inr u => inr (u ++ t)
                              end
                  else inr (c :: t)
       end)
    (inr []) s.

(** What texts a pattern matches, whatever the order in which the
    matcher tries them: [matches r pos s cs pos' s' cs'] when [r] matches
    a prefix of [s] that starts at offset [pos] and leaves [s'] at offset
    [pos'], turning the groups [cs] into [cs']. *)
Definition within (n : nat) (hi : option nat) : Prop :=
  match hi with
  | Some h => (n <= h)%nat
  | None => True
  end.

(** Both loops range over exactly the prefixes [w] of class [p] whose
    length lies between [lo] and [hi]. *)
Definition rep_choice {R : Type} (p : char -> bool) (lo : nat) (hi : option nat)
  (pos : nat) (s : str) (k : nat -> str -> option R) (x : R) : Prop :=
  exists w s', s = w ++ s' /\ forallb p w = true /\ (lo <= length w)%nat
               /\ within (length w) hi /\ k (pos + length w)%nat s' = Some x.

(** No such prefix lets the rest of the pattern succeed. *)
Definition rep_none {R : Type} (p : char -> bool) (lo : nat) (hi : option nat)
  (pos : nat) (s : str) (k : nat -> str -> option R) : Prop :=
  forall w s', s = w ++ s' -> forallb p w = true -> (lo <= length w)%nat ->
               within (length w) hi -> k (pos + length w)%nat s' = None.

Inductive matches : regex -> nat -> str -> caps -> nat -> str -> caps -> Prop :=
| M_Eps pos s cs : matches Eps pos s cs pos s cs
| M_Chr c pos s cs : matches (Chr c) pos (c :: s) cs (S pos) s cs
| M_Cls (p : char -> bool) c pos s cs :
    p c = true -> matches (Cls p) pos (c :: s) cs (S pos) s cs
| M_Rep g (p : char -> bool) lo hi pos w s cs :
    forallb p w = true -> (lo <= length w)%nat -> within (length w) hi ->
    matches (Rep g p lo hi) pos (w ++ s) cs (pos + length w)%nat s cs
| M_Cat r1 r2 pos s cs pos1 s1 cs1 pos2 s2 cs2 :
    matches r1 pos s cs pos1 s1 cs1 ->
    matches r2 pos1 s1 cs1 pos2 s2 cs2 ->
    matches (Cat r1 r2) pos s cs pos2 s2 cs2
| M_Grp i r pos s cs pos' s' cs' :
    matches r pos s cs pos' s' cs' ->
    matches (Grp i r) pos s cs pos' s' (set_group i (firstn (pos' - pos) s) cs')
| M_Bos s cs : matches Bos 0 s cs 0 s cs
| M_Eos_end pos cs : matches Eos pos [] cs pos [] cs
| M_Eos_newline pos cs : matches Eos pos [0x0A] cs pos [0x0A] cs.

End Re.

(** ** Built-ins: [sorted] on tuples, list indexing, [str(int)] *)

(** [(r1, v1) < (r2, v2)] on tuples of ints: lexicographic. *)
Definition tuple_lt (a b : Z * Z) : bool :=
  (fst a <? fst b) || ((fst a =? fst b) && (snd a <? snd b)).

(** [sorted(l)] is stable and compares with [<] only: every element is
    placed after the elements already there that are not greater. *)
Fixpoint insert_stable {A : Type} (lt : A -> A -> bool) (x : A) (l : list A) : list A :=
  match l with
  | [] => [x]
  | y :: l' => if lt x y then x :: l else y :: insert_stable lt x l'
  end.

Definition sorted_with {A : Type} (lt : A -> A -> bool) (l : list A) : list A :=
  fold_left (fun acc x => insert_stable lt x acc) l [].

(** [a] is not greater than [b], for the comparison [lt]. *)
Definition le_of {A : Type} (lt : A -> A -> bool) (a b : A) : Prop := lt b a = false.

Definition py_sorted (l : list (Z * Z)) : list (Z * Z) := sorted_with tuple_lt l.

(** [l[i]] *)
Definition py_getitem {A : Type} (l : list A) (i : Z) : result A :=
  let j := if i <? 0 then i + Z.of_nat (length l) else i in
  if j <? 0 then Raise IndexError
  else match nth_error l (Z.to_nat j) with
       | Some x => Ok x
       | None => Raise IndexError
       end.

(** [str(n)] on an int: its decimal digits. *)
Fixpoint decimal_digits (fuel : nat) (n : Z) (acc : str) : str :=
  match fuel with
  | O => acc
  | S f =>
      let acc' := (0x30 + n mod 10) :: acc in
      if n <? 10 then acc' else decimal_digits f (n / 10) acc'
  end.

Definition py_str (n : Z) : str :=
  if n <? 0 then 0x2D :: decimal_digits (S (Z.to_nat (Z.log2 (- n)))) (- n) []
  else decimal_digits (S (Z.to_nat (Z.log2 n))) n [].

(** [calendar.month_name] (the English names of the default locale). *)
Definition month_name : list str :=
  map lit [""; "January"; "February"; "March"; "April"; "May"; "June"; "July";
           "August"; "September"; "October"; "November"; "December"]%string.

(** ** Data model *)

Definition RankRow : Type := (Z * str * option Z)%type.   (* rank, title, volume *)

Record DateInfo : Type := mkDateInfo {
  jp_date : option str;
  en_date : option str;
  year : option str;
  month : option str;
  week : option str
}.

Inductive en_source_tag : Type := anilist | machine_translation.

Record RankingEntry : Type := mkEntry {
  e_rank : Z;
  e_jp_title : str;
  e_en_title : str;
  e_en_source : en_source_tag;
  e_volume : option Z;
  e_estimated_sales : Z
}.

Inductive category : Type := weekly | monthly.

Record RankingResult : Type := mkResult {
  category_type : category;
  date_info : DateInfo;
  total_entries : Z;
  rankings : list RankingEntry
}.

(** ** The scraper, over the Unicode decimal-digit table of the runtime *)

Section Scraper.

(** The decimal digits of Unicode (category Nd) with their values:
    the class [\d] of a [str] pattern, and the digits [int] accepts. *)
Variable decimal : char -> option Z.

Definition is_digit (c : char) : bool :=
  match decimal c with
  | Some _ => true
  | None => false
  end.

Fixpoint int_digits (acc : Z) (s : str) : result Z :=
  match s with
  | [] => Ok acc
  | c :: s' =>
      match decimal c with
      | Some d => int_digits (10 * acc + d) s'
      | None => Raise ValueError
      end
  end.

(** [int(s)] on a text of decimal digits (the scraper passes only text
    matched by [\d+]); no limit is put on the number of digits. *)
Definition py_int (s : str) : result Z :=
  match s with
  | [] => Raise ValueError
  | _ => int_digits 0 s
  end.

(** [m.group(i)] of a group that took part in the match. *)
Definition get_group (m : Re.match_obj) (i : nat) : result str :=
  match Re.group (Re.m_caps m) i with
  | Some s => Ok s
  | None => Raise ValueError
  end.

Fixpoint map_result {A B : Type} (f : A -> result B) (l : list A) : result (list B) :=
  match l with
  | [] => Ok []
  | x :: l' =>
      y <- f x ;;
      ys <- map_result f l' ;;
      Ok (y :: ys)
  end.

Definition Seq (rs : list Re.regex) : Re.regex := fold_right Re.Cat Re.Eps rs.

Definition is_nl (c : char) : bool := c =? 0x0A.
Definition not_nl (c : char) : bool := negb (c =? 0x0A).       (* [^\n] and . *)
Definition not_space (c : char) : bool := negb (is_space c).   (* \S *)
Definition not_char (x : char) (c : char) : bool := negb (c =? x).

(** *** 3. Baseline parsing *)

(** おおまかな実売目安 *)
Definition baseline_phrase : str :=
  [0x304A; 0x304A; 0x307E; 0x304B; 0x306A; 0x5B9F; 0x58F2; 0x76EE; 0x5B89].

(** [※[^\n]*おおまかな実売目安[^\n]*\n?(.* )], the group being the
    following line. *)
Definition BASELINE_RE : Re.regex :=
  Seq [Re.Chr 0x203B; Re.Star not_nl; Re.Str baseline_phrase; Re.Star not_nl;
       Re.Opt is_nl; Re.Grp 1 (Re.Star not_nl)].

(** [(\d+)位(\d+)] *)
Definition PAIR_RE : Re.regex :=
  Seq [Re.Grp 1 (Re.Plus is_digit); Re.Chr 0x4F4D; Re.Grp 2 (Re.Plus is_digit)].

(** [(int(r), int(v))] for one tuple of [findall]. *)
Definition int_pair (m : Re.match_obj) : result breakpoint :=
  r <- get_group m 1 ;;
  v <- get_group m 2 ;;
  r' <- py_int r ;;
  v' <- py_int v ;;
  Ok (r', v').

Definition _parse_baseline (text : str) : result (list breakpoint) :=
  match Re.re_search BASELINE_RE text with
  | None => Raise RuntimeError
  | Some m =>
      line <- get_group m 1 ;;
      match Re.re_findall PAIR_RE line with
      | [] => Raise RuntimeError
      | pairs =>
          bps <- map_result int_pair pairs ;;
          Ok (py_sorted bps)
      end
  end.

(** *** 4. Ranking row extraction *)

(** The verbose pattern with its blanks and comments removed:
    [^\s*(\d{1,3})\s*<[^>]+>\s*\d+\s*</a>\s*([^<]+?)\s+(?:\S+\s+){2}\d{4}\.\d{2}\.\d{2}$] *)
Definition ROW_RE : Re.regex :=
  Seq [Re.Bos; Re.Star is_space; Re.Grp 1 (Re.Times is_digit 1 3); Re.Star is_space;
       Re.Chr 0x3C; Re.Plus (not_char 0x3E); Re.Chr 0x3E; Re.Star is_space;
       Re.Plus is_digit; Re.Star is_space; Re.Str (lit "</a>"); Re.Star is_space;
       Re.Grp 2 (Re.LazyPlus (not_char 0x3C)); Re.Plus is_space;
       Re.Plus not_space; Re.Plus is_space; Re.Plus not_space; Re.Plus is_space;
       Re.Times is_digit 4 4; Re.Chr 0x2E; Re.Times is_digit 2 2; Re.Chr 0x2E;
       Re.Times is_digit 2 2; Re.Eos].

(** [\s(\d+)$] *)
Definition VOL_RE : Re.regex :=
  Seq [Re.Cls is_space; Re.Grp 1 (Re.Plus is_digit); Re.Eos].

(** [[Ａ-Ｚａ-ｚ]] and [[０-９]] *)
Definition is_fw_latin (c : char) : bool :=
  ((0xFF21 <=? c) && (c <=? 0xFF3A)) || ((0xFF41 <=? c) && (c <=? 0xFF5A)).
Definition is_fw_digit (c : char) : bool := (0xFF10 <=? c) && (c <=? 0xFF19).

Definition to_sum {A : Type} (x : result A) : exn + A :=
  match x with
  | Ok a => inr a
  | Raise e => inl e
  end.

Definition of_sum {A : Type} (x : exn + A) : result A :=
  match x with
  | inr a => Ok a
  | inl e => Raise e
  end.

(** The title of a matched line, from the text of group 2. *)
Definition clean_title (g2 : str) : result str :=
  let title := strip g2 in
  let title := strip (replace_char 0x3000 0x20 title) in
  (* chr(ord(x) - 0xFEE0) *)
  title <- of_sum (Re.re_sub_class is_fw_latin (fun c => inr [c - 0xFEE0]) title) ;;
  (* str(int(x)) *)
  of_sum (Re.re_sub_class is_fw_digit
            (fun c => to_sum (n <- py_int [c] ;; Ok (py_str n))) title).

(** The volume number at the end of a title, if any. *)
Definition title_volume (title : str) : result (option Z) :=
  match Re.re_search VOL_RE title with
  | Some vol_match =>
      g <- get_group vol_match 1 ;;
      n <- py_int g ;;
      Ok (Some n)
  | None => Ok None
  end.

(** The body of the loop over the candidate lines. *)
Definition extract_row (raw : str) : result (option RankRow) :=
  match Re.re_match ROW_RE (strip raw) with
  | Some m =>
      g2 <- get_group m 2 ;;
      title <- clean_title g2 ;;
      volume <- title_volume title ;;
      g1 <- get_group m 1 ;;
      rank <- py_int g1 ;;
      Ok (Some (rank, title, volume))
  | None => Ok None
  end.

Fixpoint extract_rows (rows : list str) : result (list RankRow) :=
  match rows with
  | [] => Ok []
  | raw :: rest =>
      r <- extract_row raw ;;
      out <- extract_rows rest ;;
      Ok (match r with
          | Some row => row :: out
          | None => out
          end)
  end.

(** [entry] is [soup.find("div", class_="entry_body")], given by the
    text of its [decode_contents()] when the container exists. *)
Definition _extract_rank_list (entry : option str) : result (list RankRow) :=
  match entry with
  | None => Ok []
  | Some contents => extract_rows (split (lit "<br/>") contents)
  end.

(** *** Date extraction *)

Definition nen : char := 0x5E74.     (* 年 *)
Definition gatsu : char := 0x6708.   (* 月 *)
Definition slash : char := 0x2F.
Definition hyphen : char := 0x2D.

(** [(\d{4})年(\d{1,2})月] *)
Definition MONTHLY_RE : Re.regex :=
  Seq [Re.Grp 1 (Re.Times is_digit 4 4); Re.Chr nen;
       Re.Grp 2 (Re.Times is_digit 1 2); Re.Chr gatsu].

(** [(\d{4})年(\d{1,2})/(\d{1,2})-(\d{1,2})/(\d{1,2})] *)
Definition WEEKLY_RE : Re.regex :=
  Seq [Re.Grp 1 (Re.Times is_digit 4 4); Re.Chr nen;
       Re.Grp 2 (Re.Times is_digit 1 2); Re.Chr slash;
       Re.Grp 3 (Re.Times is_digit 1 2); Re.Chr hyphen;
       Re.Grp 4 (Re.Times is_digit 1 2); Re.Chr slash;
       Re.Grp 5 (Re.Times is_digit 1 2)].

Definition no_date : DateInfo := mkDateInfo None None None None None.

(** [calendar.month_name[int(s)]] *)
Definition month_en (s : str) : result str :=
  n <- py_int s ;;
  py_getitem month_name n.

(** [header] is the text of [soup.find("h2", class_="entry_header")]
    when that element exists. *)
Definition _extract_date_info (header : option str) (is_monthly : bool)
  : result DateInfo :=
  match header with
  | None => Ok no_date
  | Some text =>
      if is_monthly then
        match Re.re_search MONTHLY_RE text with
        | Some m =>
            year <- get_group m 1 ;;
            month <- get_group m 2 ;;
            let jp_date := year ++ [nen] ++ month ++ [gatsu] in
            en_month <- month_en month ;;
            let en_date := en_month ++ lit " " ++ year in
            Ok (mkDateInfo (Some jp_date) (Some en_date) (Some year) (Some month) None)
        | None => Ok no_date
        end
      else
        match Re.re_search WEEKLY_RE text with
        | Some m =>
            year <- get_group m 1 ;;
            start_month <- get_group m 2 ;;
            start_day <- get_group m 3 ;;
            end_month <- get_group m 4 ;;
            end_day <- get_group m 5 ;;
            let jp_date := year ++ [nen] ++ start_month ++ [slash] ++ start_day
                           ++ [hyphen] ++ end_month ++ [slash] ++ end_day in
            en_start <- month_en start_month ;;
            en_end <- month_en end_month ;;
            let en_date := en_start ++ lit " " ++ start_day ++ lit " - " ++ en_end
                           ++ lit " " ++ end_day ++ lit ", " ++ year in
            let week := start_month ++ [slash] ++ start_day ++ [hyphen]
                        ++ end_month ++ [slash] ++ end_day in
            Ok (mkDateInfo (Some jp_date) (Some en_date) (Some year) None (Some week))
        | None => Ok no_date
        end
  end.

(** *** 5. High-level workflow *)

(** What the fetched article page gives: [soup.get_text], the header
    text and the body container, the last two when they exist. *)
Record article : Type := mkArticle {
  article_text : str;
  article_header : option str;
  article_entry : option str
}.

Section Workflow.

(** The answers of the two collaborators: the AniList lookup of every
    title ([en_map.get]) and the machine translation. *)
Variable en_map : str -> option str.
Variable _machine_translate : str -> str.

(** Truth value of [en_map.get(jp)]: a non-empty text. *)
Definition truthy (x : option str) : bool :=
  match x with
  | Some (_ :: _) => true
  | _ => false
  end.

(** The loop over [rank_lines], appending to [results]. *)
Fixpoint build_results (estimator : Z -> result Z) (limit : Z)
  (rank_lines : list RankRow) : result (list RankingEntry) :=
  match rank_lines with
  | [] => Ok []
  | (rank, jp, volume) :: rest =>
      if limit <? rank then build_results estimator limit rest
      else
        let (en_title, source) :=
          match en_map jp with
          | Some (c :: t) => (c :: t, anilist)
          | _ => (_machine_translate jp, machine_translation)
          end in
        sales <- estimator rank ;;
        out <- build_results estimator limit rest ;;
        Ok (mkEntry rank jp en_title source volume sales :: out)
  end.

Definition scrape_latest_weekly_and_estimate (page : article)
  (limit : Z) (use_monthly : bool) : result RankingResult :=
  let category_type := if use_monthly then monthly else weekly in
  date_info <- _extract_date_info (article_header page) use_monthly ;;
  breakpoints <- _parse_baseline (article_text page) ;;
  let estimator := _make_estimator breakpoints in
  rank_lines <- _extract_rank_list (article_entry page) ;;
  results <- build_results estimator limit rank_lines ;;
  Ok (mkResult category_type date_info (Z.of_nat (length results)) results).

End Workflow.

End Scraper.

(** A digit table that holds the ASCII and the full-width digits only,
    for running the scraper on concrete texts. *)
Definition decimal_basic (c : char) : option Z :=
  if (0x30 <=? c) && (c <=? 0x39) then Some (c - 0x30)
  else if (0xFF10 <=? c) && (c <=? 0xFF19) then Some (c - 0xFF10)
  else None.

(** ** Vocabulary of the specification *)

(** Sorted ascending by rank. *)
Definition rank_le (a b : breakpoint) : Prop := fst a <= fst b.
Definition ascending (bps : list breakpoint) : Prop := StronglySorted rank_le bps.

(** No rank occurs twice. *)
Definition distinct_ranks (bps : list breakpoint) : Prop := NoDup (map fst bps).

(** The largest rank of a breakpoint list. *)
Definition max_rank (bps : list breakpoint) : Z :=
  match bps with
  | [] => 0
  | p :: rest => fold_left (fun m q => Z.max m (fst q)) rest (fst p)
  end.

(** The interpolation as the specification words it: the division is
    truncated toward zero, then added to [v1]. *)
Definition spec_interpolation (rank r1 v1 r2 v2 : Z) : Z :=
  v1 + Z.quot ((v2 - v1) * (rank - r1)) (r2 - r1).

(** The exact interpolated value [v1 + (v2 - v1) * (rank - r1) / (r2 - r1)]
    truncated toward zero as a whole. *)
Definition trunc_interpolation (rank r1 v1 r2 v2 : Z) : Z :=
  Z.quot (v1 * (r2 - r1) + (v2 - v1) * (rank - r1)) (r2 - r1).

(** Magnitudes for which the float arithmetic of the interpolation is
    exact enough: ranks from 0 to [2^20], sales within [2^31] in
    magnitude. *)
Definition small_breakpoints (bps : list breakpoint) : Prop :=
  Forall (fun p => 0 <= fst p <= 2 ^ 20 /\ Z.abs (snd p) <= 2 ^ 31) bps.

(** A sales value too large for a float: [10^400]. *)
Definition huge_bps : list breakpoint := [(1, 0); (3, 10 ^ 400)].

(** A row is within the limit. *)
Definition row_rank (row : RankRow) : Z := fst (fst row).
Definition within_limit (limit : Z) (row : RankRow) : bool := row_rank row <=? limit.


(** The order of [sorted] on tuples: by rank, then by sales. *)
Definition tuple_le (a b : breakpoint) : Prop :=
  fst a < fst b \/ (fst a = fst b /\ snd a <= snd b).


(** The text holds the marker line: the mark ※ followed, on the same
    line, by the phrase of the baseline. *)
Definition has_marker_line (text : str) : Prop :=
  exists pre a rest,
    text = pre ++ 0x203B :: a ++ baseline_phrase ++ rest
    /\ forallb not_nl a = true.

(** A text without leading or trailing whitespace. *)
Definition trimmed (t : str) : Prop := strip t = t.

(** The ASCII equivalent of a full-width Latin letter, digit or space;
    any other character stands for itself. *)
Definition ascii_equivalent (c : char) : char :=
  if is_fw_latin c || is_fw_digit c then c - 0xFEE0
  else if c =? 0x3000 then 0x20
  else c.

(** The first character of a text, if any, is no whitespace. *)
Definition head_ok (u : str) : Prop :=
  match u with
  | c :: _ => is_space c = false
  | [] => True
  end.





(** A text of [lo] to [hi] digits. *)
Definition digits_between (is_dig : char -> bool) (lo hi : nat) (w : str) : Prop :=
  forallb is_dig w = true /\ (lo <= length w <= hi)%nat.

(** The fragment YYYY年M/D-M2/D2 and its part M/D-M2/D2. *)
Definition week_fragment (sm sd em ed : str) : str :=
  sm ++ [slash] ++ sd ++ [hyphen] ++ em ++ [slash] ++ ed.

Definition weekly_fragment (y sm sd em ed : str) : str :=
  y ++ [nen] ++ week_fragment sm sd em ed.

Definition is_weekly_fragment (is_dig : char -> bool) (y sm sd em ed : str) : Prop :=
  digits_between is_dig 4 4 y /\ digits_between is_dig 1 2 sm
  /\ digits_between is_dig 1 2 sd /\ digits_between is_dig 1 2 em
  /\ digits_between is_dig 1 2 ed.


(** The header matches the monthly pattern YYYY年M月. *)
Definition matches_monthly (is_dig : char -> bool) (text : str) : Prop :=
  exists pre y mo post,
    text = pre ++ (y ++ [nen] ++ mo ++ [gatsu]) ++ post
    /\ digits_between is_dig 4 4 y /\ digits_between is_dig 1 2 mo.

(** 2025年13/1-13/7: the pattern with a month number above 12. *)
Definition month13_header : str := lit "2025" ++ [0x5E74] ++ lit "13/1-13/7".

(** The float [m * 2^e] is the rational [n / d] rounded at an exponent
    [e <= 0], and at an exponent [e <= -21] unless [n] is zero. *)
Definition is_round (n d m e : Z) : Prop :=
  e <= 0 /\ m = PyFloat.div_half_even (n * 2 ^ (- e)) d /\ (n <> 0 -> e <= -21).

(** ** Fixtures *)

(** 1位5000 10位1000 50位200 below the marker line. *)
Definition fixture_text : str :=
  [0x203B] ++ baseline_phrase ++ [0x0A]
  ++ lit "1" ++ [0x4F4D] ++ lit "5000 10" ++ [0x4F4D] ++ lit "1000 50" ++ [0x4F4D] ++ lit "200".



(** Five lines ranked 1 to 5. *)
Definition fixture_markup : str :=
  lit "1 <a href=x>9784</a> Alpha 3 Pub Auth 2025.07.01<br/>"
  ++ lit "2 <a href=x>9785</a> Beta Pub Auth 2025.07.02<br/>"
  ++ lit "3 <a href=x>9786</a> Gamma 12 Pub Auth 2025.07.03<br/>"
  ++ lit "4 <a href=x>9787</a> Delta Pub Auth 2025.07.04<br/>"
  ++ lit "5 <a href=x>9788</a> Epsilon Pub Auth 2025.07.05".

(** A line whose title is ＡＢｃ　１２. *)
Definition fixture_line : str :=
  lit "  12 <a h>978</a> " ++ [0xFF21; 0xFF22; 0xFF43; 0x3000; 0xFF11; 0xFF12]
  ++ lit " pub auth 2020.01.01".


(** 2025年6/30-7/6 漫画ランキング *)
Definition fixture_header : str :=
  lit "2025" ++ [0x5E74] ++ lit "6/30-7/6 " ++ [0x6F2B; 0x753B; 0x30E9; 0x30F3; 0x30AD; 0x30F3; 0x30B0].

Definition fixture_page : article :=
  mkArticle fixture_text (Some fixture_header) (Some fixture_markup).


Definition fixture_rows : list RankRow :=
  [(1, lit "Alpha 3", Some 3); (2, lit "Beta", None); (3, lit "Gamma 12", Some 12);
   (4, lit "Delta", None); (5, lit "Epsilon", None)].

Definition fixture_bps : list breakpoint := [(1, 5000); (10, 1000); (50, 200)].

(** Collaborators for the fixtures: no title is known to the lookup, and
    the translation gives the title back. *)
Definition no_lookup (jp : str) : option str := None.
Definition no_translation (jp : str) : str := jp.

Definition fixture_date : DateInfo :=
  mkDateInfo (Some (lit "2025" ++ [0x5E74] ++ lit "6/30-7/6"))
             (Some (lit "June 30 - July 6, 2025"))
             (Some (lit "2025")) None (Some (lit "6/30-7/6")).

(** ** Further parts of the program *)

(** *** 1. The address of the latest article *)

Definition WEEKLY_CATEGORY_URL : str :=
  lit "http://shosekiranking.blog.fc2.com/blog-category-6.html".
Definition MONTHLY_CATEGORY_URL : str :=
  lit "http://shosekiranking.blog.fc2.com/blog-category-4.html".

Section Links.

Variable decimal : char -> option Z.

(** What [_get_soup(url).find_all("a", href=True)] gives for the page at
    an address, once the page is fetched: the [href] values of its
    links, in document order. *)
Variable page_links : str -> list str.

(** [blog-entry-\d+\.html$] *)
Definition ENTRY_RE : Re.regex :=
  Seq [Re.Str (lit "blog-entry-"); Re.Plus (is_digit decimal); Re.Str (lit ".html");
       Re.Eos].

(** [for a in soup.find_all("a", href=True): ...]: the first address
    that the pattern is found in. *)
Fixpoint first_entry_link (hrefs : list str) : option str :=
  match hrefs with
  | [] => None
  | href :: rest =>
      match Re.re_search ENTRY_RE href with
      | Some _ => Some href
      | None => first_entry_link rest
      end
  end.

Definition _latest_article_url (use_monthly : bool) : result (str * category) :=
  let category_url := if use_monthly then MONTHLY_CATEGORY_URL else WEEKLY_CATEGORY_URL in
  let category_type := if use_monthly then monthly else weekly in
  match first_entry_link (page_links category_url) with
  | Some href => Ok (href, category_type)
  | None => Raise RuntimeError
  end.

End Links.

(** *** 2. Title lookup *)

(** [re.sub(r, repl, s)] for a constant [repl] and a pattern that
    matches no empty text: every match found from left to right is
    replaced, the search going on after its end; [skip] counts the
    characters of the last match still to be passed. *)
Fixpoint sub_from (r : Re.regex) (repl : str) (skip pos : nat) (s : str) : str :=
  match skip with
  | S n =>
      match s with
      | [] => []
      | _ :: s' => sub_from r repl n (S pos) s'
      end
  | O =>
      match Re.match_at r pos s with
      | Some m =>
          repl ++ match s with
                  | [] => []
                  | _ :: s' => sub_from r repl (Re.m_end m - pos - 1) (S pos) s'
                  end
      | None =>
          match s with
          | [] => []
          | c :: s' => c :: sub_from r repl O (S pos) s'
          end
      end
  end.

Definition re_sub (r : Re.regex) (repl s : str) : str := sub_from r repl 0 0 s.

Section Clean.

Variable decimal : char -> option Z.

(** [\s+\d+\s*$] *)
Definition CLEAN_RE : Re.regex :=
  Seq [Re.Plus is_space; Re.Plus (is_digit decimal); Re.Star is_space; Re.Eos].

Definition _clean_for_lookup (jp_title : str) : str :=
  strip (re_sub CLEAN_RE [] jp_title).

End Clean.

(** Python dicts keyed by [str], in insertion order. *)

Fixpoint str_eqb (a b : str) : bool :=
  match a, b with
  | [], [] => true
  | x :: a', y :: b' => (x =? y) && str_eqb a' b'
  | _, _ => false
  end.

Definition dict (V : Type) : Type := list (str * V).

(** [d.get(k)], and [k in d] when it is not [None]. *)
Fixpoint dict_get {V : Type} (d : dict V) (k : str) : option V :=
  match d with
  | [] => None
  | (k', v) :: d' => if str_eqb k k' then Some v else dict_get d' k
  end.

(** [d[k] = v]: the value of a key already there is replaced in place,
    a new key goes last. *)
Fixpoint dict_set {V : Type} (d : dict V) (k : str) (v : V) : dict V :=
  match d with
  | [] => [(k, v)]
  | (k', v') :: d' =>
      if str_eqb k k' then (k', v) :: d' else (k', v') :: dict_set d' k v
  end.

Definition dict_keys {V : Type} (d : dict V) : list str := map fst d.

(** JSON values as [r.json()] builds them, and the operations of the
    lookup on them. *)

Module Json.

Local Unset Elimination Schemes.
Inductive value : Type :=
| JNull                         (* None *)
| JBool (b : bool)
| JInt (n : Z)
| JFloat (x : PyFloat.float)
| JStr (s : str)
| JList (l : list value)
| JDict (d : list (str * value)).
Local Set Elimination Schemes.

(** The exceptions of the operations below. *)
Inductive error : Type := AttributeError | TypeError | KeyError | IndexError.

(** Truth value. *)
Definition truthy (x : value) : bool :=
  match x with
  | JNull => false
  | JBool b => b
  | JInt n => negb (n =? 0)
  | JFloat (PyFloat.Finite m _) => negb (m =? 0)
  | JFloat PyFloat.Infinite => true
  | JStr s => match s with [] => false | _ => true end
  | JList l => match l with [] => false | _ => true end
  | JDict d => match d with [] => false | _ => true end
  end.

(** [x.get(k)]: only a dict has the method. *)
Definition get (x : value) (k : str) : error + value :=
  match x with
  | JDict d => inr (match dict_get d k with
                   | Some v => v
                   | None => JNull
                   end)
  | _ => inl AttributeError
  end.

(** [x[k]] for a [str] key. *)
Definition item (x : value) (k : str) : error + value :=
  match x with
  | JDict d => match dict_get d k with
              | Some v => inr v
              | None => inl KeyError
              end
  | _ => inl TypeError
  end.

(** [x[0]] *)
Definition first (x : value) : error + value :=
  match x with
  | JList (v :: _) => inr v
  | JList [] => inl IndexError
  | JStr (c :: _) => inr (JStr [c])
  | JStr [] => inl IndexError
  | JDict _ => inl KeyError
  | _ => inl TypeError
  end.

End Json.

Notation "x <~ c ;; k" :=
  (match c with
   | inr x => k
   | inl e => inl e
   end)
  (at level 61, c at next level, right associativity).

(** [s.replace(a, b)] for a one-character [a]. *)
Definition replace_with (a : char) (b : str) (s : str) : str :=
  flat_map (fun c => if c =? a then b else [c]) s.

(** [sep.join(l)] *)
Fixpoint join (sep : str) (l : list str) : str :=
  match l with
  | [] => []
  | [x] => x
  | x :: l' => x ++ sep ++ join sep l'
  end.

(** The batches of titles. *)

Definition ALIAS_BATCH : nat := 50.

(** [range(i, stop, step)] for [step >= 1]; [stop - i] steps are
    enough. *)
Fixpoint range_from (fuel i stop step : nat) : list nat :=
  match fuel with
  | O => []
  | S f => if (i <? stop)%nat then i :: range_from f (i + step) stop step else []
  end.

Definition py_range (stop step : nat) : list nat := range_from stop 0 stop step.

(** [l[i:j]] for [0 <= i <= j]. *)
Definition py_slice {A : Type} (l : list A) (i j : nat) : list A :=
  firstn (j - i) (skipn i l).

(** [unique_titles[i : i + ALIAS_BATCH] for i in range(0, len(unique_titles), ALIAS_BATCH)] *)
Definition title_batches (unique_titles : list str) : list (list str) :=
  map (fun i => py_slice unique_titles i (i + ALIAS_BATCH))
    (py_range (length unique_titles) ALIAS_BATCH).

Section Batch.

Variable decimal : char -> option Z.

(** What the request returns: [post query] is [r.json()["data"]], or
    [None] when anything raised inside the [try] (the request, the
    status check, the decoding, a missing ["data"]). *)
Variable post : str -> option Json.value.

(** [f"manga_{i}"] *)
Definition alias (i : nat) : str := lit "manga_" ++ py_str (Z.of_nat i).

(** One alias block of the query. *)
Definition alias_block (i : nat) (jp : str) : str :=
  let esc := replace_with 0x22 [0x5C; 0x22] (_clean_for_lookup decimal jp) in
  [0x0A] ++ lit "            " ++ alias i ++ lit ": Page(perPage: 1) {"
  ++ [0x0A] ++ lit "              pageInfo { total }"
  ++ [0x0A] ++ lit "              results: media(type: MANGA, search: "
  ++ [0x22] ++ esc ++ [0x22] ++ lit ") {"
  ++ [0x0A] ++ lit "                title { english romaji }"
  ++ [0x0A] ++ lit "              }"
  ++ [0x0A] ++ lit "            }".

(** [for i, jp in enumerate(jp_titles): alias_blocks.append(...)] *)
Fixpoint alias_blocks (i : nat) (jp_titles : list str) : list str :=
  match jp_titles with
  | [] => []
  | jp :: rest => alias_block i jp :: alias_blocks (S i) rest
  end.

Definition build_query (jp_titles : list str) : str :=
  lit "query {" ++ [0x0A] ++ join [0x0A] (alias_blocks 0 jp_titles) ++ [0x0A] ++ lit "}".

(** The value stored for the title number [i]. *)
Definition alias_answer (data : Json.value) (i : nat) : Json.error + Json.value :=
  node <~ Json.get data (alias i) ;;
  if Json.truthy node then
    results <~ Json.get node (lit "results") ;;
    if Json.truthy results then
      results <~ Json.item node (lit "results") ;;
      media <~ Json.first results ;;
      titles <~ Json.item media (lit "title") ;;
      english <~ Json.get titles (lit "english") ;;
      if Json.truthy english then inr english
      else Json.get titles (lit "romaji")
    else inr Json.JNull
  else inr Json.JNull.

(** [for i, original in enumerate(jp_titles): out[original] = ...] *)
Fixpoint answers_loop (data : Json.value) (i : nat) (jp_titles : list str)
  (out : dict Json.value) : Json.error + dict Json.value :=
  match jp_titles with
  | [] => inr out
  | original :: rest =>
      v <~ alias_answer data i ;;
      answers_loop data (S i) rest (dict_set out original v)
  end.

(** [{t: None for t in jp_titles}] *)
Definition all_none (jp_titles : list str) : dict Json.value :=
  fold_left (fun out t => dict_set out t Json.JNull) jp_titles [].

Definition _query_anilist_batch (jp_titles : list str) : Json.error + dict Json.value :=
  match post (build_query jp_titles) with
  | None => inr (all_none jp_titles)
  | Some data => answers_loop data 0 jp_titles []
  end.

(** [for jp, en in batch_result.items(): en_map[jp] = en] *)
Definition merge_batch (en_map batch_result : dict Json.value) : dict Json.value :=
  fold_left (fun m kv => dict_set m (fst kv) (snd kv)) batch_result en_map.

(** The loop over the batches that fills [en_map] (the map
    [source_map] filled alongside is never read). *)
Fixpoint resolve_loop (batches : list (list str)) (en_map : dict Json.value)
  : Json.error + dict Json.value :=
  match batches with
  | [] => inr en_map
  | batch :: rest =>
      batch_result <~ _query_anilist_batch batch ;;
      resolve_loop rest (merge_batch en_map batch_result)
  end.

(** The [en_map] of the workflow; [unique_titles] is [list({title for
    ...})], the titles of the rows without repetition, in the order the
    set gives them. *)
Definition resolve_titles (unique_titles : list str) : Json.error + dict Json.value :=
  resolve_loop (title_batches unique_titles) [].

End Batch.

(** *** The loop of the window, [shoseki_gui.py] *)

Section Gui.

Variable decimal : char -> option Z.
Variable en_map : str -> option str.
Variable _machine_translate : str -> str.

(** One call [progress_callback(current, total)]. *)
Definition progress : Type := (Z * Z)%type.

(** The loop of [_scrape_and_save] over [rank_lines], which runs in
    [shoseki_gui.py] in place of the scraper's: [results] is the list
    built so far; the calls of [progress_callback] made until the loop
    ends or raises come with its outcome. *)
Fixpoint gui_loop (estimator : Z -> result Z) (limit total : Z)
  (rank_lines : list RankRow) (results : list RankingEntry)
  : list progress * result (list RankingEntry) :=
  match rank_lines with
  | [] => ([], Ok results)
  | (rank, jp, volume) :: rest =>
      if limit <? rank then gui_loop estimator limit total rest results
      else
        let en_title := en_map jp in
        let source := if truthy en_title then anilist else machine_translation in
        let en_title :=
          match en_title with
          | Some (c :: t) => c :: t
          | _ => _machine_translate jp
          end in
        match estimator rank with
        | Raise e => ([], Raise e)
        | Ok sales =>
            let results := results ++ [mkEntry rank jp en_title source volume sales] in
            let (calls, out) := gui_loop estimator limit total rest results in
            ((Z.of_nat (length results), total) :: calls, out)
        end
  end.

(** The record [data] that [_scrape_and_save] builds and writes to the
    output file, with the calls of [progress_callback]; the baseline is
    parsed before the date is extracted. *)
Definition _scrape_and_save (page : article) (limit : Z) (use_monthly : bool)
  : list progress * result RankingResult :=
  let category_type := if use_monthly then monthly else weekly in
  match _parse_baseline decimal (article_text page) with
  | Raise e => ([], Raise e)
  | Ok breakpoints =>
      let estimator := _make_estimator breakpoints in
      match _extract_date_info decimal (article_header page) use_monthly with
      | Raise e => ([], Raise e)
      | Ok date_info =>
          match _extract_rank_list decimal (article_entry page) with
          | Raise e => ([], Raise e)
          | Ok rank_lines =>
              let total := Z.min limit (Z.of_nat (length rank_lines)) in
              let (calls, out) := gui_loop estimator limit total rank_lines [] in
              (calls,
               results <- out ;;
               Ok (mkResult category_type date_info (Z.of_nat (length results)) results))
          end
      end
  end.

End Gui.

(** *** The cached translation *)

Section Translate.

(** What the translation service answers for a title, [None] when the
    call raises. *)
Variable translator : str -> option str.

Definition _machine_translate (jp_title : str) : str :=
  match translator jp_title with
  | Some en => en
  | None => jp_title
  end.

(** [_jp_to_en(jp_title, cache)]: the title returned and the cache as
    the call leaves it. *)
Definition _jp_to_en (jp_title : str) (cache : dict str) : str * dict str :=
  match dict_get cache jp_title with
  | Some en => (en, cache)
  | None =>
      let en := _machine_translate jp_title in
      (en, dict_set cache jp_title en)
  end.

End Translate.

(** ** Further vocabulary *)

(** The part of the marker pattern after the phrase: [[^\n]*\n?(.* )]. *)
Definition BASELINE_REST : Re.regex :=
  Seq [Re.Star not_nl; Re.Opt is_nl; Re.Grp 1 (Re.Star not_nl)].

(** The text ends here, or goes on with a line break. *)
Definition line_end (tail : str) : Prop := tail = [] \/ exists t, tail = 0x0A :: t.

(** A class stops at the head of a text. *)
Definition stops (p : char -> bool) (s : str) : Prop :=
  match s with
  | [] => True
  | c :: _ => p c = false
  end.

(** The fragment YYYY年M月. *)
Definition monthly_fragment (y mo : str) : str := y ++ [nen] ++ mo ++ [gatsu].

(** What a date record holds when a fragment was found: the year's four
    digits, the Japanese date made of the year, 年 and the rest of the
    fragment, an English date that ends with the year, and the month
    (monthly) or the week (weekly), never both. *)
Definition date_consistent (is_dig : char -> bool) (is_monthly : bool) (d : DateInfo)
  : Prop :=
  exists y rest en,
    digits_between is_dig 4 4 y
    /\ year d = Some y
    /\ jp_date d = Some (y ++ [nen] ++ rest)
    /\ en_date d = Some (en ++ y)
    /\ (if is_monthly
        then exists mo, rest = mo ++ [gatsu] /\ digits_between is_dig 1 2 mo
                        /\ month d = Some mo /\ week d = None
        else week d = Some rest /\ month d = None).

(** The values [1], ..., [n] of the progress bar, each with the same
    maximum. *)
Definition progress_steps (first : nat) (n : nat) (total : Z) : list progress :=
  map (fun i => (Z.of_nat i, total)) (seq first n).

(** The address ends with blog-entry-, digits and .html, a final line
    break apart. *)
Definition is_entry_link (is_dig : char -> bool) (href : str) : Prop :=
  exists pre ds tail,
    href = pre ++ lit "blog-entry-" ++ ds ++ lit ".html" ++ tail
    /\ ds <> [] /\ forallb is_dig ds = true /\ (tail = [] \/ tail = [0x0A]).

(** The address of the category page of a period. *)
Definition category_url (use_monthly : bool) : str :=
  if use_monthly then MONTHLY_CATEGORY_URL else WEEKLY_CATEGORY_URL.

(** The text ends in a whitespace, the digits [ds] and whitespace
    only. *)
Definition ends_in_spaced_number (is_dig : char -> bool) (t pre ds : str) : Prop :=
  exists w tail,
    t = pre ++ w :: ds ++ tail /\ is_space w = true /\ ds <> []
    /\ forallb is_dig ds = true /\ forallb is_space tail = true.

(** A node of the shape the service documents for one alias: nothing
    (null or an empty object), or an object whose results are absent or
    empty, or begin with a medium that has an object for title. *)
Definition node_shape (node : Json.value) : Prop :=
  Json.truthy node = false
  \/ exists nd,
       node = Json.JDict nd
       /\ (match dict_get nd (lit "results") with
           | None => True
           | Some r =>
               Json.truthy r = false
               \/ exists md td rest,
                    r = Json.JList (Json.JDict md :: rest)
                    /\ dict_get md (lit "title") = Some (Json.JDict td)
           end).

(** ** Further fixtures *)

(** A text whose marker line holds a token of its own, 9位9, and which
    goes on after the line of the tokens. *)
Definition busy_text : str :=
  lit "top " ++ 0x203B :: lit " " ++ baseline_phrase ++ (lit " 9" ++ [0x4F4D] ++ lit "9")
  ++ 0x0A :: (lit "1" ++ [0x4F4D] ++ lit "5000 10" ++ [0x4F4D] ++ lit "1000")
  ++ (0x0A :: lit "2" ++ [0x4F4D] ++ lit "7").

(** 2025年5月 漫画ランキング *)
Definition monthly_header : str :=
  lit "2025" ++ [0x5E74] ++ lit "5" ++ [0x6708; 0x20; 0x6F2B; 0x753B].

(** A page whose header names month 13 and whose text holds no marker
    line. *)
Definition broken_page : article :=
  mkArticle (lit "no baseline") (Some month13_header) (Some fixture_markup).

(** Two category pages: the monthly one lists three articles, the
    weekly one none. *)
Definition fixture_links (url : str) : list str :=
  if starts_with MONTHLY_CATEGORY_URL url then
    [lit "index.html"; lit "blog-entry-.html"; lit "http://x/blog-entry-12.html?p=1";
     lit "http://x/blog-entry-345.html"; lit "http://x/blog-entry-344.html"]
  else [lit "index.html"; lit "blog-entry-.html"].

(** A reply of the documented shape: three aliases, the first with
    an English title, the second with a romaji title only, the third
    without result. *)
Definition media (english romaji : Json.value) : Json.value :=
  Json.JDict [(lit "pageInfo", Json.JDict [(lit "total", Json.JInt 1)]);
              (lit "results",
               Json.JList [Json.JDict [(lit "title",
                                        Json.JDict [(lit "english", english);
                                                    (lit "romaji", romaji)])]])].

Definition fixture_reply : Json.value :=
  Json.JDict
    [(lit "manga_0", media (Json.JStr (lit "Alpha")) (Json.JStr (lit "Arufa")));
     (lit "manga_1", media Json.JNull (Json.JStr (lit "Beta")));
     (lit "manga_2",
      Json.JDict [(lit "pageInfo", Json.JDict [(lit "total", Json.JInt 0)]);
                  (lit "results", Json.JList [])])].

Definition offline (query : str) : option Json.value := None.
Definition fixture_post (query : str) : option Json.value := Some fixture_reply.
Definition null_post (query : str) : option Json.value := Some Json.JNull.


(* ------------------------------------------------------------------ *)
(** * Part II: properties                                               *)
(* ------------------------------------------------------------------ *)

Example estimator_fixture :
  map (_make_estimator [(1, 5000); (10, 1000); (50, 200)]) [0; 1; 2; 10; 30; 50; 51]
  = [Raise ValueError; Ok (-1); Ok 4555; Ok 1000; Ok 600; Ok 200; Raise ValueError].
Proof. vm_compute. reflexivity. Qed.

(** ** Tactics *)

(** Turns boolean comparisons in the context into arithmetic facts. *)
Ltac bool_to_Z :=
  repeat match goal with
    | H : _ || _ = true |- _ => apply orb_true_iff in H
    | H : _ || _ = false |- _ => apply orb_false_iff in H
    | H : _ && _ = true |- _ => apply andb_true_iff in H
    | H : _ && _ = false |- _ => apply andb_false_iff in H
    | H : (_ <=? _) = true |- _ => apply Z.leb_le in H
    | H : (_ <=? _) = false |- _ => apply Z.leb_gt in H
    | H : (_ =? _) = true |- _ => apply Z.eqb_eq in H
    | H : (_ =? _) = false |- _ => apply Z.eqb_neq in H
    | H : (_ <? _) = true |- _ => apply Z.ltb_lt in H
    | H : (_ <? _) = false |- _ => apply Z.ltb_ge in H
    | H : _ /\ _ |- _ => destruct H
    | H : _ \/ _ |- _ => destruct H
    end.

(** Takes a hypothesis on a sequence of pattern items apart, down to the
    text each item consumed. *)
Ltac split_match :=
  repeat match goal with
    | H : Re.matches (Seq _) _ _ _ _ _ _ |- _ => unfold Seq in H; cbn [fold_right] in H
    | H : Re.matches (Re.Str _) _ _ _ _ _ _ |- _ => cbn [Re.Str lit map] in H
    | H : Re.matches (Re.Star _) _ _ _ _ _ _ |- _ => unfold Re.Star in H
    | H : Re.matches (Re.Plus _) _ _ _ _ _ _ |- _ => unfold Re.Plus in H
    | H : Re.matches (Re.LazyPlus _) _ _ _ _ _ _ |- _ => unfold Re.LazyPlus in H
    | H : Re.matches (Re.Opt _) _ _ _ _ _ _ |- _ => unfold Re.Opt in H
    | H : Re.matches (Re.Times _ _ _) _ _ _ _ _ _ |- _ => unfold Re.Times in H
    | H : Re.matches (Re.Cat _ _) _ _ _ _ _ _ |- _ => inversion H; subst; clear H
    | H : Re.matches (Re.Grp _ _) _ _ _ _ _ _ |- _ => inversion H; subst; clear H
    | H : Re.matches (Re.Rep _ _ _ _) _ _ _ _ _ _ |- _ => inversion H; subst; clear H
    | H : Re.matches (Re.Chr _) _ _ _ _ _ _ |- _ => inversion H; subst; clear H
    | H : Re.matches (Re.Cls _) _ _ _ _ _ _ |- _ => inversion H; subst; clear H
    | H : Re.matches Re.Eps _ _ _ _ _ _ |- _ => inversion H; subst; clear H
    | H : Re.matches Re.Bos _ _ _ _ _ _ |- _ => inversion H; subst; clear H
    end.

(** ** Float arithmetic of the interpolation *)

Module PyFloatFacts.
Import PyFloat.

(** The rounded quotient is the floor or the floor plus one. *)
Lemma div_half_even_cases (n d : Z) :
  0 < d ->
  (div_half_even n d = n / d /\ 2 * (n mod d) <= d)
  \/ (div_half_even n d = n / d + 1 /\ d <= 2 * (n mod d)).
Proof.
  intros Hd. unfold div_half_even.
  destruct (2 * (n mod d) <? d) eqn:E1; [left; split; [reflexivity|lia]|].
  destruct (d <? 2 * (n mod d)) eqn:E2; [right; split; [reflexivity|lia]|].
  apply Z.ltb_ge in E1, E2.
  destruct (Z.even (n / d)); [left|right]; split; try reflexivity; lia.
Qed.

(** An exact quotient is kept. *)
Lemma div_half_even_exact (z d : Z) : 0 < d -> div_half_even (z * d) d = z.
Proof.
  intros Hd. unfold div_half_even.
  rewrite Z.mod_mul, Z.div_mul by lia.
  replace (2 * 0 <? d) with true by (symmetry; apply Z.ltb_lt; lia). reflexivity.
Qed.

(** Rounding to the nearest integer is monotone. *)
Lemma div_half_even_mono (n1 n2 d : Z) :
  0 < d -> n1 <= n2 -> div_half_even n1 d <= div_half_even n2 d.
Proof.
  intros Hd Hn.
  pose proof (Z.div_le_mono n1 n2 d Hd Hn) as Hq.
  pose proof (Z.div_mod n1 d ltac:(lia)) as E1.
  pose proof (Z.div_mod n2 d ltac:(lia)) as E2.
  pose proof (Z.mod_pos_bound n1 d Hd) as B1.
  pose proof (Z.mod_pos_bound n2 d Hd) as B2.
  destruct (Z.eq_dec (n1 / d) (n2 / d)) as [Eq|Ne].
  - assert (Hr : n1 mod d <= n2 mod d) by nia.
    unfold div_half_even. rewrite Eq.
    destruct (2 * (n1 mod d) <? d) eqn:A1.
    + destruct (2 * (n2 mod d) <? d); [lia|].
      destruct (d <? 2 * (n2 mod d)); [lia|]. destruct (Z.even (n2 / d)); lia.
    + apply Z.ltb_ge in A1.
      replace (2 * (n2 mod d) <? d) with false by (symmetry; apply Z.ltb_ge; lia).
      destruct (d <? 2 * (n1 mod d)) eqn:A2.
      * apply Z.ltb_lt in A2.
        replace (d <? 2 * (n2 mod d)) with true by (symmetry; apply Z.ltb_lt; lia). lia.
      * destruct (d <? 2 * (n2 mod d)); [destruct (Z.even (n2 / d)); lia|lia].
  - destruct (div_half_even_cases n1 d Hd) as [[-> _]|[-> _]],
             (div_half_even_cases n2 d Hd) as [[-> _]|[-> _]]; lia.
Qed.

(** Brackets of a rounded quotient by integers. *)
Lemma div_half_even_lower (n d u : Z) :
  0 < d -> u * d <= n -> u <= div_half_even n d.
Proof.
  intros Hd H. rewrite <- (div_half_even_exact u d Hd).
  now apply div_half_even_mono.
Qed.

Lemma div_half_even_upper (n d u : Z) :
  0 < d -> n <= u * d -> div_half_even n d <= u.
Proof.
  intros Hd H. rewrite <- (div_half_even_exact u d Hd).
  now apply div_half_even_mono.
Qed.

(** The computed logarithm lies below the quotient. *)
Lemma ilog2_ratio_lower (a d : Z) :
  0 < a -> 0 < d ->
  let k := ilog2_ratio a d in
  if 0 <=? k then d * 2 ^ k <= a else d <= a * 2 ^ (- k).
Proof.
  intros Ha Hd. unfold ilog2_ratio. cbv zeta.
  pose proof (Z.log2_spec a Ha) as La. pose proof (Z.log2_spec d Hd) as Ld.
  pose proof (Z.log2_nonneg a) as Na. pose proof (Z.log2_nonneg d) as Nd.
  set (la := Z.log2 a) in *. set (ld := Z.log2 d) in *.
  rewrite <- Z.add_1_r in La, Ld.
  destruct (0 <=? la - ld) eqn:E0.
  - destruct (d * 2 ^ (la - ld) <=? a) eqn:E1.
    + rewrite E0. now apply Z.leb_le.
    + apply Z.leb_le in E0. apply Z.leb_gt in E1.
      destruct (0 <=? la - ld - 1) eqn:E2.
      * apply Z.leb_le in E2.
        assert (H : 2 ^ (ld + 1) * 2 ^ (la - ld - 1) = 2 ^ la)
          by (rewrite <- Z.pow_add_r by lia; f_equal; lia).
        assert (0 < 2 ^ (la - ld - 1)) by (apply Z.pow_pos_nonneg; lia).
        nia.
      * apply Z.leb_gt in E2. assert (la = ld) by lia.
        replace (- (la - ld - 1)) with 1 by lia. rewrite Z.pow_1_r.
        replace (ld + 1) with (la + 1) in Ld by lia.
        rewrite Z.pow_add_r in Ld by lia. lia.
  - destruct (d <=? a * 2 ^ (- (la - ld))) eqn:E1.
    + rewrite E0. now apply Z.leb_le.
    + apply Z.leb_gt in E0.
      replace (0 <=? la - ld - 1) with false by (symmetry; apply Z.leb_gt; lia).
      replace (- (la - ld - 1)) with (ld + 1 - la) by lia.
      assert (H : 2 ^ la * 2 ^ (ld + 1 - la) = 2 ^ (ld + 1))
        by (rewrite <- Z.pow_add_r by lia; f_equal; lia).
      assert (0 < 2 ^ (ld + 1 - la)) by (apply Z.pow_pos_nonneg; lia).
      nia.
Qed.

Lemma ilog2_ratio_small (a d : Z) :
  0 < a -> 0 < d -> a < d * 2 ^ 32 -> ilog2_ratio a d <= 31.
Proof.
  intros Ha Hd Hb. pose proof (ilog2_ratio_lower a d Ha Hd) as H. cbv zeta in H.
  destruct (Z_le_gt_dec (ilog2_ratio a d) 31) as [|Hk]; [assumption|exfalso].
  replace (0 <=? ilog2_ratio a d) with true in H by (symmetry; apply Z.leb_le; lia).
  assert (2 ^ 32 <= 2 ^ ilog2_ratio a d) by (apply Z.pow_le_mono_r; lia).
  nia.
Qed.

(** Quotients below [2^32] in magnitude are rounded at an exponent of at
    most -21, and never overflow. *)
Lemma round_ratio_small (n d : Z) :
  0 < d -> Z.abs n < d * 2 ^ 32 ->
  exists m e, round_ratio n d = Some (m, e) /\ is_round n d m e.
Proof.
  intros Hd Hb. unfold round_ratio.
  destruct (n =? 0) eqn:En.
  - apply Z.eqb_eq in En. subst. exists 0, 0. split; [reflexivity|].
    repeat split; [lia| |congruence].
    symmetry. apply (div_half_even_exact 0 d Hd).
  - apply Z.eqb_neq in En.
    pose proof (ilog2_ratio_small (Z.abs n) d ltac:(lia) Hd Hb) as Hk.
    set (e := fexp (ilog2_ratio (Z.abs n) d)).
    assert (He : e <= -21) by (unfold e, fexp, prec, emin; lia).
    replace (e <=? 0) with true by (symmetry; apply Z.leb_le; lia).
    replace (0 <=? e) with false by (symmetry; apply Z.leb_gt; lia).
    cbn [andb]. eexists _, e. split; [reflexivity|].
    repeat split; auto. lia.
Qed.

Lemma of_int_small (v : Z) :
  Z.abs v < 2 ^ 32 ->
  exists e, of_int v = Ok (Finite (v * 2 ^ (- e)) e) /\ e <= 0.
Proof.
  intros Hv. unfold of_int.
  destruct (round_ratio_small v 1 ltac:(lia) ltac:(lia)) as (m & e & -> & He & Hm & _).
  exists e. split; [|exact He].
  rewrite Hm. do 2 f_equal.
  rewrite <- (Z.mul_1_r (v * 2 ^ (- e))) at 1. apply div_half_even_exact. lia.
Qed.

(** The sum of two floats of non-positive exponents is the rounding of
    the exact sum. *)
Lemma add_small (m1 e1 m2 e2 : Z) :
  e1 <= 0 -> e2 <= 0 ->
  let emin := Z.min e1 e2 in
  let N := m1 * 2 ^ (e1 - emin) + m2 * 2 ^ (e2 - emin) in
  let D := 2 ^ (- emin) in
  Z.abs N < D * 2 ^ 32 ->
  exists m e, add (Finite m1 e1) (Finite m2 e2) = Finite m e /\ is_round N D m e.
Proof.
  intros H1 H2 emin N D Hb.
  assert (HD : 0 < D) by (apply Z.pow_pos_nonneg; lia).
  destruct (round_ratio_small N D HD Hb) as (m & e & Hr & Hround).
  exists m, e. split; [|exact Hround].
  unfold add. fold emin. fold N.
  destruct (0 <=? emin) eqn:E.
  - apply Z.leb_le in E. assert (E0 : emin = 0) by lia.
    assert (ED : D = 1) by (unfold D; rewrite E0; reflexivity).
    rewrite E0, Z.pow_0_r, Z.mul_1_r. rewrite ED in Hr. now rewrite Hr.
  - fold D. now rewrite Hr.
Qed.

Lemma to_int_nonpos (m e : Z) :
  e <= 0 -> to_int (Finite m e) = Ok (Z.quot m (2 ^ (- e))).
Proof.
  intros He. unfold to_int.
  destruct (0 <=? e) eqn:E; [|reflexivity].
  apply Z.leb_le in E. assert (e = 0) by lia. subst.
  cbn [Z.opp]. rewrite !Z.pow_0_r, Z.mul_1_r, Z.quot_1_r. reflexivity.
Qed.

(** Truncation of a number strictly between two consecutive integers. *)
Lemma quot_bracket (x b q : Z) :
  0 < b -> q * b < x < (q + 1) * b ->
  Z.quot x b = if 0 <=? q then q else q + 1.
Proof.
  intros Hb Hx. destruct (0 <=? q) eqn:E.
  - apply Z.leb_le in E. rewrite Z.quot_div_nonneg by nia.
    symmetry. apply (Z.div_unique_pos x b q (x - q * b)); lia.
  - apply Z.leb_gt in E.
    rewrite <- (Z.opp_involutive x), Z.quot_opp_l by lia.
    rewrite Z.quot_div_nonneg by nia.
    rewrite <- (Z.div_unique_pos (- x) b (- (q + 1)) (- x + (q + 1) * b)); lia.
Qed.

(** Scaling facts on powers of two. *)
Lemma pow2_pos (z : Z) : 0 <= z -> 0 < 2 ^ z.
Proof. intros. apply Z.pow_pos_nonneg; lia. Qed.

Lemma pow2_scale (e emin : Z) :
  emin <= e -> e <= 0 -> 2 ^ (- e) * 2 ^ (e - emin) = 2 ^ (- emin).
Proof. intros. rewrite <- Z.pow_add_r by lia. f_equal. lia. Qed.

Lemma pow2_margin (e : Z) : e <= -21 -> 2 ^ (- e) = 2 ^ 21 * 2 ^ (- e - 21).
Proof. intros. rewrite <- Z.pow_add_r by lia. f_equal. lia. Qed.

(** Scaling an integer bracket with a margin. *)
Lemma margin_lo (n d S c u w : Z) :
  0 <= S -> u * d + w <= n -> c * d <= w * S -> (u * S + c) * d <= n * S.
Proof.
  intros HS Hn Hc.
  assert (H : (u * d + w) * S <= n * S) by (apply Z.mul_le_mono_nonneg_r; lia).
  lia.
Qed.

Lemma margin_hi (n d S c u w : Z) :
  0 <= S -> n <= (u + 1) * d - w -> c * d <= w * S ->
  n * S <= ((u + 1) * S - c) * d.
Proof.
  intros HS Hn Hc.
  assert (H : n * S <= ((u + 1) * d - w) * S) by (apply Z.mul_le_mono_nonneg_r; lia).
  lia.
Qed.

Lemma sum_scale_lo (v q S c f m : Z) :
  0 <= f -> (q - v) * S + c <= m -> q * (S * f) + c * f <= v * (S * f) + m * f.
Proof.
  intros Hf Hm.
  assert (H : ((q - v) * S + c) * f <= m * f) by (apply Z.mul_le_mono_nonneg_r; lia).
  lia.
Qed.

Lemma sum_scale_hi (v q S c f m : Z) :
  0 <= f -> m <= (q - v + 1) * S - c ->
  v * (S * f) + m * f <= (q + 1) * (S * f) - c * f.
Proof.
  intros Hf Hm.
  assert (H : m * f <= ((q - v + 1) * S - c) * f) by (apply Z.mul_le_mono_nonneg_r; lia).
  lia.
Qed.

Lemma bracket_nonzero (q D C N : Z) :
  0 < D -> 0 < C -> q * D + C <= N <= (q + 1) * D - C -> N <> 0.
Proof.
  intros HD HC HN. destruct (Z_le_gt_dec 0 q) as [Hq|Hq].
  - assert (0 <= q * D) by (apply Z.mul_nonneg_nonneg; lia). lia.
  - assert ((q + 1) * D <= 0) by (apply Z.mul_nonpos_nonneg; lia). lia.
Qed.

(** The interpolation on magnitudes for which every float operation is
    exact enough: the result is the exact interpolated value truncated
    toward zero. *)
Lemma interpolate_small (rank r1 v1 r2 v2 : Z) :
  Z.abs v1 <= 2 ^ 31 -> Z.abs v2 <= 2 ^ 31 -> r1 < rank < r2 -> r2 - r1 <= 2 ^ 20 ->
  interpolate rank r1 v1 r2 v2 = Ok (trunc_interpolation rank r1 v1 r2 v2).
Proof.
  intros Hv1 Hv2 Hr Hd20. unfold interpolate, trunc_interpolation.
  set (d := r2 - r1). set (p := (v2 - v1) * (rank - r1)). set (T := v1 * d + p).
  assert (Hd : 0 < d) by (unfold d; lia).
  assert (Hp : Z.abs p < d * 2 ^ 32) by (unfold p, d in *; nia).
  assert (HT : - (2 ^ 31 * d) <= T <= 2 ^ 31 * d).
  { assert (E : T = v1 * (r2 - rank) + v2 * (rank - r1)) by (unfold T, p, d; ring).
    rewrite E. unfold d. nia. }
  assert (ET : T = v1 * d + p) by reflexivity.
  assert (Hd' : d <= 2 ^ 20) by exact Hd20.
  clearbody T p d. clear Hr Hd20 Hv2 r1 r2 rank v2.
  (* the division *)
  unfold int_true_div.
  replace (d =? 0) with false by (symmetry; apply Z.eqb_neq; lia).
  replace (d <? 0) with false by (symmetry; apply Z.ltb_ge; lia).
  destruct (round_ratio_small p d Hd Hp) as (m & e & -> & He & Hm & Hne).
  cbn [bind].
  (* the conversion of v1 and the sum *)
  unfold int_add.
  destruct (of_int_small v1 ltac:(lia)) as (e1 & -> & He1). cbn [bind].
  set (q0 := T / d).
  assert (Hq0 : q0 * d <= T < (q0 + 1) * d).
  { pose proof (Z.div_mod T d ltac:(lia)). pose proof (Z.mod_pos_bound T d Hd).
    unfold q0. nia. }
  assert (Bq0 : - 2 ^ 31 <= q0 <= 2 ^ 31) by nia.
  set (a := q0 - v1).
  assert (Ha : a * d <= p < (a + 1) * d) by (unfold a; nia).
  set (emin := Z.min e1 e).
  set (S := 2 ^ (- e)). set (S1 := 2 ^ (- e1)).
  set (f := 2 ^ (e - emin)). set (g := 2 ^ (e1 - emin)). set (D := 2 ^ (- emin)).
  assert (HS : 0 < S) by (apply pow2_pos; lia).
  assert (Hf : 0 < f) by (apply pow2_pos; unfold emin; lia).
  assert (HD : 0 < D) by (apply pow2_pos; unfold emin; lia).
  assert (ESf : S * f = D) by (apply pow2_scale; unfold emin; lia).
  assert (ES1g : S1 * g = D) by (apply pow2_scale; unfold emin; lia).
  assert (Hm_lo : a * S <= m).
  { rewrite Hm. apply div_half_even_lower; [exact Hd|]. fold S. nia. }
  assert (Hm_hi : m <= (a + 1) * S).
  { rewrite Hm. apply div_half_even_upper; [exact Hd|]. fold S. nia. }
  set (N := v1 * S1 * g + m * f).
  assert (EN : N = v1 * D + m * f) by (unfold N; rewrite <- ES1g; ring).
  assert (HN : q0 * D <= N <= (q0 + 1) * D).
  { rewrite EN, <- ESf. unfold a in *. nia. }
  destruct (add_small (v1 * S1) e1 m e He1 He) as (m' & e' & Hadd & He' & Hm' & Hne').
  { fold emin. fold g. fold f. fold N. fold D. nia. }
  fold emin in Hm', Hne'. fold g in Hm', Hne'. fold f in Hm', Hne'.
  fold N in Hm', Hne'. fold D in Hm'.
  rewrite Hadd. rewrite to_int_nonpos by exact He'.
  set (S' := 2 ^ (- e')) in *.
  assert (HS' : 0 < S') by (apply pow2_pos; lia).
  f_equal.
  destruct (Z.eq_dec T (q0 * d)) as [Eexact|Hinexact].
  - (* the quotient is an integer: every step is exact *)
    assert (Ep : p = a * d) by (unfold a; nia).
    assert (Em : m = a * S).
    { apply Z.le_antisymm; [|exact Hm_lo].
      rewrite Hm. apply div_half_even_upper; [exact Hd|]. fold S. nia. }
    assert (ENq : N = q0 * D) by (rewrite EN, Em, <- ESf; unfold a; ring).
    assert (Em' : m' = q0 * S').
    { rewrite Hm', ENq. replace (q0 * D * S') with (q0 * S' * D) by ring.
      apply div_half_even_exact, HD. }
    rewrite Em', Eexact, !Z.quot_mul by lia. reflexivity.
  - (* the quotient lies strictly between q0 and q0 + 1 *)
    assert (Hp1 : a * d + 1 <= p <= (a + 1) * d - 1) by (unfold a in *; lia).
    assert (Hp0 : p <> 0).
    { intros E0. rewrite E0, Z.add_0_r in ET.
      assert (L1 : q0 * d < v1 * d) by lia.
      assert (L2 : v1 * d < (q0 + 1) * d) by lia.
      apply Z.mul_lt_mono_pos_r in L1, L2; lia. }
    pose proof (pow2_margin e (Hne Hp0)) as EScale. fold S in EScale.
    set (c := 2 ^ (- e - 21)) in *.
    assert (Hc : 0 < c) by (apply pow2_pos; specialize (Hne Hp0); lia).
    assert (Hcd : c * d <= 1 * S).
    { rewrite EScale.
      assert (c * d <= c * 2 ^ 20) by (apply Z.mul_le_mono_nonneg_l; lia). lia. }
    assert (Hm_lo' : a * S + c <= m).
    { rewrite Hm. apply div_half_even_lower; [exact Hd|]. fold S.
      apply (margin_lo p d S c a 1); lia. }
    assert (Hm_hi' : m <= (a + 1) * S - c).
    { rewrite Hm. apply div_half_even_upper; [exact Hd|]. fold S.
      apply (margin_hi p d S c a 1); lia. }
    set (C := c * f).
    assert (HC : 0 < C) by (apply Z.mul_pos_pos; assumption).
    assert (EDC : D = 2 ^ 21 * C) by (unfold C; rewrite <- ESf, EScale; ring).
    assert (HN' : q0 * D + C <= N <= (q0 + 1) * D - C).
    { rewrite EN, <- ESf. unfold C. split.
      - apply sum_scale_lo; [lia|exact Hm_lo'].
      - apply sum_scale_hi; [lia|]. replace (q0 - v1 + 1) with (a + 1) by (unfold a; lia).
        exact Hm_hi'. }
    pose proof (bracket_nonzero q0 D C N HD HC HN') as HN0.
    pose proof (pow2_margin e' (Hne' HN0)) as EScale'. fold S' in EScale'.
    set (c' := 2 ^ (- e' - 21)) in *.
    assert (Hc' : 0 < c') by (apply pow2_pos; specialize (Hne' HN0); lia).
    assert (Hc'D : c' * D <= C * S') by (rewrite EDC, EScale'; lia).
    assert (Hm'_lo : q0 * S' + c' <= m').
    { rewrite Hm'. apply div_half_even_lower; [exact HD|].
      apply (margin_lo N D S' c' q0 C); lia. }
    assert (Hm'_hi : m' <= (q0 + 1) * S' - c').
    { rewrite Hm'. apply div_half_even_upper; [exact HD|].
      apply (margin_hi N D S' c' q0 C); lia. }
    rewrite (quot_bracket m' S' q0 HS') by lia.
    rewrite (quot_bracket T d q0 Hd) by lia.
    reflexivity.
Qed.

(** The model agrees with the Standard Library's IEEE-754 specification
    on sample operands, ties and subnormal results included. *)
Example round_ratio_agrees :
  forallb div_agrees
    [(1, 3); (-4000, 9); (2, 3); (7, 10); (1, 10); (-1, 3); (4503599627370497, 2);
     (9007199254740991, 4); (9007199254740989, 4); (3, 2 ^ 1000); (1, 2 ^ 53 - 1);
     (2 ^ 52 + 1, 2 ^ 1000); (5, 2 ^ 1020); (-800, 40); (123456789, 1000);
     (1, 2 ^ 1023); (1, 3 * 2 ^ 1022); (-5, 7 * 2 ^ 1021); (2 ^ 1023, 1); (1, 1)]
  = true.
Proof. vm_compute. reflexivity. Qed.

Example add_agrees :
  forallb add_div_agrees
    [(5000, -4000, 9); (1000, -800, 40); (0, 1, 3); (-7, 22, 7); (2 ^ 52, 1, 3);
     (2 ^ 53 - 1, 1, 2); (1, -1, 3); (123, 0, 5); (-2 ^ 40, 2 ^ 40 + 1, 3)]
  = true.
Proof. vm_compute. reflexivity. Qed.

(** Sums that overflow give an infinity, which [int] refuses. *)
Example to_int_infinity :
  to_int (add (Finite 1 1023) (Finite 1 1023)) = Raise OverflowError.
Proof. vm_compute. reflexivity. Qed.

End PyFloatFacts.

(** ** The estimator *)

Section EstimatorFacts.

Lemma index_last_cons (p : breakpoint) (l : list breakpoint) :
  index_last (p :: l) = Ok (last l p).
Proof.
  assert (H : forall d, index_last (p :: l) = Ok (last (p :: l) d)).
  { revert p. induction l as [|q l IH]; intros p d; [reflexivity|].
    change (index_last (p :: q :: l)) with (index_last (q :: l)).
    rewrite (IH q d). reflexivity. }
  rewrite (H p). destruct l; reflexivity.
Qed.

Lemma index_last_In (l : list breakpoint) (p : breakpoint) :
  index_last l = Ok p -> In p l.
Proof.
  induction l as [|q l IH]; [discriminate|].
  destruct l as [|q' l].
  - intros [= <-]. now left.
  - intros H. right. apply IH. exact H.
Qed.

Lemma ascending_last_max (bps : list breakpoint) (pl p : breakpoint) :
  ascending bps -> index_last bps = Ok pl -> In p bps -> fst p <= fst pl.
Proof.
  intros Hs. induction Hs as [|a l Hs IH Ha]; [discriminate|].
  destruct l as [|b l].
  - intros [= <-] [<-|[]]. lia.
  - change (index_last (a :: b :: l)) with (index_last (b :: l)).
    intros Hl [<-|Hin]; [|auto].
    rewrite Forall_forall in Ha. apply Ha, index_last_In, Hl.
Qed.

Lemma ascending_first_min (p0 p : breakpoint) (l : list breakpoint) :
  ascending (p0 :: l) -> In p (p0 :: l) -> fst p0 <= fst p.
Proof.
  intros Hs [<-|Hin]; [lia|].
  apply StronglySorted_inv in Hs as [_ Ha].
  rewrite Forall_forall in Ha. exact (Ha _ Hin).
Qed.

Lemma max_rank_fold (l : list breakpoint) (m : Z) :
  m <= fold_left (fun m q => Z.max m (fst q)) l m
  /\ (forall p, In p l -> fst p <= fold_left (fun m q => Z.max m (fst q)) l m)
  /\ (fold_left (fun m q => Z.max m (fst q)) l m = m
      \/ exists p, In p l /\ fold_left (fun m q => Z.max m (fst q)) l m = fst p).
Proof.
  revert m. induction l as [|a l IH]; intros m; simpl.
  - repeat split; [lia|tauto|now left].
  - destruct (IH (Z.max m (fst a))) as (H1 & H2 & H3). repeat split.
    + lia.
    + intros p [<-|Hin]; [lia|auto].
    + destruct H3 as [H3|(p & Hp & H3)].
      * rewrite H3. destruct (Z.max_spec m (fst a)) as [[_ ->]|[_ ->]];
          [right; exists a; auto|now left].
      * right. exists p. auto.
Qed.

(** On a sorted list the last rank is the largest one. *)
Lemma ascending_max_rank (bps : list breakpoint) (pl : breakpoint) :
  ascending bps -> index_last bps = Ok pl -> max_rank bps = fst pl.
Proof.
  intros Hs Hl. destruct bps as [|p l]; [discriminate|]. simpl.
  destruct (max_rank_fold l (fst p)) as (H1 & H2 & H3).
  assert (Hle : forall q, In q (p :: l) -> fst q <= fst pl)
    by (intros q; apply ascending_last_max; assumption).
  apply Z.le_antisymm.
  - destruct H3 as [->|(q & Hq & ->)]; apply Hle; [now left|now right].
  - apply index_last_In in Hl. destruct Hl as [<-|Hin]; auto.
Qed.

Lemma exact_loop_In (rank v : Z) (bps : list breakpoint) :
  In (rank, v) bps -> exists v', exact_loop rank bps = Some v'.
Proof.
  induction bps as [|[r w] l IH]; [intros []|]. simpl.
  intros [[= -> ->]|Hin].
  - rewrite Z.eqb_refl. eauto.
  - destruct (rank =? r); eauto.
Qed.

Lemma exact_loop_Some_In (rank v : Z) (bps : list breakpoint) :
  exact_loop rank bps = Some v -> In (rank, v) bps.
Proof.
  induction bps as [|[r w] l IH]; [discriminate|]. simpl.
  destruct (rank =? r) eqn:E.
  - intros [= ->]. apply Z.eqb_eq in E. subst. now left.
  - intros H. right. auto.
Qed.

Lemma distinct_ranks_value (bps : list breakpoint) (r v v' : Z) :
  distinct_ranks bps -> In (r, v) bps -> In (r, v') bps -> v = v'.
Proof.
  unfold distinct_ranks.
  induction bps as [|[r0 v0] l IH]; [intros _ []|]. simpl.
  intros Hnd. apply NoDup_cons_iff in Hnd as [Hnot Hnd].
  intros [E1|H1] [E2|H2].
  - congruence.
  - exfalso. apply Hnot. injection E1 as -> ->.
    change r with (fst (r, v')). now apply in_map.
  - exfalso. apply Hnot. injection E2 as -> ->.
    change r with (fst (r, v)). now apply in_map.
  - auto.
Qed.

Lemma exact_loop_None (rank : Z) (bps : list breakpoint) :
  Forall (fun p => fst p <> rank) bps -> exact_loop rank bps = None.
Proof.
  induction 1 as [|[r v] l Hne Hl IH]; [reflexivity|]. simpl in *.
  destruct (rank =? r) eqn:E; [apply Z.eqb_eq in E; congruence|exact IH].
Qed.

(** The shape of a call that passes the guards. *)
Lemma estimator_guarded (p0 : breakpoint) (l : list breakpoint) (rank : Z) :
  1 <= rank -> rank <= fst (last l p0) -> fst p0 < rank ->
  _make_estimator (p0 :: l) rank =
    match exact_loop rank (p0 :: l) with
    | Some v => Ok v
    | None =>
        match interp_loop rank (combine (p0 :: l) l) with
        | Some res => res
        | None => Ok (snd (last l p0))
        end
    end.
Proof.
  intros H1 H2 H3. unfold _make_estimator.
  rewrite index_last_cons. destruct (last l p0) as [rl vl] eqn:El.
  unfold bind. cbn [fst snd] in *.
  replace ((1 <=? rank) && (rank <=? rl)) with true
    by (symmetry; apply andb_true_iff; split; apply Z.leb_le; lia).
  cbn [negb index_first]. destruct p0 as [r0 v0]. cbn [fst] in *.
  replace (rank <=? r0) with false by (symmetry; apply Z.leb_gt; lia).
  reflexivity.
Qed.

Lemma estimator_out_of_range (bps : list breakpoint) (pl : breakpoint) (rank : Z) :
  index_last bps = Ok pl -> rank < 1 \/ fst pl < rank ->
  _make_estimator bps rank = Raise ValueError.
Proof.
  intros Hl Hr. unfold _make_estimator. rewrite Hl. destruct pl as [rl vl].
  unfold bind. cbn [fst] in Hr.
  replace ((1 <=? rank) && (rank <=? rl)) with false; [reflexivity|].
  symmetry. apply andb_false_iff.
  destruct Hr; [left; apply Z.leb_gt|right; apply Z.leb_gt]; lia.
Qed.

Lemma estimator_at_first (p0 : breakpoint) (l : list breakpoint) (rank : Z) :
  1 <= rank -> rank <= fst (last l p0) -> rank <= fst p0 ->
  _make_estimator (p0 :: l) rank = Ok (-1).
Proof.
  intros H1 H2 H3. unfold _make_estimator.
  rewrite index_last_cons. destruct (last l p0) as [rl vl] eqn:El.
  unfold bind. cbn [fst snd] in *.
  replace ((1 <=? rank) && (rank <=? rl)) with true
    by (symmetry; apply andb_true_iff; split; apply Z.leb_le; lia).
  cbn [negb index_first]. destruct p0 as [r0 v0]. cbn [fst] in *.
  replace (rank <=? r0) with true by (symmetry; apply Z.leb_le; lia).
  reflexivity.
Qed.

End EstimatorFacts.

Section EstimatorClaims.

Lemma find_exact (rank : Z) (bps : list breakpoint) (v : Z) :
  exact_loop rank bps = Some v ->
  find (fun p => rank =? fst p) bps = Some (rank, v).
Proof.
  induction bps as [|[r w] l IH]; [discriminate|]. simpl.
  destruct (rank =? r) eqn:E; [|exact IH].
  intros [= ->]. apply Z.eqb_eq in E. now subst.
Qed.

(** What the estimator does at a rank carried by some breakpoint that
    lies beyond the first one. *)
Lemma estimator_exact (p0 : breakpoint) (l : list breakpoint) (r v : Z) :
  1 <= r -> r <= fst (last l p0) -> fst p0 < r -> In (r, v) (p0 :: l) ->
  exists v', find (fun p => r =? fst p) (p0 :: l) = Some (r, v')
             /\ _make_estimator (p0 :: l) r = Ok v'
             /\ (distinct_ranks (p0 :: l) -> v' = v).
Proof.
  intros H1 H2 H3 Hin.
  destruct (exact_loop_In r v (p0 :: l) Hin) as [v' Hv'].
  exists v'. split; [now apply find_exact|]. split.
  - rewrite estimator_guarded by assumption. now rewrite Hv'.
  - intros Hd. apply (distinct_ranks_value (p0 :: l) r); auto.
    now apply exact_loop_Some_In.
Qed.

(** C1 (amended). For a non-empty breakpoint list sorted ascending by
    rank and a breakpoint (r, v) of it with 1 <= r: when r is the first
    breakpoint's rank the estimator returns -1 (the shortcut below the
    first breakpoint comes before the exact match); at every other
    breakpoint rank it returns the value of the first breakpoint of the
    list carrying that rank, which is v when the ranks are distinct. *)
Theorem estimator_at_breakpoint (bps : list breakpoint) (p0 : breakpoint) (r v : Z) :
  ascending bps -> hd_error bps = Some p0 -> In (r, v) bps -> 1 <= r ->
  (r = fst p0 -> _make_estimator bps r = Ok (-1))
  /\ (r <> fst p0 ->
      exists v', find (fun p => r =? fst p) bps = Some (r, v')
                 /\ _make_estimator bps r = Ok v'
                 /\ (distinct_ranks bps -> v' = v)).
Proof.
  intros Hs Hhd Hin Hr.
  destruct bps as [|q l]; [discriminate|]. injection Hhd as ->.
  assert (Hmax : r <= fst (last l p0)).
  { apply (ascending_last_max (p0 :: l) _ (r, v) Hs); [apply index_last_cons|exact Hin]. }
  assert (Hmin : fst p0 <= r) by apply (ascending_first_min p0 (r, v) l Hs Hin).
  split.
  - intros ->. apply estimator_at_first; lia.
  - intros Hne. apply estimator_exact; auto; lia.
Qed.

Lemma estimator_at_breakpoint_witness :
  (10 = fst (1, 5000) -> _make_estimator [(1, 5000); (10, 1000); (50, 200)] 10 = Ok (-1))
  /\ (10 <> fst (1, 5000) ->
      exists v', find (fun p => 10 =? fst p) [(1, 5000); (10, 1000); (50, 200)] = Some (10, v')
                 /\ _make_estimator [(1, 5000); (10, 1000); (50, 200)] 10 = Ok v'
                 /\ (distinct_ranks [(1, 5000); (10, 1000); (50, 200)] -> v' = 1000)).
Proof.
  apply (estimator_at_breakpoint [(1, 5000); (10, 1000); (50, 200)] (1, 5000) 10 1000).
  - repeat constructor; unfold rank_le; simpl; lia.
  - reflexivity.
  - simpl. auto.
  - lia.
Defined.

(** C1 as stated fails at the first breakpoint: the estimator built from
    [(1, 5000); (10, 1000)] returns -1 at rank 1, not 5000. *)
Lemma estimator_first_breakpoint_counterexample :
  ~ (forall (bps : list breakpoint) (r v : Z),
        bps <> [] -> ascending bps -> In (r, v) bps -> 1 <= r ->
        _make_estimator bps r = Ok v).
Proof.
  intros H.
  specialize (H [(1, 5000); (10, 1000)] 1 5000).
  assert (E : _make_estimator [(1, 5000); (10, 1000)] 1 = Ok 5000).
  { apply H.
    - discriminate.
    - repeat constructor; unfold rank_le; simpl; lia.
    - simpl. auto.
    - lia. }
  vm_compute in E. discriminate.
Qed.

(** C2 (amended). A rank beyond the last breakpoint's rank is refused
    with ValueError (no clamping).  At the last breakpoint's rank itself
    (1 <= rank) the estimator returns -1 when that rank is not above the
    first breakpoint's, and otherwise the value of the first breakpoint
    carrying that rank, which is the last breakpoint's value when the
    ranks are distinct. *)
Theorem estimator_at_or_beyond_last (bps : list breakpoint) (p0 pl : breakpoint)
  (rank : Z) :
  hd_error bps = Some p0 -> index_last bps = Ok pl ->
  (fst pl < rank -> _make_estimator bps rank = Raise ValueError)
  /\ (rank = fst pl -> 1 <= rank ->
      (rank <= fst p0 -> _make_estimator bps rank = Ok (-1))
      /\ (fst p0 < rank ->
          exists v', find (fun p => rank =? fst p) bps = Some (rank, v')
                     /\ _make_estimator bps rank = Ok v'
                     /\ (distinct_ranks bps -> v' = snd pl))).
Proof.
  intros Hhd Hl. split.
  - intros H. apply (estimator_out_of_range bps pl); auto.
  - intros -> H1.
    destruct bps as [|q l]; [discriminate|]. injection Hhd as ->.
    pose proof (index_last_In _ _ Hl) as Hin.
    rewrite index_last_cons in Hl. injection Hl as Hl.
    split.
    + intros H. apply estimator_at_first; rewrite ?Hl; lia.
    + intros H. apply estimator_exact; rewrite ?Hl; try lia.
      now destruct pl.
Qed.

Lemma estimator_at_or_beyond_last_witness :
  (fst (50, 200) < 50 -> _make_estimator [(1, 5000); (10, 1000); (50, 200)] 50 = Raise ValueError)
  /\ (50 = fst (50, 200) -> 1 <= 50 ->
      (50 <= fst (1, 5000) -> _make_estimator [(1, 5000); (10, 1000); (50, 200)] 50 = Ok (-1))
      /\ (fst (1, 5000) < 50 ->
          exists v', find (fun p => 50 =? fst p) [(1, 5000); (10, 1000); (50, 200)] = Some (50, v')
                     /\ _make_estimator [(1, 5000); (10, 1000); (50, 200)] 50 = Ok v'
                     /\ (distinct_ranks [(1, 5000); (10, 1000); (50, 200)] -> v' = snd (50, 200)))).
Proof.
  apply (estimator_at_or_beyond_last [(1, 5000); (10, 1000); (50, 200)] (1, 5000) (50, 200) 50);
    reflexivity.
Defined.

(** C2 as stated fails beyond the last breakpoint: at rank 51 the
    estimator built from [(1, 5000); (10, 1000); (50, 200)] raises
    ValueError instead of returning 200. *)
Lemma estimator_beyond_last_counterexample :
  ~ (forall (bps : list breakpoint) (pl : breakpoint) (rank : Z),
        index_last bps = Ok pl -> fst pl <= rank ->
        _make_estimator bps rank = Ok (snd pl)).
Proof.
  intros H.
  specialize (H [(1, 5000); (10, 1000); (50, 200)] (50, 200) 51 eq_refl).
  simpl in H. specialize (H ltac:(lia)). vm_compute in H. discriminate.
Qed.

End EstimatorClaims.

(** ** The estimator inside its range *)

Section EstimatorRange.

Lemma interpolate_not_ValueError (rank r1 v1 r2 v2 : Z) :
  interpolate rank r1 v1 r2 v2 <> Raise ValueError.
Proof.
  unfold interpolate, PyFloat.int_true_div, PyFloat.int_add, PyFloat.of_int,
    PyFloat.to_int.
  destruct (r2 - r1 =? 0); [discriminate|].
  destruct (if r2 - r1 <? 0 then _ else _) as [n d].
  destruct (PyFloat.round_ratio n d) as [[m e]|]; [|discriminate]. cbn [bind].
  destruct (PyFloat.round_ratio v1 1) as [[m1 e1]|]; [|discriminate]. cbn [bind].
  destruct (PyFloat.add _ _); discriminate.
Qed.

(** The loop over consecutive pairs answers with an interpolation
    between two breakpoints of the list that enclose the rank. *)
Lemma interp_loop_Some (rank : Z) (l : list breakpoint) (res : result Z) :
  interp_loop rank (combine l (tl l)) = Some res ->
  exists r1 v1 r2 v2,
    In (r1, v1) l /\ In (r2, v2) l /\ r1 < rank < r2
    /\ res = interpolate rank r1 v1 r2 v2.
Proof.
  induction l as [|[r1 v1] l IH]; [discriminate|].
  destruct l as [|[r2 v2] l]; [discriminate|].
  cbn [tl combine interp_loop].
  destruct ((r1 <? rank) && (rank <? r2)) eqn:E.
  - intros [= <-]. bool_to_Z. exists r1, v1, r2, v2. cbn [In]. auto 10.
  - intros H. destruct (IH H) as (a & b & c & e & H1 & H2 & H3 & H4).
    exists a, b, c, e. cbn [In] in *. auto 10.
Qed.

(** Below the crossing point of a sorted list no pair encloses the
    rank; the pair at the crossing point does. *)
Lemma interp_loop_crossing (rank r1 v1 r2 v2 : Z) (pre post : list breakpoint) :
  Forall (fun p => fst p <= r1) pre -> r1 < rank < r2 ->
  interp_loop rank (combine (pre ++ (r1, v1) :: (r2, v2) :: post)
                      (tl (pre ++ (r1, v1) :: (r2, v2) :: post)))
  = Some (interpolate rank r1 v1 r2 v2).
Proof.
  unfold breakpoint in *.
  intros Hpre Hr. induction Hpre as [|[ra va] pre Ha Hpre IH].
  - cbn [app tl combine interp_loop].
    replace ((r1 <? rank) && (rank <? r2)) with true; [reflexivity|].
    symmetry. apply andb_true_iff. split; apply Z.ltb_lt; lia.
  - rewrite <- app_comm_cons.
    remember (pre ++ (r1, v1) :: (r2, v2) :: post) as rest eqn:E.
    destruct rest as [|[rb vb] rest]; [destruct pre; discriminate|].
    cbn [tl combine interp_loop] in *.
    assert (Hb : rb <= r1).
    { destruct pre as [|q pre]; cbn [app] in E; injection E as E1 E2; subst.
      - lia.
      - apply Forall_inv in Hpre. exact Hpre. }
    replace ((ra <? rank) && (rank <? rb)) with false
      by (symmetry; apply andb_false_iff; right; apply Z.ltb_ge; lia).
    exact IH.
Qed.

Lemma ascending_split (pre post : list breakpoint) (x y : breakpoint) :
  ascending (pre ++ x :: y :: post) ->
  Forall (fun p => fst p <= fst x) pre /\ fst x <= fst y
  /\ Forall (fun p => fst y <= fst p) post.
Proof.
  intros Hs. induction pre as [|a pre IH]; cbn [app] in Hs.
  - apply StronglySorted_inv in Hs as [Hs Hx].
    apply StronglySorted_inv in Hs as [_ Hy].
    split; [constructor|]. split; [apply Forall_inv in Hx; exact Hx|exact Hy].
  - apply StronglySorted_inv in Hs as [Hs Ha].
    destruct (IH Hs) as (H1 & H2 & H3). split; [|auto].
    constructor; [|exact H1].
    rewrite Forall_forall in Ha. apply Ha, in_or_app. right. now left.
Qed.

(** C4 (amended). For a breakpoint list sorted ascending by rank, with
    ranks from 0 to 2^20 and sales within 2^31 in magnitude, and for a
    rank >= 1 strictly between two consecutive breakpoints (r1, v1) and
    (r2, v2), the estimator returns the exact interpolated value
    v1 + (v2 - v1) * (rank - r1) / (r2 - r1) truncated toward zero as a
    whole (the sum is truncated, not the division alone). *)
Theorem estimator_interpolates (bps pre post : list breakpoint)
  (r1 v1 r2 v2 rank : Z) :
  ascending bps -> small_breakpoints bps ->
  bps = pre ++ (r1, v1) :: (r2, v2) :: post ->
  1 <= rank -> r1 < rank < r2 ->
  _make_estimator bps rank = Ok (trunc_interpolation rank r1 v1 r2 v2).
Proof.
  intros Hs Hsmall -> H1 Hr.
  destruct (ascending_split pre post (r1, v1) (r2, v2) Hs) as (Hpre & _ & Hpost).
  cbn [fst] in *.
  assert (Hin1 : In (r1, v1) (pre ++ (r1, v1) :: (r2, v2) :: post))
    by (apply in_or_app; right; now left).
  assert (Hin2 : In (r2, v2) (pre ++ (r1, v1) :: (r2, v2) :: post))
    by (apply in_or_app; right; right; now left).
  pose proof (interp_loop_crossing rank r1 v1 r2 v2 pre post Hpre Hr) as Hloop.
  unfold small_breakpoints in Hsmall. rewrite Forall_forall in Hsmall.
  pose proof (Hsmall _ Hin1) as [B1 B1']. pose proof (Hsmall _ Hin2) as [B2 B2'].
  cbn [fst snd] in *.
  destruct (pre ++ (r1, v1) :: (r2, v2) :: post) as [|p0 l] eqn:E;
    [destruct pre; discriminate|].
  rewrite estimator_guarded.
  - rewrite exact_loop_None.
    + cbn [tl] in Hloop. rewrite Hloop.
      apply PyFloatFacts.interpolate_small; lia.
    + rewrite <- E. apply Forall_app. split.
      * eapply Forall_impl; [|exact Hpre]. cbn. intros; lia.
      * constructor; [cbn; lia|]. constructor; [cbn; lia|].
        eapply Forall_impl; [|exact Hpost]. cbn. intros; lia.
  - exact H1.
  - pose proof (ascending_last_max (p0 :: l) (last l p0) (r2, v2) Hs
                  (index_last_cons p0 l) Hin2) as H. cbn [fst] in H. lia.
  - pose proof (ascending_first_min p0 (r1, v1) l Hs Hin1) as H. cbn [fst] in H. lia.
Qed.

Lemma estimator_interpolates_witness :
  _make_estimator fixture_bps 30 = Ok (trunc_interpolation 30 10 1000 50 200).
Proof.
  apply (estimator_interpolates fixture_bps [(1, 5000)] [] 10 1000 50 200 30).
  - repeat constructor; unfold rank_le; simpl; lia.
  - repeat constructor; simpl; lia.
  - reflexivity.
  - lia.
  - lia.
Defined.

(** C4 as stated fails when the sales decrease: between (1, 5000) and
    (10, 1000), rank 2 gives int(5000 - 444.44...) = 4555, while the
    division truncated toward zero gives 5000 + (-444) = 4556. *)
Lemma estimator_interpolation_counterexample :
  _make_estimator [(1, 5000); (10, 1000)] 2 = Ok 4555
  /\ spec_interpolation 2 1 5000 10 1000 = 4556.
Proof. split; vm_compute; reflexivity. Qed.

Lemma estimator_in_range_not_ValueError (p0 : breakpoint) (l : list breakpoint)
  (rank : Z) :
  1 <= rank <= fst (last l p0) -> _make_estimator (p0 :: l) rank <> Raise ValueError.
Proof.
  intros Hr. destruct (Z_le_gt_dec rank (fst p0)) as [H|H].
  - rewrite estimator_at_first by lia. discriminate.
  - rewrite estimator_guarded by lia.
    destruct (exact_loop rank (p0 :: l)); [discriminate|].
    destruct (interp_loop rank (combine (p0 :: l) l)) as [res|] eqn:E; [|discriminate].
    apply (interp_loop_Some rank (p0 :: l)) in E as (r1 & v1 & r2 & v2 & _ & _ & _ & ->).
    apply interpolate_not_ValueError.
Qed.

Lemma estimator_in_range_small (p0 : breakpoint) (l : list breakpoint) (rank : Z) :
  small_breakpoints (p0 :: l) -> 1 <= rank <= fst (last l p0) ->
  exists v, _make_estimator (p0 :: l) rank = Ok v.
Proof.
  intros Hsmall Hr. destruct (Z_le_gt_dec rank (fst p0)) as [H|H].
  - rewrite estimator_at_first by lia. eauto.
  - rewrite estimator_guarded by lia.
    destruct (exact_loop rank (p0 :: l)); [eauto|].
    destruct (interp_loop rank (combine (p0 :: l) l)) as [res|] eqn:E; [|eauto].
    apply (interp_loop_Some rank (p0 :: l)) in E
        as (r1 & v1 & r2 & v2 & Hin1 & Hin2 & Hb & ->).
    unfold small_breakpoints in Hsmall. rewrite Forall_forall in Hsmall.
    pose proof (Hsmall _ Hin1) as [B1 B1']. pose proof (Hsmall _ Hin2) as [B2 B2'].
    cbn [fst snd] in *.
    rewrite PyFloatFacts.interpolate_small by lia. eauto.
Qed.

(** C3 (amended). For a non-empty breakpoint list sorted ascending by
    rank, the estimator raises ValueError (RankOutOfRange) exactly when
    the rank is below 1 or above the largest breakpoint rank; for a rank
    within that range it returns a value without raising when the ranks
    lie between 0 and 2^20 and the sales within 2^31 in magnitude. *)
Theorem estimator_range (bps : list breakpoint) (rank : Z) :
  bps <> [] -> ascending bps ->
  (_make_estimator bps rank = Raise ValueError <-> rank < 1 \/ max_rank bps < rank)
  /\ (small_breakpoints bps -> 1 <= rank <= max_rank bps ->
      exists v, _make_estimator bps rank = Ok v).
Proof.
  intros Hne Hs. destruct bps as [|p0 l]; [congruence|].
  rewrite (ascending_max_rank (p0 :: l) (last l p0) Hs (index_last_cons p0 l)).
  split; [split|].
  - intros He. destruct (Z_lt_ge_dec rank 1) as [|H1]; [now left|].
    destruct (Z_lt_ge_dec (fst (last l p0)) rank) as [|H2]; [now right|].
    exfalso. apply (estimator_in_range_not_ValueError p0 l rank); [lia|exact He].
  - intros Hr. apply (estimator_out_of_range (p0 :: l) (last l p0));
      [apply index_last_cons|exact Hr].
  - intros Hsmall Hr. now apply estimator_in_range_small.
Qed.

Lemma estimator_range_witness :
  (_make_estimator fixture_bps 30 = Raise ValueError <-> 30 < 1 \/ max_rank fixture_bps < 30)
  /\ (small_breakpoints fixture_bps -> 1 <= 30 <= max_rank fixture_bps ->
      exists v, _make_estimator fixture_bps 30 = Ok v).
Proof.
  apply (estimator_range fixture_bps 30).
  - discriminate.
  - repeat constructor; unfold rank_le; simpl; lia.
Defined.

(** C3 as stated fails on sales values beyond the range of a float: with
    the breakpoints (1, 0) and (3, 10^400), rank 2 lies within the range
    and the interpolation raises OverflowError. *)
Lemma estimator_overflow_counterexample :
  ascending huge_bps
  /\ 1 <= 2 <= max_rank huge_bps
  /\ _make_estimator huge_bps 2 = Raise OverflowError.
Proof.
  split; [repeat constructor; unfold rank_le; simpl; lia|].
  split; [vm_compute; split; discriminate|].
  vm_compute. reflexivity.
Qed.

End EstimatorRange.

(** ** Sorting *)

Section Sorting.

Context {A : Type} (lt : A -> A -> bool).

Lemma insert_stable_perm (x : A) (l : list A) :
  Permutation (x :: l) (insert_stable lt x l).
Proof.
  induction l as [|y l IH]; simpl; [reflexivity|].
  destruct (lt x y); [reflexivity|].
  rewrite perm_swap. now constructor.
Qed.

Lemma sorted_with_perm (l : list A) : Permutation l (sorted_with lt l).
Proof.
  unfold sorted_with.
  assert (H : forall acc, Permutation (acc ++ l)
                            (fold_left (fun acc x => insert_stable lt x acc) l acc)).
  { induction l as [|x l IH]; intros acc; simpl.
    - now rewrite app_nil_r.
    - rewrite <- IH. rewrite <- insert_stable_perm.
      symmetry. apply Permutation_middle. }
  exact (H []).
Qed.

Hypothesis lt_asym : forall a b, lt a b = true -> lt b a = false.
Hypothesis le_trans : forall a b c, (le_of lt) a b -> (le_of lt) b c -> (le_of lt) a c.

Lemma insert_stable_sorted (x : A) (l : list A) :
  StronglySorted (le_of lt) l -> StronglySorted (le_of lt) (insert_stable lt x l).
Proof.
  induction 1 as [|y l Hs IH Hy]; simpl.
  - constructor; constructor.
  - destruct (lt x y) eqn:E.
    + constructor; [now constructor|].
      assert (Hxy : (le_of lt) x y) by (apply lt_asym; exact E).
      constructor; [exact Hxy|].
      eapply Forall_impl; [|exact Hy]. intros z Hz. exact (le_trans _ _ _ Hxy Hz).
    + constructor; [exact IH|].
      apply (Permutation_Forall (insert_stable_perm x l)).
      constructor; [exact E|exact Hy].
Qed.

Lemma sorted_with_sorted (l : list A) : StronglySorted (le_of lt) (sorted_with lt l).
Proof.
  unfold sorted_with.
  assert (H : forall acc, StronglySorted (le_of lt) acc ->
              StronglySorted (le_of lt) (fold_left (fun acc x => insert_stable lt x acc) l acc)).
  { induction l as [|x l IH]; intros acc Hacc; simpl; [exact Hacc|].
    apply IH. now apply insert_stable_sorted. }
  apply H. constructor.
Qed.

End Sorting.

Lemma tuple_le_of (a b : breakpoint) : le_of tuple_lt a b <-> tuple_le a b.
Proof.
  unfold le_of, tuple_lt, tuple_le. destruct a as [r1 v1], b as [r2 v2]. cbn [fst snd].
  rewrite orb_false_iff, andb_false_iff, !Z.ltb_ge, Z.eqb_neq. lia.
Qed.

Lemma py_sorted_perm (l : list breakpoint) : Permutation l (py_sorted l).
Proof. apply sorted_with_perm. Qed.

Lemma py_sorted_sorted (l : list breakpoint) : StronglySorted tuple_le (py_sorted l).
Proof.
  assert (H : StronglySorted (le_of tuple_lt) (py_sorted l)).
  { apply sorted_with_sorted.
    - intros a b. unfold tuple_lt. destruct a, b. cbn [fst snd].
      rewrite orb_true_iff, andb_true_iff, orb_false_iff, andb_false_iff,
        !Z.ltb_lt, !Z.ltb_ge, Z.eqb_eq, Z.eqb_neq. lia.
    - intros a b c. rewrite !tuple_le_of. unfold tuple_le. lia. }
  induction H; constructor; auto.
  eapply Forall_impl; [|eassumption]. intros b. apply tuple_le_of.
Qed.

Lemma tuple_sorted_ascending (l : list breakpoint) :
  StronglySorted tuple_le l -> ascending l.
Proof.
  induction 1; constructor; auto.
  eapply Forall_impl; [|eassumption]. unfold tuple_le, rank_le. lia.
Qed.

(** ** The matcher against the declarative reading of patterns *)

Module ReFacts.
Import Re.

Section Repetition.
Context {R : Type}.

Lemma within_pred (n : nat) (hi : option nat) :
  hi_open hi = true -> within n (option_map pred hi) -> within (S n) hi.
Proof. destruct hi as [[|h]|]; simpl; try discriminate; auto. lia. Qed.

Lemma within_succ (n : nat) (hi : option nat) :
  within (S n) hi -> hi_open hi = true /\ within n (option_map pred hi).
Proof. destruct hi as [[|h]|]; simpl; auto; lia. Qed.

Lemma rep_choice_stop p hi pos s (k : nat -> str -> option R) (x : R) :
  k pos s = Some x -> rep_choice p 0 hi pos s k x.
Proof.
  intros H. exists [], s. simpl. rewrite Nat.add_0_r.
  repeat split; auto. destruct hi; simpl; lia.
Qed.

Lemma rep_choice_more p lo hi pos c s (k : nat -> str -> option R) (x : R) :
  hi_open hi = true -> p c = true ->
  rep_choice p (pred lo) (option_map pred hi) (S pos) s k x ->
  rep_choice p lo hi pos (c :: s) k x.
Proof.
  intros Hh Hp (w & s' & -> & Hw & Hlo & Hhi & Hk).
  exists (c :: w), s'. simpl. rewrite Hp, Hw.
  replace (pos + S (length w))%nat with (S pos + length w)%nat by lia.
  repeat split; auto; [lia|now apply within_pred].
Qed.

Lemma rep_greedy_sound p lo hi pos s (k : nat -> str -> option R) (x : R) :
  rep_greedy p lo hi pos s k = Some x -> rep_choice p lo hi pos s k x.
Proof.
  revert lo hi pos. induction s as [|c s IH]; intros lo hi pos; simpl.
  - destruct lo; [apply rep_choice_stop|discriminate].
  - destruct (hi_open hi && p c) eqn:E.
    + apply andb_true_iff in E as [Hh Hp].
      destruct (rep_greedy p (pred lo) (option_map pred hi) (S pos) s k) eqn:Er.
      * intros [= ->]. apply rep_choice_more; auto.
      * destruct lo; [apply rep_choice_stop|discriminate].
    + destruct lo; [apply rep_choice_stop|discriminate].
Qed.

Lemma rep_lazy_sound p lo hi pos s (k : nat -> str -> option R) (x : R) :
  rep_lazy p lo hi pos s k = Some x -> rep_choice p lo hi pos s k x.
Proof.
  revert lo hi pos. induction s as [|c s IH]; intros lo hi pos; simpl.
  - destruct lo; [|discriminate].
    destruct (k pos []) eqn:Ek; [|discriminate].
    intros [= ->]. now apply rep_choice_stop.
  - assert (Hmore :
              (if hi_open hi && p c
               then rep_lazy p (pred lo) (option_map pred hi) (S pos) s k
               else None) = Some x -> rep_choice p lo hi pos (c :: s) k x).
    { destruct (hi_open hi && p c) eqn:E; [|discriminate].
      apply andb_true_iff in E as [Hh Hp]. intros H.
      apply rep_choice_more; auto. }
    destruct lo; [|exact Hmore].
    destruct (k pos (c :: s)) eqn:Ek; [|exact Hmore].
    intros [= ->]. now apply rep_choice_stop.
Qed.

Lemma rep_none_intro p lo hi pos s (k : nat -> str -> option R) :
  (lo = 0%nat -> k pos s = None) ->
  (forall c s1, s = c :: s1 -> hi_open hi = true -> p c = true ->
                rep_none p (pred lo) (option_map pred hi) (S pos) s1 k) ->
  rep_none p lo hi pos s k.
Proof.
  intros Hstop Hmore w s' -> Hw Hlo Hhi.
  destruct w as [|c w]; simpl in *.
  - rewrite Nat.add_0_r. apply Hstop. lia.
  - apply andb_true_iff in Hw as [Hp Hw].
    apply within_succ in Hhi as [Hh Hhi].
    replace (pos + S (length w))%nat with (S pos + length w)%nat by lia.
    apply (Hmore c (w ++ s') eq_refl Hh Hp w s'); auto. lia.
Qed.

Lemma rep_greedy_complete p lo hi pos s (k : nat -> str -> option R) :
  rep_greedy p lo hi pos s k = None -> rep_none p lo hi pos s k.
Proof.
  revert lo hi pos. induction s as [|c s IH]; intros lo hi pos; simpl; intros H;
    apply rep_none_intro.
  - intros ->. exact H.
  - discriminate.
  - intros ->. destruct (hi_open hi && p c);
      [destruct (rep_greedy p (pred 0) (option_map pred hi) (S pos) s k); [discriminate|]|];
      exact H.
  - intros c' s1 [= <- <-] Hh Hp. rewrite Hh, Hp in H. simpl in H.
    apply IH.
    destruct (rep_greedy p (pred lo) (option_map pred hi) (S pos) s k);
      [discriminate|reflexivity].
Qed.

Lemma rep_lazy_complete p lo hi pos s (k : nat -> str -> option R) :
  rep_lazy p lo hi pos s k = None -> rep_none p lo hi pos s k.
Proof.
  revert lo hi pos. induction s as [|c s IH]; intros lo hi pos; simpl; intros H;
    apply rep_none_intro.
  - intros ->. destruct (k pos []); [discriminate|reflexivity].
  - discriminate.
  - intros ->. destruct (k pos (c :: s)); [discriminate|reflexivity].
  - intros c' s1 [= <- <-] Hh Hp. rewrite Hh, Hp in H. simpl in H.
    apply IH. destruct lo; [destruct (k pos (c :: s)); [discriminate|]|]; exact H.
Qed.

End Repetition.

Lemma exec_sound {R : Type} (r : regex) :
  forall pos s cs (k : nat -> str -> caps -> option R) x,
    exec r pos s cs k = Some x ->
    exists pos' s' cs', matches r pos s cs pos' s' cs' /\ k pos' s' cs' = Some x.
Proof.
  induction r as [|c|p|g p lo hi|r1 IH1 r2 IH2|i r IH| |]; intros pos s cs k x; simpl.
  - intros H. exists pos, s, cs. split; [constructor|exact H].
  - destruct s as [|a s]; [discriminate|].
    destruct (a =? c) eqn:E; [|discriminate]. apply Z.eqb_eq in E. subst.
    intros H. exists (S pos), s, cs. split; [constructor|exact H].
  - destruct s as [|a s]; [discriminate|].
    destruct (p a) eqn:E; [|discriminate].
    intros H. exists (S pos), s, cs. split; [now constructor|exact H].
  - intros H.
    assert (Hc : rep_choice p lo hi pos s (fun pos' s' => k pos' s' cs) x)
      by (destruct g; [apply rep_greedy_sound|apply rep_lazy_sound]; exact H).
    destruct Hc as (w & s' & -> & Hw & Hlo & Hhi & Hk).
    exists (pos + length w)%nat, s', cs. split; [now constructor|exact Hk].
  - intros H. apply IH1 in H as (pos1 & s1 & cs1 & M1 & H).
    apply IH2 in H as (pos2 & s2 & cs2 & M2 & H).
    exists pos2, s2, cs2. split; [econstructor; eassumption|exact H].
  - intros H. apply IH in H as (pos' & s' & cs' & M & H).
    eexists _, _, _. split; [constructor; exact M|exact H].
  - destruct pos; simpl; [|discriminate].
    intros H. exists 0%nat, s, cs. split; [constructor|exact H].
  - destruct s as [|a [|b s]].
    + intros H. exists pos, [], cs. split; [constructor|exact H].
    + destruct (a =? 10) eqn:E; [|discriminate]. apply Z.eqb_eq in E. subst.
      intros H. exists pos, [10], cs. split; [constructor|exact H].
    + discriminate.
Qed.

Lemma exec_complete {R : Type} (r : regex) :
  forall pos s cs (k : nat -> str -> caps -> option R),
    exec r pos s cs k = None ->
    forall pos' s' cs', matches r pos s cs pos' s' cs' -> k pos' s' cs' = None.
Proof.
  induction r as [|c|p|g p lo hi|r1 IH1 r2 IH2|i r IH| |]; intros pos s cs k; simpl;
    intros H pos' s' cs' M; inversion M; subst; clear M.
  - exact H.
  - now rewrite Z.eqb_refl in H.
  - match goal with Hp : p _ = true |- _ => now rewrite Hp in H end.
  - assert (Hn : rep_none p lo hi pos (w ++ s') (fun pos' s' => k pos' s' cs'))
      by (destruct g; [apply rep_greedy_complete|apply rep_lazy_complete]; exact H).
    now apply (Hn w s').
  - match goal with
    | M1 : matches r1 _ _ _ _ _ _, M2 : matches r2 _ _ _ _ _ _ |- _ =>
        pose proof (IH1 _ _ _ _ H _ _ _ M1) as H1; simpl in H1;
        exact (IH2 _ _ _ _ H1 _ _ _ M2)
    end.
  - match goal with
    | M1 : matches r _ _ _ _ _ _ |- _ => exact (IH _ _ _ _ H _ _ _ M1)
    end.
  - exact H.
  - exact H.
  - exact H.
Qed.

(** A match consumes a prefix and advances the offset by its length;
    the groups set so far stay below the new ones. *)
Lemma matches_span r pos s cs pos' s' cs' :
  matches r pos s cs pos' s' cs' ->
  exists w, s = w ++ s' /\ pos' = (pos + length w)%nat.
Proof.
  induction 1.
  - exists []. simpl. auto.
  - exists [c]. simpl. split; [reflexivity|lia].
  - exists [c]. simpl. split; [reflexivity|lia].
  - exists w. auto.
  - destruct IHmatches1 as (w1 & -> & ->), IHmatches2 as (w2 & -> & ->).
    exists (w1 ++ w2). rewrite length_app, <- app_assoc. split; [reflexivity|lia].
  - exact IHmatches.
  - exists []. auto.
  - exists []. simpl. auto.
  - exists []. simpl. auto.
Qed.

Lemma match_at_sound r pos s m :
  match_at r pos s = Some m ->
  m_start m = pos /\ exists s', matches r pos s [] (m_end m) s' (m_caps m).
Proof.
  unfold match_at. intros H.
  apply exec_sound in H as (pos' & s' & cs' & M & [= <-]). simpl. eauto.
Qed.

Lemma match_at_none r pos s :
  match_at r pos s = None ->
  forall pos' s' cs', ~ matches r pos s [] pos' s' cs'.
Proof.
  unfold match_at. intros H pos' s' cs' M.
  pose proof (exec_complete _ _ _ _ _ H _ _ _ M) as E. discriminate.
Qed.

(** [search] returns the match found at the leftmost offset that has one. *)
Lemma search_from_sound r pos s m :
  search_from r pos s = Some m ->
  exists pre rest s',
    s = pre ++ rest /\ m_start m = (pos + length pre)%nat
    /\ matches r (m_start m) rest [] (m_end m) s' (m_caps m)
    /\ match_at r (m_start m) rest = Some m.
Proof.
  revert pos. induction s as [|c s IH]; intros pos; simpl.
  - destruct (match_at r pos []) eqn:E; [|discriminate].
    intros [= ->]. destruct (match_at_sound _ _ _ _ E) as [Hs [s' M]].
    exists [], [], s'. simpl. rewrite Hs, Nat.add_0_r. auto.
  - destruct (match_at r pos (c :: s)) eqn:E.
    + intros [= ->]. destruct (match_at_sound _ _ _ _ E) as [Hs [s' M]].
      exists [], (c :: s), s'. simpl. rewrite Hs, Nat.add_0_r. auto.
    + intros H. apply IH in H as (pre & rest & s' & -> & Hs & M & E').
      exists (c :: pre), rest, s'. simpl.
      replace (pos + S (length pre))%nat with (S pos + length pre)%nat by lia. auto.
Qed.

Lemma search_from_none r pos s :
  search_from r pos s = None ->
  forall pre rest, s = pre ++ rest ->
                   match_at r (pos + length pre) rest = None.
Proof.
  revert pos. induction s as [|c s IH]; intros pos; simpl.
  - destruct (match_at r pos []) eqn:E; [discriminate|].
    intros _ pre rest Hs. symmetry in Hs. apply app_eq_nil in Hs as [-> ->].
    simpl. now rewrite Nat.add_0_r.
  - destruct (match_at r pos (c :: s)) eqn:E; [discriminate|].
    intros H [|a pre] rest Hs; simpl in Hs.
    + subst. simpl. now rewrite Nat.add_0_r.
    + injection Hs as -> ->. simpl.
      replace (pos + S (length pre))%nat with (S pos + length pre)%nat by lia.
      now apply IH.
Qed.

(** When some offset has a match, [search] finds one. *)
Lemma search_from_some r pos pre rest pos' s' cs' :
  matches r (pos + length pre) rest [] pos' s' cs' ->
  exists m, search_from r pos (pre ++ rest) = Some m.
Proof.
  intros M. destruct (search_from r pos (pre ++ rest)) as [m|] eqn:E; [eauto|].
  exfalso. exact (match_at_none _ _ _ (search_from_none _ _ _ E pre rest eq_refl) _ _ _ M).
Qed.

(** Every match reported by [findall] is a match of the pattern. *)
Lemma findall_from_sound r skip pos s m :
  In m (findall_from r skip pos s) ->
  exists pos0 rest s', matches r pos0 rest [] (m_end m) s' (m_caps m).
Proof.
  revert skip pos. induction s as [|c s IH]; intros skip pos; destruct skip; simpl.
  - destruct (match_at r pos []) eqn:E; [|intros []].
    intros [<-|[]]. destruct (match_at_sound _ _ _ _ E) as [_ [s' M]]. eauto.
  - intros [].
  - destruct (match_at r pos (c :: s)) eqn:E.
    + intros [<-|H]; [|eauto].
      destruct (match_at_sound _ _ _ _ E) as [_ [s' M]]. eauto.
    + eauto.
  - eauto.
Qed.

End ReFacts.

(** ** Patterns of the scraper *)

Lemma firstn_span {A : Type} (pos : nat) (w s : list A) :
  firstn (pos + length w - pos) (w ++ s) = w.
Proof.
  replace (pos + length w - pos)%nat with (length w + 0)%nat by lia.
  rewrite firstn_app_2. simpl. apply app_nil_r.
Qed.

Section DigitFacts.

Variable decimal : char -> option Z.

(** Decimal digits have the values 0 to 9. *)
Hypothesis decimal_range : forall c d, decimal c = Some d -> 0 <= d <= 9.

Lemma int_digits_ok (w : str) (acc : Z) :
  forallb (is_digit decimal) w = true -> 0 <= acc ->
  exists n, int_digits decimal acc w = Ok n
            /\ acc * 10 ^ Z.of_nat (length w) <= n
               < (acc + 1) * 10 ^ Z.of_nat (length w).
Proof.
  revert acc. induction w as [|c w IH]; intros acc Hw Hacc.
  - exists acc. simpl. split; [reflexivity|lia].
  - cbn [forallb] in Hw. apply andb_true_iff in Hw as [Hc Hw].
    unfold is_digit in Hc. cbn [int_digits].
    destruct (decimal c) as [d|] eqn:Ed; [|discriminate].
    pose proof (decimal_range c d Ed) as Hd.
    destruct (IH (10 * acc + d) Hw ltac:(lia)) as (n & Hn & Hb).
    exists n. split; [exact Hn|].
    rewrite length_cons, Nat2Z.inj_succ, Z.pow_succ_r by lia.
    assert (0 < 10 ^ Z.of_nat (length w)) by (apply Z.pow_pos_nonneg; lia).
    nia.
Qed.

(** [int] accepts a non-empty text of digits and returns a number of at
    most that many decimal digits. *)
Lemma py_int_ok (w : str) :
  forallb (is_digit decimal) w = true -> (1 <= length w)%nat ->
  exists n, py_int decimal w = Ok n /\ 0 <= n < 10 ^ Z.of_nat (length w).
Proof.
  intros Hw Hl. destruct (int_digits_ok w 0 Hw ltac:(lia)) as (n & Hn & Hb).
  exists n. split; [|lia].
  destruct w; [simpl in Hl; lia|exact Hn].
Qed.

End DigitFacts.

(** ** Text *)

Section TextFacts.

Lemma lstrip_split (s : str) :
  exists ws, s = ws ++ lstrip s /\ forallb is_space ws = true.
Proof.
  induction s as [|c s (ws & Hs & Hw)]; [now exists []|]. simpl.
  destruct (is_space c) eqn:E.
  - exists (c :: ws). simpl. rewrite E, Hw. now rewrite <- Hs.
  - now exists [].
Qed.

Lemma lstrip_head_ok (s : str) : head_ok (lstrip s).
Proof.
  induction s as [|c s IH]; simpl; [trivial|].
  destruct (is_space c) eqn:E; [exact IH|exact E].
Qed.

Lemma lstrip_id (u : str) : head_ok u -> lstrip u = u.
Proof. destruct u as [|c u]; simpl; [trivial|]. now intros ->. Qed.

Lemma rstrip_split (u : str) :
  exists ws, u = rstrip u ++ ws /\ forallb is_space ws = true.
Proof.
  unfold rstrip. destruct (lstrip_split (rev u)) as (ws & Hs & Hw).
  exists (rev ws). split.
  - rewrite <- rev_app_distr, <- Hs. now rewrite rev_involutive.
  - rewrite forallb_forall in *. intros c Hc. apply Hw. now apply in_rev.
Qed.

Lemma rstrip_head_ok (u : str) : head_ok u -> head_ok (rstrip u).
Proof.
  intros Hu. destruct (rstrip_split u) as (ws & Hs & _).
  destruct (rstrip u) as [|c t]; [exact I|].
  rewrite Hs in Hu. exact Hu.
Qed.

Lemma rstrip_idem (u : str) : rstrip (rstrip u) = rstrip u.
Proof.
  unfold rstrip. rewrite rev_involutive.
  now rewrite (lstrip_id _ (lstrip_head_ok (rev u))).
Qed.

Lemma strip_trimmed (s : str) : trimmed (strip s).
Proof.
  unfold trimmed, strip.
  rewrite (lstrip_id (rstrip (lstrip s))) by apply rstrip_head_ok, lstrip_head_ok.
  apply rstrip_idem.
Qed.

Lemma trimmed_last (t x : str) (c : char) :
  trimmed t -> t = x ++ [c] -> is_space c = false.
Proof.
  unfold trimmed, strip, rstrip. intros Ht ->.
  apply (f_equal (@rev char)) in Ht. rewrite rev_involutive in Ht.
  pose proof (lstrip_head_ok (rev (lstrip (x ++ [c])))) as H.
  rewrite Ht, rev_app_distr in H. exact H.
Qed.

Lemma trimmed_head (t : str) : trimmed t -> head_ok t.
Proof.
  unfold trimmed, strip. intros Ht. rewrite <- Ht.
  apply rstrip_head_ok, lstrip_head_ok.
Qed.

(** Stripping commutes with a character map that keeps whitespace
    whitespace and the rest the rest. *)
Lemma lstrip_map (f : char -> char) (s : str) :
  (forall c, is_space (f c) = is_space c) ->
  lstrip (map f s) = map f (lstrip s).
Proof.
  intros Hf. induction s as [|c s IH]; [reflexivity|]. simpl.
  rewrite Hf. destruct (is_space c); [exact IH|reflexivity].
Qed.

Lemma strip_map (f : char -> char) (s : str) :
  (forall c, is_space (f c) = is_space c) ->
  strip (map f s) = map f (strip s).
Proof.
  intros Hf. unfold strip, rstrip.
  rewrite lstrip_map, <- map_rev, lstrip_map, map_rev by assumption. reflexivity.
Qed.

Lemma trimmed_map (f : char -> char) (t : str) :
  (forall c, is_space (f c) = is_space c) -> trimmed t -> trimmed (map f t).
Proof.
  unfold trimmed. intros Hf Ht. rewrite strip_map by assumption. now rewrite Ht.
Qed.

Lemma is_space_range (c : char) : is_space c = true -> 9 <= c <= 0x3000.
Proof.
  unfold is_space.
  rewrite !orb_true_iff, !andb_true_iff, !Z.leb_le, !Z.eqb_eq. lia.
Qed.

Lemma replace_space_keeps (c : char) :
  is_space (if c =? 0x3000 then 0x20 else c) = is_space c.
Proof.
  destruct (c =? 0x3000) eqn:E; [|reflexivity].
  apply Z.eqb_eq in E. now subst.
Qed.

Lemma ascii_equivalent_keeps (c : char) :
  is_space (ascii_equivalent c) = is_space c.
Proof.
  unfold ascii_equivalent.
  destruct (is_fw_latin c || is_fw_digit c) eqn:E; [|apply replace_space_keeps].
  unfold is_fw_latin, is_fw_digit in E.
  rewrite !orb_true_iff, !andb_true_iff, !Z.leb_le in E.
  transitivity false.
  - unfold is_space.
    rewrite !orb_false_iff, !andb_false_iff, !Z.leb_gt, !Z.eqb_neq. lia.
  - symmetry. unfold is_space.
    rewrite !orb_false_iff, !andb_false_iff, !Z.leb_gt, !Z.eqb_neq. lia.
Qed.

Lemma re_sub_class_map (p : char -> bool) (f : char -> exn + str) (g : char -> char)
  (s : str) :
  (forall c, p c = true -> f c = inr [g c]) ->
  Re.re_sub_class p f s = inr (map (fun c => if p c then g c else c) s).
Proof.
  intros Hf. unfold Re.re_sub_class.
  induction s as [|c s IH]; [reflexivity|]. cbn [fold_right map]. rewrite IH.
  destruct (p c) eqn:E; [|reflexivity]. now rewrite (Hf c E).
Qed.

(** The text after the last separator of a text is determined. *)
Lemma last_separator_unique (P : char -> bool) (l1 l2 r1 r2 : str) (a b : char) :
  l1 ++ a :: r1 = l2 ++ b :: r2 -> P a = true -> P b = true ->
  forallb (fun c => negb (P c)) r1 = true -> forallb (fun c => negb (P c)) r2 = true ->
  r1 = r2.
Proof.
  intros E Pa Pb H1 H2. rewrite forallb_forall in H1, H2.
  revert l2 E. induction l1 as [|x l1 IH]; intros [|y l2] E; simpl in E.
  - now injection E.
  - injection E as E1 E2. subst. exfalso.
    assert (Hb : negb (P b) = true) by (apply H1, in_or_app; right; now left).
    now rewrite Pb in Hb.
  - injection E as E1 E2. subst. exfalso.
    assert (Ha : negb (P a) = true) by (apply H2, in_or_app; right; now left).
    now rewrite Pa in Ha.
  - injection E as _ E. exact (IH l2 E).
Qed.

End TextFacts.

(** ** The baseline parser *)

Section BaselineClaims.

Variable decimal : char -> option Z.

Lemma py_int_total (w : str) :
  forallb (is_digit decimal) w = true -> (1 <= length w)%nat ->
  exists n, py_int decimal w = Ok n.
Proof.
  intros Hw Hl.
  assert (H : forall acc, exists n, int_digits decimal acc w = Ok n).
  { clear Hl. induction w as [|c w IH]; intros acc; [now exists acc|].
    cbn [forallb] in Hw. apply andb_true_iff in Hw as [Hc Hw].
    unfold is_digit in Hc. cbn [int_digits].
    destruct (decimal c); [apply IH; exact Hw|discriminate]. }
  destruct w; [simpl in Hl; lia|apply H].
Qed.

Lemma pair_match_groups pos rest e s' cs :
  Re.matches (PAIR_RE decimal) pos rest [] e s' cs ->
  exists w1 w2,
    Re.group cs 1 = Some w1 /\ Re.group cs 2 = Some w2
    /\ forallb (is_digit decimal) w1 = true /\ (1 <= length w1)%nat
    /\ forallb (is_digit decimal) w2 = true /\ (1 <= length w2)%nat.
Proof.
  unfold PAIR_RE. intros M. split_match.
  rewrite !firstn_span. exists w, w0. cbn. auto 10.
Qed.




Lemma baseline_match_shape pos rest e s' cs :
  Re.matches BASELINE_RE pos rest [] e s' cs ->
  exists a tl, rest = 0x203B :: a ++ baseline_phrase ++ tl
               /\ forallb not_nl a = true.
Proof.
  unfold BASELINE_RE, baseline_phrase. intros M. split_match.
  eexists _, _. split; [reflexivity|assumption].
Qed.

Lemma baseline_match_exists pos a rest :
  forallb not_nl a = true ->
  exists e s' cs,
    Re.matches BASELINE_RE pos (0x203B :: a ++ baseline_phrase ++ rest) [] e s' cs.
Proof.
  intros Ha. unfold BASELINE_RE, Seq, Re.Star, Re.Opt, baseline_phrase.
  cbn [fold_right Re.Str app].
  eexists _, _, _.
  eapply Re.M_Cat; [apply Re.M_Chr|].
  eapply Re.M_Cat; [apply Re.M_Rep; [exact Ha|lia|exact I]|].
  eapply Re.M_Cat; [repeat (eapply Re.M_Cat; [apply Re.M_Chr|]); apply Re.M_Eps|].
  eapply Re.M_Cat; [apply (Re.M_Rep true not_nl 0 None _ [] rest); [reflexivity|simpl; lia|exact I]|].
  eapply Re.M_Cat;
    [apply (Re.M_Rep true is_nl 0 (Some 1%nat) _ [] rest); [reflexivity|simpl; lia|simpl; lia]|].
  eapply Re.M_Cat;
    [apply Re.M_Grp, (Re.M_Rep true not_nl 0 None _ [] rest); [reflexivity|simpl; lia|exact I]|].
  apply Re.M_Eps.
Qed.

(** The marker pattern is found exactly in the texts that hold the
    marker line; without it the parser raises RuntimeError. *)
Lemma search_baseline_iff (text : str) :
  (exists m, Re.re_search BASELINE_RE text = Some m) <-> has_marker_line text.
Proof.
  split.
  - intros [m Hm].
    apply ReFacts.search_from_sound in Hm as (pre & rest & s' & -> & _ & M & _).
    apply baseline_match_shape in M as (a & tl & -> & Ha).
    exists pre, a, tl. auto.
  - intros (pre & a & rest & -> & Ha).
    destruct (baseline_match_exists (0 + length pre) a rest Ha) as (e & s' & cs & M).
    exact (ReFacts.search_from_some _ _ _ _ _ _ _ M).
Qed.

Lemma parse_baseline_no_marker_line (text : str) :
  ~ has_marker_line text -> _parse_baseline decimal text = Raise RuntimeError.
Proof.
  intros Hno. unfold _parse_baseline.
  destruct (Re.re_search BASELINE_RE text) as [m|] eqn:Hm; [|reflexivity].
  exfalso. apply Hno, search_baseline_iff. eauto.
Qed.


End BaselineClaims.


Example parse_baseline_fixture :
  _parse_baseline decimal_basic fixture_text = Ok [(1, 5000); (10, 1000); (50, 200)].
Proof. vm_compute. reflexivity. Qed.

Example parse_baseline_no_marker :
  _parse_baseline decimal_basic (lit "1 5000 10 1000") = Raise RuntimeError.
Proof. vm_compute. reflexivity. Qed.


(** ** The rank list extractor *)

Lemma ascii_equivalent_steps (c : char) :
  let c1 := if c =? 0x3000 then 0x20 else c in
  let c2 := if is_fw_latin c1 then c1 - 0xFEE0 else c1 in
  (if is_fw_digit c2 then c2 - 0xFEE0 else c2) = ascii_equivalent c.
Proof.
  unfold ascii_equivalent, is_fw_latin, is_fw_digit. cbv zeta.
  destruct (c =? 0x3000) eqn:E0; [apply Z.eqb_eq in E0; subst; reflexivity|].
  repeat match goal with
    | |- context [if ?b then _ else _] =>
        lazymatch b with
        | context [if _ then _ else _] => fail
        | _ => destruct b eqn:?
        end
    end; bool_to_Z; lia.
Qed.

Lemma py_str_digit (d : Z) : 0 <= d <= 9 -> py_str d = [0x30 + d].
Proof.
  intros H.
  assert (E : d = 0 \/ d = 1 \/ d = 2 \/ d = 3 \/ d = 4 \/ d = 5 \/ d = 6 \/ d = 7
              \/ d = 8 \/ d = 9) by lia.
  repeat (destruct E as [->|E]; [reflexivity|]). subst. reflexivity.
Qed.

Section RowClaims.

Variable decimal : char -> option Z.

(** Facts of the Unicode tables: digits have the values 0 to 9, the
    full-width digits are digits, and no whitespace is a digit. *)
Hypothesis decimal_range : forall c d, decimal c = Some d -> 0 <= d <= 9.
Hypothesis decimal_fullwidth :
  forall c, is_fw_digit c = true -> decimal c = Some (c - 0xFF10).
Hypothesis decimal_not_space : forall c, is_space c = true -> decimal c = None.

Lemma clean_title_ok (g2 : str) :
  clean_title decimal g2 = Ok (map ascii_equivalent (strip g2)).
Proof.
  unfold clean_title.
  assert (E : strip (replace_char 0x3000 0x20 (strip g2))
              = replace_char 0x3000 0x20 (strip g2)).
  { unfold replace_char. rewrite strip_map by apply replace_space_keeps.
    now rewrite strip_trimmed. }
  rewrite E.
  rewrite (re_sub_class_map is_fw_latin _ (fun c => c - 0xFEE0)) by reflexivity.
  cbn [of_sum bind].
  rewrite (re_sub_class_map is_fw_digit _ (fun c => c - 0xFEE0)).
  - cbn [of_sum]. f_equal. unfold replace_char. rewrite !map_map.
    apply map_ext. intros c. apply ascii_equivalent_steps.
  - intros c Hc. unfold py_int. cbn [int_digits].
    rewrite (decimal_fullwidth c Hc). cbn [bind to_sum].
    unfold is_fw_digit in Hc. bool_to_Z.
    rewrite py_str_digit by lia.
    replace (0x30 + (10 * 0 + (c - 0xFF10))) with (c - 0xFEE0) by lia. reflexivity.
Qed.

Lemma digit_not_space (ds : str) :
  forallb (is_digit decimal) ds = true -> forallb (fun c => negb (is_space c)) ds = true.
Proof.
  rewrite !forallb_forall. intros H c Hc. specialize (H c Hc).
  destruct (is_space c) eqn:E; [|reflexivity].
  unfold is_digit in H. now rewrite (decimal_not_space c E) in H.
Qed.

Lemma vol_match_shape pos rest e s' cs :
  Re.matches (VOL_RE decimal) pos rest [] e s' cs ->
  exists w ds tail,
    rest = w :: ds ++ tail /\ is_space w = true
    /\ forallb (is_digit decimal) ds = true /\ (1 <= length ds)%nat
    /\ (tail = [] \/ tail = [0x0A]) /\ Re.group cs 1 = Some ds.
Proof.
  unfold VOL_RE. intros M. split_match.
  match goal with H : Re.matches Re.Eos _ _ _ _ _ _ |- _ => inversion H; subst; clear H end;
    split_match; rewrite firstn_span; eexists _, _, _; cbn; eauto 10.
Qed.

Lemma vol_match_exists pos w ds :
  is_space w = true -> forallb (is_digit decimal) ds = true -> (1 <= length ds)%nat ->
  exists e s' cs, Re.matches (VOL_RE decimal) pos (w :: ds) [] e s' cs.
Proof.
  intros Hw Hd Hl. unfold VOL_RE, Seq, Re.Plus. cbn [fold_right].
  replace (w :: ds) with (w :: ds ++ []) by now rewrite app_nil_r.
  eexists _, _, _.
  eapply Re.M_Cat; [apply Re.M_Cls; exact Hw|].
  eapply Re.M_Cat; [apply Re.M_Grp, Re.M_Rep; [exact Hd|exact Hl|exact I]|].
  eapply Re.M_Cat; [apply Re.M_Eos_end|apply Re.M_Eps].
Qed.

(** The volume of a trimmed title: the number after the last whitespace
    when only digits follow it, nothing otherwise. *)
Lemma title_volume_spec (title : str) :
  trimmed title ->
  exists v,
    title_volume decimal title = Ok v
    /\ forall n, v = Some n <->
                 exists pre w ds,
                   title = pre ++ w :: ds /\ is_space w = true /\ ds <> []
                   /\ forallb (is_digit decimal) ds = true /\ py_int decimal ds = Ok n.
Proof.
  intros Ht. unfold title_volume.
  destruct (Re.re_search (VOL_RE decimal) title) as [m|] eqn:Es.
  - apply ReFacts.search_from_sound in Es as (pre & rest & s' & -> & _ & M & _).
    destruct m as [st e cs]. cbn [Re.m_start Re.m_end Re.m_caps] in M.
    apply vol_match_shape in M as (w & ds & tail & -> & Hw & Hd & Hl & Htail & Hg).
    destruct (py_int_total decimal ds Hd Hl) as [n Hn].
    unfold get_group. cbn [Re.m_caps]. rewrite Hg. cbn [bind]. rewrite Hn. cbn [bind].
    exists (Some n). split; [reflexivity|].
    assert (Et : tail = []).
    { destruct Htail as [->| ->]; [reflexivity|]. exfalso.
      assert (E : is_space 0x0A = false).
      { apply (trimmed_last _ (pre ++ w :: ds) 0x0A Ht).
        rewrite <- app_assoc. reflexivity. }
      discriminate. }
    subst tail. rewrite app_nil_r in *.
    intros n'. split.
    + intros [= <-]. exists pre, w, ds. repeat split; auto.
      destruct ds; [simpl in Hl; lia|discriminate].
    + intros (pre2 & w2 & ds2 & E & Hw2 & _ & Hd2 & Hn2).
      assert (Eds : ds = ds2).
      { eapply (last_separator_unique is_space); eauto using digit_not_space. }
      subst. congruence.
  - exists None. split; [reflexivity|].
    intros n. split; [discriminate|].
    intros (pre & w & ds & -> & Hw & Hne & Hd & _). exfalso.
    assert (Hl : (1 <= length ds)%nat) by (destruct ds; [congruence|simpl; lia]).
    destruct (vol_match_exists (0 + length pre) w ds Hw Hd Hl) as (e & s' & cs & M).
    destruct (ReFacts.search_from_some _ _ _ _ _ _ _ M) as [m Hm].
    unfold Re.re_search in Es. congruence.
Qed.

Lemma row_match_shape pos rest e s' cs :
  Re.matches (ROW_RE decimal) pos rest [] e s' cs ->
  exists g1 g2,
    Re.group cs 1 = Some g1 /\ Re.group cs 2 = Some g2
    /\ forallb (is_digit decimal) g1 = true /\ (1 <= length g1 <= 3)%nat
    /\ forallb (not_char 0x3C) g2 = true /\ (1 <= length g2)%nat.
Proof.
  unfold ROW_RE. intros M. split_match.
  match goal with H : Re.matches Re.Eos _ _ _ _ _ _ |- _ => inversion H; subst; clear H end;
    rewrite !firstn_span; eexists _, _; cbn [Re.group Re.set_group Nat.eqb];
    (split; [reflexivity|]); (split; [reflexivity|]);
    unfold Re.within in *; auto.
Qed.

(** A line that the row grammar matches gives a row: the rank of at most
    three digits, the normalized title, and its volume. *)
Lemma extract_row_matched (raw : str) (m : Re.match_obj) :
  Re.re_match (ROW_RE decimal) (strip raw) = Some m ->
  exists g1 g2 rank volume,
    get_group m 1 = Ok g1 /\ get_group m 2 = Ok g2
    /\ py_int decimal g1 = Ok rank /\ 0 <= rank <= 999
    /\ extract_row decimal raw
       = Ok (Some (rank, map ascii_equivalent (strip g2), volume))
    /\ title_volume decimal (map ascii_equivalent (strip g2)) = Ok volume.
Proof.
  intros Hm. unfold extract_row. rewrite Hm.
  apply ReFacts.match_at_sound in Hm as [_ [s' M]].
  apply row_match_shape in M as (g1 & g2 & G1 & G2 & D1 & L1 & _ & _).
  destruct (py_int_ok decimal decimal_range g1 D1 ltac:(lia)) as (rank & Hr & Hb).
  assert (Hrank : 0 <= rank <= 999).
  { assert (10 ^ Z.of_nat (length g1) <= 10 ^ 3) by (apply Z.pow_le_mono_r; lia). lia. }
  destruct (title_volume_spec (map ascii_equivalent (strip g2))) as (volume & Hv & _).
  { apply trimmed_map; [apply ascii_equivalent_keeps|apply strip_trimmed]. }
  exists g1, g2, rank, volume. unfold get_group. rewrite G1, G2. cbn [bind].
  rewrite clean_title_ok. cbn [bind]. rewrite Hv. cbn [bind]. rewrite Hr. cbn [bind].
  auto 10.
Qed.







End RowClaims.

Lemma decimal_basic_range (c : char) (d : Z) : decimal_basic c = Some d -> 0 <= d <= 9.
Proof.
  unfold decimal_basic.
  destruct ((0x30 <=? c) && (c <=? 0x39)) eqn:E1;
    [|destruct ((0xFF10 <=? c) && (c <=? 0xFF19)) eqn:E2]; intros [= <-]; bool_to_Z; lia.
Qed.

Lemma decimal_basic_fullwidth (c : char) :
  is_fw_digit c = true -> decimal_basic c = Some (c - 0xFF10).
Proof.
  unfold is_fw_digit, decimal_basic. intros H. rewrite H.
  destruct ((0x30 <=? c) && (c <=? 0x39)) eqn:E1; [bool_to_Z; lia|reflexivity].
Qed.

Lemma decimal_basic_not_space (c : char) : is_space c = true -> decimal_basic c = None.
Proof.
  unfold is_space, decimal_basic. intros H.
  destruct ((0x30 <=? c) && (c <=? 0x39)) eqn:E1;
    [|destruct ((0xFF10 <=? c) && (c <=? 0xFF19)) eqn:E2]; [| |reflexivity];
    bool_to_Z; lia.
Qed.


(** The full-width fixture: ＡＢｃ　１２ becomes ABc 12 with volume 12. *)
Example extract_row_fullwidth :
  extract_row decimal_basic fixture_line
  = Ok (Some (12, lit "ABc 12", Some 12)).
Proof. vm_compute. reflexivity. Qed.



(** ** Missing body container *)

Section NoEntryBody.

Variable decimal : char -> option Z.

Lemma extract_rows_unmatched (raws : list str) :
  (forall raw, In raw raws -> Re.re_match (ROW_RE decimal) (strip raw) = None) ->
  extract_rows decimal raws = Ok [].
Proof.
  induction raws as [|raw raws IH]; intros H; [reflexivity|].
  cbn [extract_rows]. unfold extract_row. rewrite (H raw (or_introl eq_refl)).
  cbn [bind]. rewrite IH by (intros r Hr; apply H; now right). reflexivity.
Qed.

(** C10. Without a body container the extractor returns the empty list
    and raises nothing; a container none of whose lines matches the row
    grammar gives the same result, and so does an empty container. *)
Theorem no_entry_body_gives_empty_list :
  _extract_rank_list decimal None = Ok []
  /\ (forall contents,
         (forall raw, In raw (split (lit "<br/>") contents) ->
                      Re.re_match (ROW_RE decimal) (strip raw) = None) ->
         _extract_rank_list decimal (Some contents) = _extract_rank_list decimal None)
  /\ _extract_rank_list decimal (Some []) = _extract_rank_list decimal None.
Proof.
  split; [reflexivity|]. split.
  - intros contents H. apply extract_rows_unmatched, H.
  - reflexivity.
Qed.

End NoEntryBody.

(** ** The date extractor *)

Section DateClaims.

Variable decimal : char -> option Z.
Hypothesis decimal_range : forall c d, decimal c = Some d -> 0 <= d <= 9.

Lemma weekly_match_shape pos rest e s' cs :
  Re.matches (WEEKLY_RE decimal) pos rest [] e s' cs ->
  exists y sm sd em ed,
    rest = weekly_fragment y sm sd em ed ++ s'
    /\ is_weekly_fragment (is_digit decimal) y sm sd em ed
    /\ Re.group cs 1 = Some y /\ Re.group cs 2 = Some sm /\ Re.group cs 3 = Some sd
    /\ Re.group cs 4 = Some em /\ Re.group cs 5 = Some ed.
Proof.
  unfold WEEKLY_RE. intros M. split_match. rewrite !firstn_span.
  eexists _, _, _, _, _. cbn [Re.group Re.set_group Nat.eqb].
  split; [|split; [|repeat (split; [reflexivity|]); reflexivity]].
  - unfold weekly_fragment, week_fragment. rewrite <- !app_assoc. reflexivity.
  - unfold is_weekly_fragment, digits_between, Re.within in *. auto 20.
Qed.





Lemma month_name_index (n : Z) :
  0 <= n ->
  (n <= 12 -> exists name, py_getitem month_name n = Ok name)
  /\ (12 < n -> py_getitem month_name n = Raise IndexError).
Proof.
  intros Hn. unfold py_getitem.
  replace (n <? 0) with false by (symmetry; apply Z.ltb_ge; lia).
  replace (n <? 0) with false by (symmetry; apply Z.ltb_ge; lia).
  assert (Hlen : length month_name = 13%nat) by reflexivity.
  split; intros H.
  - destruct (nth_error month_name (Z.to_nat n)) as [name|] eqn:E; [eauto|].
    apply nth_error_None in E. lia.
  - destruct (nth_error month_name (Z.to_nat n)) as [name|] eqn:E; [|reflexivity].
    assert (Hs : nth_error month_name (Z.to_nat n) <> None) by congruence.
    apply nth_error_Some in Hs. lia.
Qed.


End DateClaims.


(** The header of the specification's example. *)
Example weekly_date_fixture :
  _extract_date_info decimal_basic (Some fixture_header) false = Ok fixture_date.
Proof. vm_compute. reflexivity. Qed.

Example date_no_match :
  _extract_date_info decimal_basic (Some (lit "no date here")) false = Ok no_date.
Proof. vm_compute. reflexivity. Qed.


(** ** The ranking pipeline *)

Section PipelineClaims.

Variable decimal : char -> option Z.
Variable en_map : str -> option str.
Variable translate : str -> str.




End PipelineClaims.


(** The end-to-end fixture: limit 3 on five rows ranked 1 to 5. *)
Example pipeline_limit_3 :
  exists res,
    scrape_latest_weekly_and_estimate decimal_basic no_lookup no_translation
      fixture_page 3 false = Ok res
    /\ map e_rank (rankings res) = [1; 2; 3]
    /\ map e_estimated_sales (rankings res) = [-1; 4555; 4111]
    /\ total_entries res = 3.
Proof. eexists. vm_compute. repeat split; reflexivity. Qed.


(* ------------------------------------------------------------------ *)
(** * Part III: further properties                                     *)
(* ------------------------------------------------------------------ *)

(** ** Further properties of the estimator *)

Section EstimatorFurther.

Lemma interpolate_raises (rank r1 v1 r2 v2 : Z) (e : exn) :
  r1 < r2 -> interpolate rank r1 v1 r2 v2 = Raise e -> e = OverflowError.
Proof.
  intros H. unfold interpolate, PyFloat.int_true_div, PyFloat.int_add, PyFloat.of_int.
  destruct (r2 - r1 =? 0) eqn:E; [bool_to_Z; lia|].
  destruct (r2 - r1 <? 0); cbn [bind];
    repeat match goal with
      | |- context [match ?x with _ => _ end] => destruct x; cbn [bind]
      end;
    try congruence;
    match goal with
    | |- PyFloat.to_int ?x = _ -> _ => destruct x; cbn [PyFloat.to_int]; congruence
    end.
Qed.

Lemma estimator_in_range_outcome (p0 : breakpoint) (l : list breakpoint) (rank : Z) :
  1 <= rank <= fst (last l p0) ->
  (exists v, _make_estimator (p0 :: l) rank = Ok v)
  \/ _make_estimator (p0 :: l) rank = Raise OverflowError.
Proof.
  intros Hr. destruct (Z_le_gt_dec rank (fst p0)) as [H|H].
  - left. rewrite estimator_at_first by lia. eauto.
  - rewrite estimator_guarded by lia.
    destruct (exact_loop rank (p0 :: l)); [left; eauto|].
    destruct (interp_loop rank (combine (p0 :: l) l)) as [res|] eqn:E; [|left; eauto].
    apply (interp_loop_Some rank (p0 :: l)) in E
        as (r1 & v1 & r2 & v2 & _ & _ & Hb & ->).
    destruct (interpolate rank r1 v1 r2 v2) as [v|e] eqn:Ei; [left; eauto|].
    right. f_equal. apply (interpolate_raises rank r1 v1 r2 v2); [lia|exact Ei].
Qed.

Lemma last_shift {A : Type} (l : list A) (a d : A) : last (a :: l) d = last l a.
Proof.
  revert a d. induction l as [|b l IH]; intros a d; [reflexivity|].
  change (last (a :: b :: l) d) with (last (b :: l) d).
  rewrite IH. symmetry. apply IH.
Qed.

Lemma ascending_crossing (l : list breakpoint) :
  forall (p0 : breakpoint) (rank : Z),
    ascending (p0 :: l) -> fst p0 < rank -> rank <= fst (last l p0) ->
    Forall (fun p => fst p <> rank) (p0 :: l) ->
    exists pre post r1 v1 r2 v2,
      p0 :: l = pre ++ (r1, v1) :: (r2, v2) :: post /\ r1 < rank < r2.
Proof.
  induction l as [|p1 l IH]; intros p0 rank Hs Hlo Hhi Hne.
  - cbn in Hhi. lia.
  - inversion Hs as [|? ? Hs' Hall]; subst.
    inversion Hne as [|? ? _ Hne']; subst.
    inversion Hne' as [|? ? Hp1 _]; subst.
    destruct (Z_lt_ge_dec rank (fst p1)) as [Hlt|Hge].
    + destruct p0 as [r1 v1], p1 as [r2 v2]. cbn [fst] in *.
      exists [], l, r1, v1, r2, v2. split; [reflexivity|lia].
    + destruct (IH p1 rank Hs') as (pre & post & r1 & v1 & r2 & v2 & E & Hb).
      * lia.
      * now rewrite <- (last_shift l p1 p0).
      * exact Hne'.
      * exists (p0 :: pre), post, r1, v1, r2, v2. split; [|exact Hb].
        cbn [app]. now rewrite E.
Qed.

Lemma estimator_in_segment (pre post : list breakpoint) (r1 v1 r2 v2 rank : Z) :
  ascending (pre ++ (r1, v1) :: (r2, v2) :: post) -> 1 <= rank -> r1 < rank < r2 ->
  _make_estimator (pre ++ (r1, v1) :: (r2, v2) :: post) rank
  = interpolate rank r1 v1 r2 v2.
Proof.
  intros Hs H1 Hr.
  destruct (ascending_split pre post (r1, v1) (r2, v2) Hs) as (Hpre & _ & Hpost).
  cbn [fst] in *.
  assert (Hin1 : In (r1, v1) (pre ++ (r1, v1) :: (r2, v2) :: post))
    by (apply in_or_app; right; now left).
  assert (Hin2 : In (r2, v2) (pre ++ (r1, v1) :: (r2, v2) :: post))
    by (apply in_or_app; right; right; now left).
  pose proof (interp_loop_crossing rank r1 v1 r2 v2 pre post Hpre Hr) as Hloop.
  destruct (pre ++ (r1, v1) :: (r2, v2) :: post) as [|p0 l] eqn:E;
    [destruct pre; discriminate|].
  rewrite estimator_guarded.
  - rewrite exact_loop_None.
    + cbn [tl] in Hloop. now rewrite Hloop.
    + rewrite <- E. apply Forall_app. split.
      * eapply Forall_impl; [|exact Hpre]. cbn. intros; lia.
      * constructor; [cbn; lia|]. constructor; [cbn; lia|].
        eapply Forall_impl; [|exact Hpost]. cbn. intros; lia.
  - exact H1.
  - pose proof (ascending_last_max (p0 :: l) (last l p0) (r2, v2) Hs
                  (index_last_cons p0 l) Hin2) as H. cbn [fst] in H. lia.
  - pose proof (ascending_first_min p0 (r1, v1) l Hs Hin1) as H. cbn [fst] in H. lia.
Qed.

(** X1. On a non-empty list sorted ascending by rank, every rank from 1 to
    the largest breakpoint rank falls in one of three cases: it is at most
    the first breakpoint's rank and the estimator returns -1, it is the
    rank of a breakpoint whose sales value is returned, or it lies
    strictly between two consecutive breakpoints and the estimator
    returns their interpolation.  The closing [return breakpoints[-1][1]]
    is never reached. *)
Theorem estimator_sorted_cases (bps : list breakpoint) (p0 : breakpoint) (rank : Z) :
  ascending bps -> hd_error bps = Some p0 -> 1 <= rank <= max_rank bps ->
  (rank <= fst p0 /\ _make_estimator bps rank = Ok (-1))
  \/ (fst p0 < rank /\ exists v, In (rank, v) bps /\ _make_estimator bps rank = Ok v)
  \/ (exists pre post r1 v1 r2 v2,
         bps = pre ++ (r1, v1) :: (r2, v2) :: post /\ r1 < rank < r2
         /\ _make_estimator bps rank = interpolate rank r1 v1 r2 v2).
Proof.
  intros Hs Hhd Hr. destruct bps as [|q l]; [discriminate|].
  injection Hhd as ->.
  rewrite (ascending_max_rank (p0 :: l) (last l p0) Hs (index_last_cons p0 l)) in Hr.
  destruct (Z_le_gt_dec rank (fst p0)) as [H|H].
  - left. split; [exact H|]. apply estimator_at_first; lia.
  - right. destruct (exact_loop rank (p0 :: l)) as [v|] eqn:E.
    + left. split; [lia|]. exists v. split; [now apply exact_loop_Some_In|].
      rewrite estimator_guarded by lia. now rewrite E.
    + right.
      assert (Hne : Forall (fun p => fst p <> rank) (p0 :: l)).
      { apply Forall_forall. intros [r v] Hin Heq. cbn [fst] in Heq. subst r.
        destruct (exact_loop_In rank v (p0 :: l) Hin) as [v' Hv']. congruence. }
      destruct (ascending_crossing l p0 rank Hs) as (pre & post & r1 & v1 & r2 & v2 & Eb & Hb);
        [lia|lia|exact Hne|].
      exists pre, post, r1, v1, r2, v2. split; [exact Eb|]. split; [exact Hb|].
      rewrite Eb. rewrite Eb in Hs. apply estimator_in_segment; [exact Hs|lia|exact Hb].
Qed.

End EstimatorFurther.

Lemma estimator_sorted_cases_witness :
  (30 <= fst (1, 5000) /\ _make_estimator fixture_bps 30 = Ok (-1))
  \/ (fst (1, 5000) < 30 /\ exists v, In (30, v) fixture_bps /\ _make_estimator fixture_bps 30 = Ok v)
  \/ (exists pre post r1 v1 r2 v2,
         fixture_bps = pre ++ (r1, v1) :: (r2, v2) :: post /\ r1 < 30 < r2
         /\ _make_estimator fixture_bps 30 = interpolate 30 r1 v1 r2 v2).
Proof.
  apply (estimator_sorted_cases fixture_bps (1, 5000) 30).
  - repeat constructor; unfold rank_le; simpl; lia.
  - reflexivity.
  - vm_compute. split; discriminate.
Defined.

Section EstimatorFailures.

(** X2. A call of the estimator fails in three ways only: IndexError on an
    empty breakpoint list, ValueError for a rank below 1 or above the
    last breakpoint's rank, OverflowError out of the float arithmetic of
    an interpolation between two listed breakpoints.  The division by
    [r2 - r1] is never a division by zero, whatever the list. *)
Theorem estimator_raises (bps : list breakpoint) (rank : Z) (e : exn) :
  _make_estimator bps rank = Raise e ->
  (bps = [] /\ e = IndexError)
  \/ (exists pl, index_last bps = Ok pl /\ (rank < 1 \/ fst pl < rank) /\ e = ValueError)
  \/ (exists r1 v1 r2 v2,
         In (r1, v1) bps /\ In (r2, v2) bps /\ r1 < rank < r2
         /\ interpolate rank r1 v1 r2 v2 = Raise OverflowError /\ e = OverflowError).
Proof.
  intros He. destruct bps as [|p0 l]; [left; split; [reflexivity|]; cbn in He; congruence|].
  right. unfold _make_estimator in He. rewrite index_last_cons in He.
  cbn [bind index_first] in He. destruct (last l p0) as [rlast vlast] eqn:El.
  destruct (negb ((1 <=? rank) && (rank <=? rlast))) eqn:G.
  - left. exists (rlast, vlast). split; [now rewrite index_last_cons, El|].
    apply negb_true_iff in G. bool_to_Z; cbn [fst]; split; try lia; congruence.
  - right. destruct p0 as [rfirst vfirst]. destruct (rank <=? rfirst); [discriminate|].
    match type of He with
    | context [exact_loop ?a ?b] => destruct (exact_loop a b); [discriminate|]
    end.
    match type of He with
    | context [interp_loop ?a ?b] =>
        destruct (interp_loop a b) as [res|] eqn:E; [|discriminate]
    end.
    apply interp_loop_Some in E as (r1 & v1 & r2 & v2 & Hin1 & Hin2 & Hb & ->).
    assert (e = OverflowError) by (apply (interpolate_raises rank r1 v1 r2 v2); [lia|exact He]).
    subst e. exists r1, v1, r2, v2. repeat split; try assumption; lia.
Qed.

End EstimatorFailures.

Lemma estimator_raises_witness :
  (huge_bps = [] /\ OverflowError = IndexError)
  \/ (exists pl, index_last huge_bps = Ok pl /\ (2 < 1 \/ fst pl < 2)
                 /\ OverflowError = ValueError)
  \/ (exists r1 v1 r2 v2,
         In (r1, v1) huge_bps /\ In (r2, v2) huge_bps /\ r1 < 2 < r2
         /\ interpolate 2 r1 v1 r2 v2 = Raise OverflowError
         /\ OverflowError = OverflowError).
Proof.
  apply (estimator_raises huge_bps 2 OverflowError). vm_compute. reflexivity.
Defined.

Section EstimatorSegments.

Lemma trunc_interpolation_weights (rank r1 v1 r2 v2 : Z) :
  v1 * (r2 - r1) + (v2 - v1) * (rank - r1) = v1 * (r2 - rank) + v2 * (rank - r1).
Proof. ring. Qed.

Lemma trunc_interpolation_bounds (rank r1 v1 r2 v2 : Z) :
  r1 < rank < r2 ->
  Z.min v1 v2 <= trunc_interpolation rank r1 v1 r2 v2 <= Z.max v1 v2.
Proof.
  intros Hr. unfold trunc_interpolation. rewrite trunc_interpolation_weights.
  assert (Hd : 0 < r2 - r1) by lia.
  assert (A1 : Z.min v1 v2 * (r2 - rank) <= v1 * (r2 - rank))
    by (apply Z.mul_le_mono_nonneg_r; lia).
  assert (A2 : Z.min v1 v2 * (rank - r1) <= v2 * (rank - r1))
    by (apply Z.mul_le_mono_nonneg_r; lia).
  assert (A3 : v1 * (r2 - rank) <= Z.max v1 v2 * (r2 - rank))
    by (apply Z.mul_le_mono_nonneg_r; lia).
  assert (A4 : v2 * (rank - r1) <= Z.max v1 v2 * (rank - r1))
    by (apply Z.mul_le_mono_nonneg_r; lia).
  assert (Hlo : Z.min v1 v2 * (r2 - r1) <= v1 * (r2 - rank) + v2 * (rank - r1)) by lia.
  assert (Hhi : v1 * (r2 - rank) + v2 * (rank - r1) <= Z.max v1 v2 * (r2 - r1)) by lia.
  split.
  - apply Z.le_trans with (Z.quot (Z.min v1 v2 * (r2 - r1)) (r2 - r1)).
    + rewrite Z.quot_mul by lia. lia.
    + apply Z.quot_le_mono; [lia|exact Hlo].
  - apply Z.le_trans with (Z.quot (Z.max v1 v2 * (r2 - r1)) (r2 - r1)).
    + apply Z.quot_le_mono; [lia|exact Hhi].
    + rewrite Z.quot_mul by lia. lia.
Qed.

Lemma trunc_interpolation_mono (rank rank' r1 v1 r2 v2 : Z) :
  r1 < r2 -> rank <= rank' ->
  (v2 <= v1 ->
   trunc_interpolation rank' r1 v1 r2 v2 <= trunc_interpolation rank r1 v1 r2 v2)
  /\ (v1 <= v2 ->
      trunc_interpolation rank r1 v1 r2 v2 <= trunc_interpolation rank' r1 v1 r2 v2).
Proof.
  intros Hd Hr. unfold trunc_interpolation. split; intros Hv.
  - apply Z.quot_le_mono; [lia|]. apply Z.add_le_mono_l.
    replace ((v2 - v1) * (rank' - r1)) with (- ((v1 - v2) * (rank' - r1))) by ring.
    replace ((v2 - v1) * (rank - r1)) with (- ((v1 - v2) * (rank - r1))) by ring.
    apply -> Z.opp_le_mono. apply Z.mul_le_mono_nonneg_l; lia.
  - apply Z.quot_le_mono; [lia|]. apply Z.add_le_mono_l.
    apply Z.mul_le_mono_nonneg_l; lia.
Qed.

(** X3. Between two consecutive breakpoints of a sorted list of moderate
    magnitudes, the estimate lies between the two sales values, and it
    moves with the rank in one direction: a larger rank never gets a
    larger estimate when the sales fall from the first breakpoint to the
    second, and never a smaller one when they rise. *)
Theorem estimator_segment_monotone (bps pre post : list breakpoint)
  (r1 v1 r2 v2 rank rank' : Z) :
  ascending bps -> small_breakpoints bps ->
  bps = pre ++ (r1, v1) :: (r2, v2) :: post ->
  1 <= rank -> r1 < rank -> rank <= rank' -> rank' < r2 ->
  exists v v',
    _make_estimator bps rank = Ok v /\ _make_estimator bps rank' = Ok v'
    /\ Z.min v1 v2 <= v <= Z.max v1 v2 /\ Z.min v1 v2 <= v' <= Z.max v1 v2
    /\ (v2 <= v1 -> v' <= v) /\ (v1 <= v2 -> v <= v').
Proof.
  intros Hs Hsmall -> H1 Hlo Hle Hhi.
  assert (Hin1 : In (r1, v1) (pre ++ (r1, v1) :: (r2, v2) :: post))
    by (apply in_or_app; right; now left).
  assert (Hin2 : In (r2, v2) (pre ++ (r1, v1) :: (r2, v2) :: post))
    by (apply in_or_app; right; right; now left).
  unfold small_breakpoints in Hsmall. rewrite Forall_forall in Hsmall.
  pose proof (Hsmall _ Hin1) as [B1 B1']. pose proof (Hsmall _ Hin2) as [B2 B2'].
  cbn [fst snd] in *.
  exists (trunc_interpolation rank r1 v1 r2 v2), (trunc_interpolation rank' r1 v1 r2 v2).
  split; [|split].
  - rewrite estimator_in_segment by (try assumption; lia).
    apply PyFloatFacts.interpolate_small; lia.
  - rewrite estimator_in_segment by (try assumption; lia).
    apply PyFloatFacts.interpolate_small; lia.
  - split; [apply trunc_interpolation_bounds; lia|].
    split; [apply trunc_interpolation_bounds; lia|].
    apply trunc_interpolation_mono; lia.
Qed.

End EstimatorSegments.

Lemma estimator_segment_monotone_witness :
  exists v v',
    _make_estimator fixture_bps 20 = Ok v /\ _make_estimator fixture_bps 30 = Ok v'
    /\ Z.min 1000 200 <= v <= Z.max 1000 200 /\ Z.min 1000 200 <= v' <= Z.max 1000 200
    /\ (200 <= 1000 -> v' <= v) /\ (1000 <= 200 -> v <= v').
Proof.
  apply (estimator_segment_monotone fixture_bps [(1, 5000)] [] 10 1000 50 200 20 30).
  - repeat constructor; unfold rank_le; simpl; lia.
  - repeat constructor; simpl; lia.
  - reflexivity.
  - lia.
  - lia.
  - lia.
  - lia.
Defined.

(** ** The parsed baseline and the estimator *)

Section BaselineFurther.

Variable decimal : char -> option Z.
Hypothesis decimal_range : forall c d, decimal c = Some d -> 0 <= d <= 9.

Lemma map_result_Forall2 {A B : Type} (f : A -> result B) (l : list A) (ys : list B) :
  map_result f l = Ok ys -> Forall2 (fun x y => f x = Ok y) l ys.
Proof.
  revert ys. induction l as [|x l IH]; intros ys H; cbn [map_result] in H.
  - injection H as <-. constructor.
  - destruct (f x) as [y|] eqn:Ex; cbn [bind] in H; [|discriminate].
    destruct (map_result f l) as [ys'|]; cbn [bind] in H; [|discriminate].
    injection H as <-. constructor; [exact Ex|now apply IH].
Qed.

Lemma Forall2_In_r {A B : Type} (R : A -> B -> Prop) (l : list A) (ys : list B) (y : B) :
  Forall2 R l ys -> In y ys -> exists x, In x l /\ R x y.
Proof.
  induction 1 as [|x y' l ys Hxy _ IH]; intros Hin; [contradiction|].
  destruct Hin as [->|Hin]; [exists x; split; [now left|exact Hxy]|].
  destruct (IH Hin) as (x' & Hx' & Hr). exists x'. split; [now right|exact Hr].
Qed.

Lemma int_pair_natural (m : Re.match_obj) (bp : breakpoint) pos rest s' :
  Re.matches (PAIR_RE decimal) pos rest [] (Re.m_end m) s' (Re.m_caps m) ->
  int_pair decimal m = Ok bp -> 0 <= fst bp /\ 0 <= snd bp.
Proof.
  intros M H. apply pair_match_groups in M as (w1 & w2 & G1 & G2 & D1 & L1 & D2 & L2).
  destruct (py_int_ok decimal decimal_range w1 D1 L1) as (r & Hr & Br).
  destruct (py_int_ok decimal decimal_range w2 D2 L2) as (v & Hv & Bv).
  unfold int_pair, get_group in H. rewrite G1, G2 in H. cbn [bind] in H.
  rewrite Hr, Hv in H. cbn [bind] in H. injection H as <-. cbn [fst snd]. lia.
Qed.

Lemma parse_baseline_inv (text : str) (bps : list breakpoint) :
  _parse_baseline decimal text = Ok bps ->
  exists m line tokens,
    Re.re_search BASELINE_RE text = Some m /\ get_group m 1 = Ok line
    /\ tokens <> []
    /\ map_result (int_pair decimal) (Re.re_findall (PAIR_RE decimal) line) = Ok tokens
    /\ bps = py_sorted tokens.
Proof.
  unfold _parse_baseline. intros H.
  destruct (Re.re_search BASELINE_RE text) as [m|]; [|discriminate].
  destruct (get_group m 1) as [line|] eqn:Hg; cbn [bind] in H; [|discriminate].
  destruct (Re.re_findall (PAIR_RE decimal) line) as [|p ps] eqn:Ef;
    cbv beta iota in H; [discriminate|].
  match type of H with
  | context [map_result ?f ?l] => destruct (map_result f l) as [tokens|] eqn:Et
  end; cbn [bind] in H; [|discriminate].
  injection H as <-.
  exists m, line, tokens.
  split; [reflexivity|]. split; [exact Hg|]. rewrite Ef.
  split; [|split; [exact Et|reflexivity]].
  apply map_result_Forall2 in Et. inversion Et; subst. discriminate.
Qed.


(** X4. Whatever text the parser accepts, the list it returns can be handed
    to the estimator as it is: it is not empty, it is sorted ascending by
    rank, its ranks and sales values are natural numbers, and the
    estimator built from it raises ValueError exactly for the ranks below
    1 or above the largest parsed rank; for the other ranks it returns a
    value, or raises OverflowError out of the float arithmetic, and
    never IndexError. *)
Theorem parsed_baseline_estimator (text : str) (bps : list breakpoint) (rank : Z) :
  _parse_baseline decimal text = Ok bps ->
  bps <> [] /\ ascending bps
  /\ Forall (fun p => 0 <= fst p /\ 0 <= snd p) bps
  /\ (_make_estimator bps rank = Raise ValueError <-> rank < 1 \/ max_rank bps < rank)
  /\ (1 <= rank <= max_rank bps ->
      (exists v, _make_estimator bps rank = Ok v)
      \/ _make_estimator bps rank = Raise OverflowError).
Proof.
  intros H. apply parse_baseline_inv in H as (m & line & tokens & Hm & Hg & Hne & Ht & ->).
  pose proof (py_sorted_perm tokens) as Hperm.
  assert (Hs : ascending (py_sorted tokens))
    by apply tuple_sorted_ascending, py_sorted_sorted.
  assert (Hnat : Forall (fun p => 0 <= fst p /\ 0 <= snd p) (py_sorted tokens)).
  { apply Forall_forall. intros p Hin.
    apply (Permutation_in _ (Permutation_sym Hperm)) in Hin.
    apply map_result_Forall2 in Ht.
    destruct (Forall2_In_r _ _ _ p Ht Hin) as (mo & Hmo & Hp).
    destruct (ReFacts.findall_from_sound _ _ _ _ _ Hmo) as (pos0 & rest & s' & M).
    exact (int_pair_natural mo p pos0 rest s' M Hp). }
  destruct (py_sorted tokens) as [|p0 l] eqn:E.
  { apply Permutation_sym, Permutation_nil in Hperm. contradiction. }
  rewrite (ascending_max_rank (p0 :: l) (last l p0) Hs (index_last_cons p0 l)).
  split; [discriminate|]. split; [exact Hs|]. split; [exact Hnat|]. split; [split|].
  - intros He. destruct (Z_lt_ge_dec rank 1) as [|H1]; [now left|].
    destruct (Z_lt_ge_dec (fst (last l p0)) rank) as [|H2]; [now right|].
    exfalso. apply (estimator_in_range_not_ValueError p0 l rank);
      [unfold breakpoint in *; lia|exact He].
  - intros Hr. apply (estimator_out_of_range (p0 :: l) (last l p0));
      [apply index_last_cons|exact Hr].
  - intros Hr. apply estimator_in_range_outcome. unfold breakpoint in *. lia.
Qed.

End BaselineFurther.

Lemma parsed_baseline_estimator_witness :
  fixture_bps <> [] /\ ascending fixture_bps
  /\ Forall (fun p => 0 <= fst p /\ 0 <= snd p) fixture_bps
  /\ (_make_estimator fixture_bps 30 = Raise ValueError <-> 30 < 1 \/ max_rank fixture_bps < 30)
  /\ (1 <= 30 <= max_rank fixture_bps ->
      (exists v, _make_estimator fixture_bps 30 = Ok v)
      \/ _make_estimator fixture_bps 30 = Raise OverflowError).
Proof.
  apply (parsed_baseline_estimator decimal_basic decimal_basic_range fixture_text fixture_bps 30).
  vm_compute. reflexivity.
Defined.

(** ** The line of the baseline tokens *)

Module ReGreedy.
Import Re.

Lemma rep_greedy_max {R : Type} (p : char -> bool) (w rest : str) :
  forall (pos : nat) (k : nat -> str -> option R) (x : R),
    forallb p w = true -> stops p rest -> k (pos + length w)%nat rest = Some x ->
    rep_greedy p 0 None pos (w ++ rest) k = Some x.
Proof.
  induction w as [|c w IH]; intros pos k x Hw Hs Hk.
  - cbn [app length] in *. rewrite Nat.add_0_r in Hk.
    destruct rest as [|c rest]; cbn [rep_greedy]; [exact Hk|].
    cbn in Hs. rewrite Hs. cbn. exact Hk.
  - cbn [forallb] in Hw. apply andb_true_iff in Hw as [Hc Hw].
    cbn [app rep_greedy hi_open]. rewrite Hc. cbn [andb pred option_map].
    rewrite (IH (S pos) k x Hw Hs); [reflexivity|].
    cbn [length] in Hk. now rewrite Nat.add_succ_r in Hk.
Qed.

Lemma rep_greedy_opt {R : Type} (p : char -> bool) (c : char) (s : str) (pos : nat)
  (k : nat -> str -> option R) (x : R) :
  p c = true -> k (S pos) s = Some x ->
  rep_greedy p 0 (Some 1%nat) pos (c :: s) k = Some x.
Proof.
  intros Hc Hk. cbn [rep_greedy hi_open]. rewrite Hc. cbn [andb pred option_map].
  destruct s as [|d s]; cbn [rep_greedy hi_open andb]; now rewrite Hk.
Qed.

Lemma search_from_hit r pos s m :
  match_at r pos s = Some m -> search_from r pos s = Some m.
Proof. intros H. destruct s; cbn [search_from]; now rewrite H. Qed.

Lemma search_from_skip r (pre s : str) :
  forall pos,
    (forall pre1 c pre2, pre = pre1 ++ c :: pre2 ->
                         match_at r (pos + length pre1) (c :: pre2 ++ s) = None) ->
    search_from r pos (pre ++ s) = search_from r (pos + length pre) s.
Proof.
  induction pre as [|c pre IH]; intros pos H.
  - cbn [app length]. now rewrite Nat.add_0_r.
  - cbn [app search_from].
    pose proof (H [] c pre eq_refl) as H0. cbn [length] in H0.
    rewrite Nat.add_0_r in H0. rewrite H0. rewrite IH.
    + cbn [length]. now rewrite Nat.add_succ_r.
    + intros pre1 d pre2 E.
      replace (S pos + length pre1)%nat with (pos + length (c :: pre1))%nat
        by (cbn [length]; lia).
      apply (H (c :: pre1) d pre2). now rewrite E.
Qed.

End ReGreedy.

Section BaselineLine.

Lemma baseline_exec_unfold {R : Type} pos s cs (k : nat -> str -> Re.caps -> option R) :
  Re.exec BASELINE_RE pos s cs k
  = Re.exec (Re.Chr 0x203B) pos s cs (fun p1 s1 c1 =>
      Re.exec (Re.Star not_nl) p1 s1 c1 (fun p2 s2 c2 =>
        Re.exec (Re.Str baseline_phrase) p2 s2 c2 (fun p3 s3 c3 =>
          Re.exec BASELINE_REST p3 s3 c3 k))).
Proof. reflexivity. Qed.

Lemma baseline_no_mark (c : char) (s : str) (pos : nat) :
  not_char 0x203B c = true -> Re.match_at BASELINE_RE pos (c :: s) = None.
Proof.
  intros Hc. unfold Re.match_at. rewrite baseline_exec_unfold. cbn [Re.exec].
  unfold not_char in Hc. apply negb_true_iff in Hc. now rewrite Hc.
Qed.

Lemma baseline_rest_exec (pos0 pos : nat) (b rest line : str) (cs : Re.caps) :
  forallb not_nl b = true ->
  (rest = [] /\ line = [])
  \/ (exists tail, rest = 0x0A :: line ++ tail /\ forallb not_nl line = true
                   /\ line_end tail) ->
  exists e,
    Re.exec BASELINE_REST pos (b ++ rest) cs (fun e _ cs' => Some (Re.MatchObj pos0 e cs'))
    = Some (Re.MatchObj pos0 e (Re.set_group 1 line cs)).
Proof.
  intros Hb Hrest. unfold BASELINE_REST, Seq. cbn [fold_right].
  unfold Re.Star, Re.Opt. cbn [Re.exec].
  destruct Hrest as [[-> ->]|(tail & -> & Hline & Htail)].
  - eexists. apply ReGreedy.rep_greedy_max; [exact Hb|exact I|].
    cbn [Re.rep_greedy]. rewrite firstn_nil. reflexivity.
  - eexists. apply ReGreedy.rep_greedy_max; [exact Hb|reflexivity|].
    apply ReGreedy.rep_greedy_opt; [reflexivity|].
    apply ReGreedy.rep_greedy_max; [exact Hline| |].
    + destruct Htail as [->|[t ->]]; [exact I|reflexivity].
    + rewrite firstn_span. reflexivity.
Qed.

Lemma baseline_front (pos : nat) (s : str) (m : Re.match_obj) :
  Re.match_at BASELINE_RE pos s = Some m ->
  exists w s2 pos2,
    s = 0x203B :: w ++ baseline_phrase ++ s2 /\ forallb not_nl w = true
    /\ Re.exec BASELINE_REST pos2 s2 [] (fun e _ cs' => Some (Re.MatchObj pos e cs'))
       = Some m.
Proof.
  unfold Re.match_at. rewrite baseline_exec_unfold. intros H.
  apply ReFacts.exec_sound in H as (p1 & s1 & c1 & M1 & H).
  apply ReFacts.exec_sound in H as (p2 & s2 & c2 & M2 & H).
  apply ReFacts.exec_sound in H as (p3 & s3 & c3 & M3 & H).
  unfold baseline_phrase in M3. split_match.
  eexists w, s3, _. split; [reflexivity|]. split; [assumption|exact H].
Qed.

Lemma first_break (u : str) :
  forall v s tail : str,
    u ++ s = v ++ tail -> forallb not_nl u = true -> forallb not_nl v = true ->
    stops not_nl tail ->
    exists b, s = b ++ tail /\ forallb not_nl b = true.
Proof.
  induction u as [|c u IH]; intros v s tail E Hu Hv Ht.
  - exists v. split; [exact E|exact Hv].
  - cbn [forallb] in Hu. apply andb_true_iff in Hu as [Hc Hu].
    destruct v as [|d v].
    + cbn [app] in E. subst tail. cbn in Ht. congruence.
    + cbn [app] in E. injection E as -> E.
      cbn [forallb] in Hv. apply andb_true_iff in Hv as [_ Hv].
      exact (IH v s tail E Hu Hv Ht).
Qed.

Lemma baseline_search_line (pre a b rest line : str) :
  forallb (not_char 0x203B) pre = true ->
  forallb not_nl a = true -> forallb not_nl b = true ->
  (rest = [] /\ line = [])
  \/ (exists tail, rest = 0x0A :: line ++ tail /\ forallb not_nl line = true
                   /\ line_end tail) ->
  exists m,
    Re.re_search BASELINE_RE (pre ++ 0x203B :: a ++ baseline_phrase ++ b ++ rest) = Some m
    /\ get_group m 1 = Ok line.
Proof.
  intros Hpre Ha Hb Hrest. unfold Re.re_search.
  rewrite ReGreedy.search_from_skip.
  2:{ intros pre1 c pre2 E. apply baseline_no_mark. subst pre.
      rewrite forallb_app in Hpre. apply andb_true_iff in Hpre as [_ Hpre].
      cbn [forallb] in Hpre. now apply andb_true_iff in Hpre as [Hc _]. }
  destruct (Re.match_at BASELINE_RE (0 + length pre)
              (0x203B :: a ++ baseline_phrase ++ b ++ rest)) as [m|] eqn:Em.
  - exists m. split; [now apply ReGreedy.search_from_hit|].
    destruct (baseline_front _ _ _ Em) as (w & s2 & pos2 & E & Hw & Hx).
    injection E as E.
    assert (Hs : stops not_nl rest).
    { destruct Hrest as [[-> _]|(tail & -> & _)]; [exact I|reflexivity]. }
    destruct (first_break (w ++ baseline_phrase) (a ++ baseline_phrase ++ b) s2 rest)
      as (b' & -> & Hb').
    + rewrite <- !app_assoc. symmetry. exact E.
    + rewrite forallb_app, Hw. reflexivity.
    + rewrite !forallb_app, Ha, Hb. reflexivity.
    + exact Hs.
    + destruct (baseline_rest_exec (0 + length pre) pos2 b' rest line [] Hb' Hrest)
        as [e He].
      rewrite He in Hx. injection Hx as <-. unfold get_group. cbn.
      reflexivity.
  - exfalso.
    destruct (baseline_match_exists (0 + length pre) a (b ++ rest) Ha) as (e & s' & cs & M).
    exact (ReFacts.match_at_none _ _ _ Em _ _ _ M).
Qed.

Variable decimal : char -> option Z.

(** X5. The parser reads the rank/sales tokens from one line only: the line
    that follows the line of the marker.  What precedes the marker, what
    stands on the marker's line before and after the phrase (tokens
    included) and every further line leave the result unchanged; and a
    marker line that is the last line of the text gives RuntimeError even
    when it holds tokens itself. *)
Theorem baseline_reads_following_line (pre a b line tail : str) :
  forallb (not_char 0x203B) pre = true ->
  forallb not_nl a = true -> forallb not_nl b = true -> forallb not_nl line = true ->
  line_end tail ->
  _parse_baseline decimal
    (pre ++ 0x203B :: a ++ baseline_phrase ++ b ++ 0x0A :: line ++ tail)
  = _parse_baseline decimal (0x203B :: baseline_phrase ++ 0x0A :: line)
  /\ _parse_baseline decimal (pre ++ 0x203B :: a ++ baseline_phrase ++ b)
     = Raise RuntimeError.
Proof.
  intros Hpre Ha Hb Hline Htail. split.
  - destruct (baseline_search_line pre a b (0x0A :: line ++ tail) line Hpre Ha Hb)
      as (m & Hm & Hg).
    { right. exists tail. auto. }
    destruct (baseline_search_line [] [] [] (0x0A :: line ++ []) line
                eq_refl eq_refl eq_refl) as (m' & Hm' & Hg').
    { right. exists []. split; [reflexivity|]. split; [exact Hline|now left]. }
    rewrite app_nil_r in Hm'. cbn [app] in Hm'.
    unfold _parse_baseline. rewrite Hm, Hm', Hg, Hg'. reflexivity.
  - destruct (baseline_search_line pre a b [] [] Hpre Ha Hb) as (m & Hm & Hg);
      [now left|].
    rewrite app_nil_r in Hm.
    unfold _parse_baseline. rewrite Hm, Hg. reflexivity.
Qed.

End BaselineLine.

Lemma baseline_reads_following_line_witness :
  _parse_baseline decimal_basic
    (lit "top " ++ 0x203B :: lit " " ++ baseline_phrase ++ (lit " 9" ++ [0x4F4D] ++ lit "9")
     ++ 0x0A :: (lit "1" ++ [0x4F4D] ++ lit "5000 10" ++ [0x4F4D] ++ lit "1000")
     ++ (0x0A :: lit "2" ++ [0x4F4D] ++ lit "7"))
  = _parse_baseline decimal_basic
      (0x203B :: baseline_phrase
       ++ 0x0A :: (lit "1" ++ [0x4F4D] ++ lit "5000 10" ++ [0x4F4D] ++ lit "1000"))
  /\ _parse_baseline decimal_basic
       (lit "top " ++ 0x203B :: lit " " ++ baseline_phrase
        ++ (lit " 9" ++ [0x4F4D] ++ lit "9"))
     = Raise RuntimeError.
Proof.
  apply (baseline_reads_following_line decimal_basic (lit "top ") (lit " ")
           (lit " 9" ++ [0x4F4D] ++ lit "9")
           (lit "1" ++ [0x4F4D] ++ lit "5000 10" ++ [0x4F4D] ++ lit "1000")
           (0x0A :: lit "2" ++ [0x4F4D] ++ lit "7")); try reflexivity.
  right. eexists. reflexivity.
Defined.

Example baseline_busy_text :
  _parse_baseline decimal_basic busy_text = Ok [(1, 5000); (10, 1000)].
Proof. vm_compute. reflexivity. Qed.

(** ** Dates of the monthly articles, and what every date record holds *)

Section DateFurther.

Variable decimal : char -> option Z.
Hypothesis decimal_range : forall c d, decimal c = Some d -> 0 <= d <= 9.

Lemma monthly_match_groups pos rest e s' cs :
  Re.matches (MONTHLY_RE decimal) pos rest [] e s' cs ->
  exists y mo,
    rest = monthly_fragment y mo ++ s'
    /\ digits_between (is_digit decimal) 4 4 y
    /\ digits_between (is_digit decimal) 1 2 mo
    /\ Re.group cs 1 = Some y /\ Re.group cs 2 = Some mo.
Proof.
  unfold MONTHLY_RE. intros M. split_match. rewrite !firstn_span.
  eexists _, _. cbn [Re.group Re.set_group Nat.eqb].
  split; [|split; [|split; [|split; reflexivity]]].
  - unfold monthly_fragment. rewrite <- !app_assoc. reflexivity.
  - unfold digits_between, Re.within in *. auto.
  - unfold digits_between, Re.within in *. auto.
Qed.

Lemma monthly_match_exists pos y mo post :
  digits_between (is_digit decimal) 4 4 y -> digits_between (is_digit decimal) 1 2 mo ->
  exists e cs,
    Re.matches (MONTHLY_RE decimal) pos (monthly_fragment y mo ++ post) [] e post cs.
Proof.
  unfold digits_between. intros (Hy & Ly) (Hmo & Lmo).
  unfold monthly_fragment, MONTHLY_RE, Seq, Re.Times. cbn [fold_right].
  rewrite <- !app_assoc. cbn [app].
  eexists _, _.
  eapply Re.M_Cat; [apply Re.M_Grp, Re.M_Rep; [exact Hy|lia|simpl; lia]|].
  eapply Re.M_Cat; [apply Re.M_Chr|].
  eapply Re.M_Cat; [apply Re.M_Grp, Re.M_Rep; [exact Hmo|lia|simpl; lia]|].
  eapply Re.M_Cat; [apply Re.M_Chr|].
  apply Re.M_Eps.
Qed.

Lemma search_monthly_some (text : str) :
  matches_monthly (is_digit decimal) text ->
  exists m, Re.re_search (MONTHLY_RE decimal) text = Some m.
Proof.
  intros (pre & y & mo & post & -> & Hy & Hmo).
  destruct (monthly_match_exists (0 + length pre) y mo post Hy Hmo) as (e & cs & M).
  exact (ReFacts.search_from_some _ _ _ _ _ _ _ M).
Qed.

(** X6. In monthly mode, a header that holds a fragment YYYY年M月 is matched
    at such a fragment; when its month number is at most 12 (0 included,
    whose name is empty), jp_date is the fragment, year the four digits,
    month the digits of M as written, week absent, and en_date the English
    month name, a space and the year; when the month number is above 12
    the extractor raises IndexError. *)
Theorem monthly_date_info (text : str) :
  matches_monthly (is_digit decimal) text ->
  exists pre y mo post n,
    text = pre ++ monthly_fragment y mo ++ post
    /\ digits_between (is_digit decimal) 4 4 y
    /\ digits_between (is_digit decimal) 1 2 mo
    /\ py_int decimal mo = Ok n /\ 0 <= n <= 99
    /\ (n <= 12 ->
        exists name,
          py_getitem month_name n = Ok name
          /\ _extract_date_info decimal (Some text) true
             = Ok (mkDateInfo (Some (monthly_fragment y mo)) (Some (name ++ lit " " ++ y))
                     (Some y) (Some mo) None))
    /\ (12 < n -> _extract_date_info decimal (Some text) true = Raise IndexError).
Proof.
  intros Hmt. apply search_monthly_some in Hmt as [m Hm].
  unfold _extract_date_info. rewrite Hm.
  apply ReFacts.search_from_sound in Hm as (pre & rest & s' & -> & _ & M & _).
  destruct m as [st e cs]. cbn [Re.m_start Re.m_end Re.m_caps] in M.
  apply monthly_match_groups in M as (y & mo & -> & Hy & Hmo & G1 & G2).
  pose proof Hmo as (Dmo & Lmo).
  destruct (py_int_ok decimal decimal_range mo Dmo ltac:(lia)) as (n & Hn & Bn).
  assert (Bn' : 0 <= n <= 99).
  { assert (10 ^ Z.of_nat (length mo) <= 10 ^ 2)
      by (apply Z.pow_le_mono_r; lia).
    lia. }
  exists pre, y, mo, s', n.
  unfold get_group, month_en. cbn [Re.m_caps]. rewrite G1, G2. cbn [bind].
  rewrite Hn. cbn [bind].
  destruct (month_name_index n ltac:(lia)) as [H1 H2].
  repeat (split; [auto; fail|]). split.
  - intros Hle. destruct (H1 Hle) as [name Hname]. exists name.
    split; [exact Hname|]. rewrite Hname. reflexivity.
  - intros Hgt. now rewrite (H2 Hgt).
Qed.

(** X7. Whatever the header and the mode, a date record that the extractor
    returns is either empty (all five fields absent) or consistent: year
    holds four digits, jp_date is the year, 年 and the rest of the
    fragment, en_date ends with the year, and of month and week exactly the
    one of the mode is present. *)
Theorem date_info_consistent (header : option str) (is_monthly : bool) (d : DateInfo) :
  _extract_date_info decimal header is_monthly = Ok d ->
  d = no_date \/ date_consistent (is_digit decimal) is_monthly d.
Proof.
  unfold _extract_date_info. intros H.
  destruct header as [text|]; [|left; congruence].
  destruct is_monthly.
  - destruct (Re.re_search (MONTHLY_RE decimal) text) as [m|] eqn:Hm;
      [|left; congruence].
    right.
    apply ReFacts.search_from_sound in Hm as (pre & rest & s' & -> & _ & M & _).
    destruct m as [st e cs]. cbn [Re.m_start Re.m_end Re.m_caps] in M.
    apply monthly_match_groups in M as (y & mo & -> & Hy & Hmo & G1 & G2).
    unfold get_group in H. cbn [Re.m_caps] in H. rewrite G1, G2 in H. cbn [bind] in H.
    destruct (month_en decimal mo) as [name|]; cbn [bind] in H; [|discriminate].
    injection H as <-. exists y, (mo ++ [gatsu]), (name ++ lit " ").
    cbn [year jp_date en_date month week].
    split; [exact Hy|]. split; [reflexivity|]. split; [reflexivity|].
    split; [now rewrite <- app_assoc|]. exists mo. auto.
  - destruct (Re.re_search (WEEKLY_RE decimal) text) as [m|] eqn:Hm;
      [|left; congruence].
    right.
    apply ReFacts.search_from_sound in Hm as (pre & rest & s' & -> & _ & M & _).
    destruct m as [st e cs]. cbn [Re.m_start Re.m_end Re.m_caps] in M.
    apply weekly_match_shape in M
        as (y & sm & sd & em & ed & -> & Hf & G1 & G2 & G3 & G4 & G5).
    unfold get_group in H. cbn [Re.m_caps] in H.
    rewrite G1, G2, G3, G4, G5 in H. cbn [bind] in H.
    destruct (month_en decimal sm) as [n1|]; cbn [bind] in H; [|discriminate].
    destruct (month_en decimal em) as [n2|]; cbn [bind] in H; [|discriminate].
    injection H as <-.
    exists y, (week_fragment sm sd em ed),
      (n1 ++ lit " " ++ sd ++ lit " - " ++ n2 ++ lit " " ++ ed ++ lit ", ").
    cbn [year jp_date en_date month week].
    split; [apply Hf|]. split; [reflexivity|]. split; [reflexivity|].
    split; [|split; reflexivity].
    rewrite <- !app_assoc. reflexivity.
Qed.

End DateFurther.

Lemma monthly_date_info_witness :
  exists pre y mo post n,
    monthly_header = pre ++ monthly_fragment y mo ++ post
    /\ digits_between (is_digit decimal_basic) 4 4 y
    /\ digits_between (is_digit decimal_basic) 1 2 mo
    /\ py_int decimal_basic mo = Ok n /\ 0 <= n <= 99
    /\ (n <= 12 ->
        exists name,
          py_getitem month_name n = Ok name
          /\ _extract_date_info decimal_basic (Some monthly_header) true
             = Ok (mkDateInfo (Some (monthly_fragment y mo)) (Some (name ++ lit " " ++ y))
                     (Some y) (Some mo) None))
    /\ (12 < n -> _extract_date_info decimal_basic (Some monthly_header) true
                  = Raise IndexError).
Proof.
  apply (monthly_date_info decimal_basic decimal_basic_range monthly_header).
  exists [], (lit "2025"), (lit "5"), [0x20; 0x6F2B; 0x753B].
  split; [reflexivity|]. split; split; try reflexivity; simpl; lia.
Defined.

Example monthly_date_fixture :
  _extract_date_info decimal_basic (Some monthly_header) true
  = Ok (mkDateInfo (Some (lit "2025" ++ [0x5E74] ++ lit "5" ++ [0x6708]))
          (Some (lit "May 2025")) (Some (lit "2025")) (Some (lit "5")) None).
Proof. vm_compute. reflexivity. Qed.

Lemma date_info_consistent_witness :
  fixture_date = no_date \/ date_consistent (is_digit decimal_basic) false fixture_date.
Proof.
  apply (date_info_consistent decimal_basic (Some fixture_header) false fixture_date).
  vm_compute. reflexivity.
Defined.

(** ** When the workflow returns, and the loop of the window *)

Section PipelineFurther.

Variable decimal : char -> option Z.
Variable en_map : str -> option str.
Variable translate : str -> str.


End PipelineFurther.


Section GuiFacts.

Variable decimal : char -> option Z.
Variable en_map : str -> option str.
Variable translate : str -> str.

Lemma gui_loop_spec (estimator : Z -> result Z) (limit total : Z) (rows : list RankRow) :
  forall acc : list RankingEntry,
    snd (gui_loop en_map translate estimator limit total rows acc)
    = (out <- build_results en_map translate estimator limit rows ;; Ok (acc ++ out))
    /\ (forall entries,
           snd (gui_loop en_map translate estimator limit total rows acc) = Ok entries ->
           fst (gui_loop en_map translate estimator limit total rows acc)
           = progress_steps (S (length acc)) (length entries - length acc) total).
Proof.
  induction rows as [|[[rank jp] volume] rest IH]; intros acc.
  - cbn [gui_loop build_results bind fst snd]. rewrite app_nil_r. split; [reflexivity|].
    intros entries E. injection E as <-. now rewrite Nat.sub_diag.
  - cbn [gui_loop build_results]. destruct (limit <? rank); [apply IH|].
    assert (Et : (match en_map jp with
                  | Some (c :: t) => (c :: t, anilist)
                  | _ => (translate jp, machine_translation)
                  end)
                 = (match en_map jp with
                    | Some (c :: t) => c :: t
                    | _ => translate jp
                    end,
                    if truthy (en_map jp) then anilist else machine_translation)).
    { destruct (en_map jp) as [[|c t]|]; reflexivity. }
    rewrite Et. clear Et.
    set (en_title := match en_map jp with Some (c :: t) => c :: t | _ => translate jp end).
    set (source := if truthy (en_map jp) then anilist else machine_translation).
    destruct (estimator rank) as [sales|e]; cbn [bind fst snd];
      [|split; [reflexivity|discriminate]].
    set (entry := mkEntry rank jp en_title source volume sales).
    destruct (IH (acc ++ [entry])) as [IH1 IH2].
    destruct (gui_loop en_map translate estimator limit total rest (acc ++ [entry]))
      as [calls out]. cbn [fst snd] in *.
    assert (Eout : out = (out0 <- (out1 <- build_results en_map translate estimator limit rest ;;
                                   Ok (entry :: out1)) ;; Ok (acc ++ out0))).
    { rewrite IH1. destruct (build_results en_map translate estimator limit rest);
        cbn [bind]; [|reflexivity]. now rewrite <- app_assoc. }
    split; [exact Eout|].
    intros entries E. rewrite (IH2 entries E).
    assert (Hlen : (length acc + 1 <= length entries)%nat).
    { rewrite IH1 in E.
      destruct (build_results en_map translate estimator limit rest);
        cbn [bind] in E; [|discriminate].
      injection E as <-. rewrite !length_app. cbn [length]. lia. }
    rewrite length_app. cbn [length]. unfold progress_steps.
    replace (length entries - length acc)%nat
      with (S (length entries - (length acc + 1)))%nat by lia.
    cbn [seq map]. f_equal; [f_equal; lia|].
    f_equal. f_equal. lia.
Qed.

(** X9. The loop that the window runs in place of the scraper's builds the
    same entries, and fails with the same exception, as the scraper's
    loop; when it ends, it has set the progress bar once per entry, to
    1, 2, ... up to the number of entries, each time with the same
    maximum. *)
Theorem gui_loop_agrees (estimator : Z -> result Z) (limit total : Z)
  (rows : list RankRow) :
  snd (gui_loop en_map translate estimator limit total rows [])
  = build_results en_map translate estimator limit rows
  /\ (forall entries,
         build_results en_map translate estimator limit rows = Ok entries ->
         fst (gui_loop en_map translate estimator limit total rows [])
         = progress_steps 1 (length entries) total).
Proof.
  destruct (gui_loop_spec estimator limit total rows []) as [H1 H2].
  assert (E : snd (gui_loop en_map translate estimator limit total rows [])
              = build_results en_map translate estimator limit rows).
  { rewrite H1. destruct (build_results en_map translate estimator limit rows); reflexivity. }
  split; [exact E|].
  intros entries He. rewrite <- E in He. rewrite (H2 entries He).
  cbn [length]. now rewrite Nat.sub_0_r.
Qed.

(** X10. The window's copy of the workflow and the scraper's return the same
    record: each returns a result exactly when the other returns it.
    (They parse the baseline and extract the date in opposite orders, so
    that they can differ in the exception raised when both steps fail.) *)
Theorem gui_agrees_with_scraper (page : article) (limit : Z) (use_monthly : bool)
  (res : RankingResult) :
  snd (_scrape_and_save decimal en_map translate page limit use_monthly) = Ok res
  <-> scrape_latest_weekly_and_estimate decimal en_map translate page limit use_monthly
      = Ok res.
Proof.
  unfold _scrape_and_save, scrape_latest_weekly_and_estimate.
  destruct (_parse_baseline decimal (article_text page)) as [bps|e1];
    destruct (_extract_date_info decimal (article_header page) use_monthly) as [date|e2];
    cbn [bind snd]; try (split; discriminate).
  destruct (_extract_rank_list decimal (article_entry page)) as [rows|e3];
    cbn [bind snd]; [|split; discriminate].
  pose proof (gui_loop_spec (_make_estimator bps) limit
                (Z.min limit (Z.of_nat (length rows))) rows []) as [E _].
  destruct (gui_loop en_map translate (_make_estimator bps) limit
              (Z.min limit (Z.of_nat (length rows))) rows []) as [calls out].
  cbn [snd] in *. rewrite E.
  destruct (build_results en_map translate (_make_estimator bps) limit rows);
    reflexivity.
Qed.

End GuiFacts.

Example gui_fixture :
  _scrape_and_save decimal_basic no_lookup no_translation fixture_page 3 false
  = ([(1, 3); (2, 3); (3, 3)],
     scrape_latest_weekly_and_estimate decimal_basic no_lookup no_translation
       fixture_page 3 false).
Proof. vm_compute. reflexivity. Qed.

Example gui_other_exception :
  snd (_scrape_and_save decimal_basic no_lookup no_translation broken_page 3 false)
  = Raise RuntimeError
  /\ scrape_latest_weekly_and_estimate decimal_basic no_lookup no_translation
       broken_page 3 false = Raise IndexError.
Proof. vm_compute. split; reflexivity. Qed.

(** ** The progress bar *)

Section GuiProgress.

Variable en_map : str -> option str.
Variable translate : str -> str.

Lemma ranks_within_distinct (limit : Z) (rows : list RankRow) :
  NoDup (map row_rank rows) ->
  NoDup (map row_rank (filter (within_limit limit) rows)).
Proof.
  induction rows as [|row rows IH]; intros Hnd; [constructor|].
  cbn [map] in Hnd. apply NoDup_cons_iff in Hnd as [Hnew Hrest].
  cbn [filter]. destruct (within_limit limit row); [|exact (IH Hrest)].
  cbn [map]. apply NoDup_cons; [|exact (IH Hrest)].
  intros Hin. apply Hnew. apply in_map_iff in Hin as (other & Erank & Hother).
  apply filter_In in Hother as [Hother _]. apply in_map_iff. eauto.
Qed.

Lemma distinct_count (limit : Z) (l : list Z) :
  NoDup l -> Forall (fun r => 1 <= r <= limit) l ->
  Z.of_nat (length l) <= Z.max 0 limit.
Proof.
  intros Hnd Hall.
  assert (Hincl : incl l (map Z.of_nat (seq 1 (Z.to_nat limit)))).
  { intros r Hr. rewrite Forall_forall in Hall. specialize (Hall r Hr).
    apply in_map_iff. exists (Z.to_nat r). split; [lia|]. apply in_seq. lia. }
  apply (NoDup_incl_length Hnd) in Hincl.
  rewrite length_map, length_seq in Hincl. lia.
Qed.

Lemma gui_loop_calls (estimator : Z -> result Z) (limit total : Z) (rows : list RankRow) :
  forall acc : list RankingEntry,
    Forall (fun c : progress =>
              Z.of_nat (length acc) < fst c
              <= Z.of_nat (length acc + length (filter (within_limit limit) rows))
              /\ snd c = total)
      (fst (gui_loop en_map translate estimator limit total rows acc)).
Proof.
  induction rows as [|[[rank jp] volume] rest IH]; intros acc; [constructor|].
  cbn [gui_loop filter]. unfold within_limit at 1, row_rank at 1. cbn [fst].
  destruct (limit <? rank) eqn:El.
  - replace (rank <=? limit) with false by (symmetry; bool_to_Z; apply Z.leb_gt; lia).
    apply IH.
  - replace (rank <=? limit) with true by (symmetry; bool_to_Z; apply Z.leb_le; lia).
    destruct (estimator rank) as [sales|e]; [|constructor].
    match goal with
    | |- context [gui_loop _ _ _ _ _ rest ?a] =>
        pose proof (IH a) as IH'; destruct (gui_loop en_map translate estimator limit total rest a)
          as [calls out]
    end.
    cbn [fst] in *. rewrite length_app in *. cbn [length] in *.
    constructor.
    + cbn [fst snd]. split; [lia|reflexivity].
    + eapply Forall_impl; [|exact IH']. cbn beta. intros c [Hc ->].
      split; [lia|reflexivity].
Qed.

(** X11. When the ranks of the rows are distinct and at least 1, every value
    that the loop gives to the progress bar lies between 1 and the
    maximum [min(limit, len(rank_lines))] it is given with, also when the
    loop stops on an exception. *)
Theorem gui_progress_within_total (estimator : Z -> result Z) (limit : Z)
  (rows : list RankRow) :
  NoDup (map row_rank rows) -> Forall (fun row => 1 <= row_rank row) rows ->
  Forall (fun c : progress => 1 <= fst c <= snd c)
    (fst (gui_loop en_map translate estimator limit
            (Z.min limit (Z.of_nat (length rows))) rows [])).
Proof.
  intros Hnd Hpos.
  pose proof (gui_loop_calls estimator limit (Z.min limit (Z.of_nat (length rows))) rows [])
    as H.
  eapply Forall_impl; [|exact H]. cbn [length]. intros c [Hc ->]. clear H.
  set (k := length (filter (within_limit limit) rows)) in *.
  assert (Hk1 : (k <= length rows)%nat) by apply filter_length_le.
  assert (Hk2 : Z.of_nat k <= Z.max 0 limit).
  { unfold k. rewrite <- (length_map row_rank).
    apply distinct_count; [now apply ranks_within_distinct|].
    apply Forall_forall. intros r Hr. apply in_map_iff in Hr as (row & <- & Hrow).
    apply filter_In in Hrow as [Hin Hw].
    rewrite Forall_forall in Hpos. specialize (Hpos row Hin).
    unfold within_limit in Hw. apply Z.leb_le in Hw. lia. }
  lia.
Qed.

End GuiProgress.

Lemma gui_progress_within_total_witness :
  Forall (fun c : progress => 1 <= fst c <= snd c)
    (fst (gui_loop no_lookup no_translation (_make_estimator fixture_bps) 3
            (Z.min 3 (Z.of_nat (length fixture_rows))) fixture_rows [])).
Proof.
  apply (gui_progress_within_total no_lookup no_translation (_make_estimator fixture_bps) 3
           fixture_rows).
  - simpl. repeat constructor. all: unfold row_rank; simpl; intuition lia.
  - repeat constructor. all: unfold row_rank; simpl; lia.
Defined.

(** With two rows of rank 1 and the limit 1, the second value given to
    the progress bar is above its maximum. *)
Example gui_progress_overshoot :
  fst (gui_loop no_lookup no_translation (_make_estimator fixture_bps) 1
         (Z.min 1 2) [(1, lit "a", None); (1, lit "b", None)] [])
  = [(1, 1); (2, 1)].
Proof. vm_compute. reflexivity. Qed.

(** ** The address of the latest article *)

Section LinkFacts.

Variable decimal : char -> option Z.

Lemma entry_match_shape pos rest e s' cs :
  Re.matches (ENTRY_RE decimal) pos rest [] e s' cs ->
  exists ds,
    rest = lit "blog-entry-" ++ ds ++ lit ".html" ++ s'
    /\ forallb (is_digit decimal) ds = true /\ (1 <= length ds)%nat
    /\ (s' = [] \/ s' = [0x0A]).
Proof.
  unfold ENTRY_RE. intros M. split_match.
  match goal with H : Re.matches Re.Eos _ _ _ _ _ _ |- _ => inversion H; subst; clear H end;
    split_match; eexists; (split; [reflexivity|]); auto.
Qed.

Lemma Str_matches (p : str) pos s cs :
  Re.matches (Re.Str p) pos (p ++ s) cs (pos + length p)%nat s cs.
Proof.
  revert pos. induction p as [|c p IH]; intros pos; cbn [Re.Str app length].
  - rewrite Nat.add_0_r. constructor.
  - eapply Re.M_Cat; [apply Re.M_Chr|]. rewrite Nat.add_succ_r. apply (IH (S pos)).
Qed.

Lemma entry_match_exists pos ds tail :
  forallb (is_digit decimal) ds = true -> (1 <= length ds)%nat ->
  tail = [] \/ tail = [0x0A] ->
  exists e s' cs,
    Re.matches (ENTRY_RE decimal) pos
      (lit "blog-entry-" ++ ds ++ lit ".html" ++ tail) [] e s' cs.
Proof.
  intros Hd Hl Ht. unfold ENTRY_RE, Seq, Re.Plus. cbn [fold_right].
  eexists _, _, _.
  eapply Re.M_Cat; [apply Str_matches|].
  eapply Re.M_Cat; [apply Re.M_Rep; [exact Hd|exact Hl|exact I]|].
  eapply Re.M_Cat; [apply Str_matches|].
  eapply Re.M_Cat; [|apply Re.M_Eps].
  destruct Ht as [->| ->]; constructor.
Qed.

Lemma search_entry_iff (href : str) :
  (exists m, Re.re_search (ENTRY_RE decimal) href = Some m)
  <-> is_entry_link (is_digit decimal) href.
Proof.
  split.
  - intros [m Hm].
    apply ReFacts.search_from_sound in Hm as (pre & rest & s' & -> & _ & M & _).
    apply entry_match_shape in M as (ds & -> & Hd & Hl & Ht).
    exists pre, ds, s'. split; [reflexivity|]. split; [|auto].
    destruct ds; [simpl in Hl; lia|discriminate].
  - intros (pre & ds & tail & -> & Hne & Hd & Ht).
    destruct (entry_match_exists (0 + length pre) ds tail Hd) as (e & s' & cs & M);
      [destruct ds; [congruence|simpl; lia]|exact Ht|].
    exact (ReFacts.search_from_some _ _ _ _ _ _ _ M).
Qed.

(** X12. The article address is the first address, in document order, of the
    category page of the requested period (the monthly page when
    [use_monthly] is set, the weekly page otherwise) that ends with
    blog-entry-, digits and .html (a final line break apart), returned
    with the category of that period; when the page holds no such
    address the function raises RuntimeError. *)
Theorem latest_article_url_first (page_links : str -> list str) (use_monthly : bool) :
  (forall pre href post,
      page_links (category_url use_monthly) = pre ++ href :: post ->
      is_entry_link (is_digit decimal) href ->
      Forall (fun h => ~ is_entry_link (is_digit decimal) h) pre ->
      _latest_article_url decimal page_links use_monthly
      = Ok (href, if use_monthly then monthly else weekly))
  /\ (Forall (fun h => ~ is_entry_link (is_digit decimal) h)
        (page_links (category_url use_monthly)) ->
      _latest_article_url decimal page_links use_monthly = Raise RuntimeError)
  /\ (forall href c,
         _latest_article_url decimal page_links use_monthly = Ok (href, c) ->
         In href (page_links (category_url use_monthly))
         /\ is_entry_link (is_digit decimal) href
         /\ c = if use_monthly then monthly else weekly).
Proof.
  assert (Hskip : forall pre rest,
             Forall (fun h => ~ is_entry_link (is_digit decimal) h) pre ->
             first_entry_link decimal (pre ++ rest) = first_entry_link decimal rest).
  { induction pre as [|h pre IH]; intros rest Hpre; [reflexivity|].
    inversion Hpre as [|? ? Hh Hpre']; subst. cbn [app first_entry_link].
    destruct (Re.re_search (ENTRY_RE decimal) h) as [m|] eqn:E.
    - exfalso. apply Hh, search_entry_iff. eauto.
    - now apply IH. }
  unfold _latest_article_url.
  change (if use_monthly then MONTHLY_CATEGORY_URL else WEEKLY_CATEGORY_URL)
    with (category_url use_monthly).
  generalize (page_links (category_url use_monthly)). intros hrefs.
  split; [|split].
  - intros pre href post -> Hlink Hpre. rewrite (Hskip pre _ Hpre).
    cbn [first_entry_link]. apply search_entry_iff in Hlink as [m ->]. reflexivity.
  - intros Hall. rewrite <- (app_nil_r hrefs). rewrite (Hskip hrefs [] Hall). reflexivity.
  - intros href c H.
    destruct (first_entry_link decimal hrefs) as [h|] eqn:E; [|discriminate].
    injection H as -> <-. split; [|split; [|reflexivity]].
    + clear use_monthly. induction hrefs as [|h0 rest IH]; [discriminate|].
      cbn [first_entry_link] in E.
      destruct (Re.re_search (ENTRY_RE decimal) h0) as [m|] eqn:Em.
      * injection E as ->. now left.
      * right. exact (IH E).
    + clear use_monthly. induction hrefs as [|h0 rest IH]; [discriminate|].
      cbn [first_entry_link] in E.
      destruct (Re.re_search (ENTRY_RE decimal) h0) as [m|] eqn:Em.
      * injection E as ->. apply search_entry_iff. eauto.
      * exact (IH E).
Qed.

End LinkFacts.

Example latest_article_fixture :
  _latest_article_url decimal_basic fixture_links true
  = Ok (lit "http://x/blog-entry-345.html", monthly).
Proof. vm_compute. reflexivity. Qed.

Example latest_article_none :
  _latest_article_url decimal_basic fixture_links false = Raise RuntimeError.
Proof. vm_compute. reflexivity. Qed.

(** ** The lookup key of a title *)

Section CleanFacts.

Variable decimal : char -> option Z.
Hypothesis decimal_not_space : forall c, is_space c = true -> decimal c = None.

Lemma digits_not_space (ds : str) :
  forallb (is_digit decimal) ds = true -> forallb (fun c => negb (is_space c)) ds = true.
Proof.
  induction ds as [|c ds IH]; [reflexivity|]. cbn [forallb]. intros H.
  apply andb_true_iff in H as [Hc Hd]. rewrite (IH Hd), andb_true_r.
  destruct (is_space c) eqn:E; [|reflexivity].
  unfold is_digit in Hc. now rewrite (decimal_not_space c E) in Hc.
Qed.

Lemma clean_match_shape pos rest e s' cs :
  Re.matches (CLEAN_RE decimal) pos rest [] e s' cs ->
  exists ws ds ws2,
    rest = ws ++ ds ++ ws2 ++ s'
    /\ forallb is_space ws = true /\ (1 <= length ws)%nat
    /\ forallb (is_digit decimal) ds = true /\ (1 <= length ds)%nat
    /\ forallb is_space ws2 = true /\ (s' = [] \/ s' = [0x0A]).
Proof.
  unfold CLEAN_RE. intros M. split_match.
  match goal with H : Re.matches Re.Eos _ _ _ _ _ _ |- _ => inversion H; subst; clear H end;
    split_match; eexists _, _, _; (split; [reflexivity|]); auto 10.
Qed.

Lemma clean_match_exists pos ws ds ws2 :
  forallb is_space ws = true -> (1 <= length ws)%nat ->
  forallb (is_digit decimal) ds = true -> (1 <= length ds)%nat ->
  forallb is_space ws2 = true ->
  exists e s' cs, Re.matches (CLEAN_RE decimal) pos (ws ++ ds ++ ws2) [] e s' cs.
Proof.
  intros Hws Lws Hds Lds Hws2. unfold CLEAN_RE, Seq, Re.Plus, Re.Star. cbn [fold_right].
  replace (ws ++ ds ++ ws2) with (ws ++ ds ++ ws2 ++ []) by now rewrite app_nil_r.
  eexists _, _, _.
  eapply Re.M_Cat; [apply Re.M_Rep; [exact Hws|exact Lws|exact I]|].
  eapply Re.M_Cat; [apply Re.M_Rep; [exact Hds|exact Lds|exact I]|].
  eapply Re.M_Cat; [apply Re.M_Rep; [exact Hws2|lia|exact I]|].
  eapply Re.M_Cat; [apply Re.M_Eos_end|apply Re.M_Eps].
Qed.

(** A text matched by the pattern from its start is made of whitespace
    up to its last run of digits. *)
Lemma clean_shape_unique (u ds tail ws ds' ws' : str) (w : char) :
  u ++ w :: ds ++ tail = ws ++ ds' ++ ws' ->
  is_space w = true -> ds <> [] -> forallb (is_digit decimal) ds = true ->
  forallb is_space tail = true ->
  forallb is_space ws = true -> ds' <> [] -> forallb (is_digit decimal) ds' = true ->
  forallb is_space ws' = true ->
  forallb is_space u = true.
Proof.
  intros E Hw Hne Hd Ht Hws Hne' Hd' Hws'.
  apply digits_not_space in Hd, Hd'.
  destruct (exists_last Hne) as (d0 & a & ->).
  destruct (exists_last Hne') as (d0' & a' & ->).
  rewrite forallb_app in Hd, Hd'. cbn [forallb] in Hd, Hd'.
  apply andb_true_iff in Hd as [Hd0 Ha], Hd' as [Hd0' Ha'].
  rewrite andb_true_r in Ha, Ha'.
  assert (Neg : forall l, forallb is_space l = true ->
                          forallb (fun c => negb (negb (is_space c))) l = true).
  { induction l as [|c l IH]; [reflexivity|]. cbn [forallb]. intros H.
    apply andb_true_iff in H as [H1 H2]. now rewrite negb_involutive, H1, IH. }
  assert (Et : tail = ws').
  { apply (last_separator_unique (fun c => negb (is_space c))
             (u ++ w :: d0) (ws ++ d0') tail ws' a a'); auto.
    rewrite <- !app_assoc. cbn [app]. rewrite <- !app_assoc in E. cbn [app] in E.
    exact E. }
  subst ws'.
  assert (E2 : u ++ w :: d0 ++ [a] = ws ++ d0' ++ [a']).
  { apply (app_inv_tail tail). rewrite <- !app_assoc. cbn [app].
    rewrite <- !app_assoc. cbn [app]. rewrite <- !app_assoc in E. exact E. }
  destruct (exists_last (l := ws)) as (ws0 & b & ->).
  { intros ->. cbn [app] in E2.
    assert (Hall : forallb (fun c => negb (is_space c)) (u ++ w :: d0 ++ [a]) = true).
    { rewrite E2, forallb_app, Hd0'. cbn. now rewrite Ha'. }
    rewrite forallb_app in Hall. apply andb_true_iff in Hall as [_ Hall].
    cbn [forallb] in Hall. rewrite Hw in Hall. discriminate. }
  rewrite forallb_app in Hws. apply andb_true_iff in Hws as [Hws0 Hb].
  cbn [forallb] in Hb. rewrite andb_true_r in Hb.
  assert (Ed : d0 ++ [a] = d0' ++ [a']).
  { apply (last_separator_unique is_space u ws0 (d0 ++ [a]) (d0' ++ [a']) w b); auto.
    - rewrite <- app_assoc in E2. exact E2.
    - rewrite forallb_app, Hd0. cbn. now rewrite Ha.
    - rewrite forallb_app, Hd0'. cbn. now rewrite Ha'. }
  rewrite Ed in E2.
  replace (u ++ w :: d0' ++ [a']) with ((u ++ [w]) ++ d0' ++ [a']) in E2
    by (rewrite <- app_assoc; reflexivity).
  apply app_inv_tail in E2.
  assert (Hu : forallb is_space (u ++ [w]) = true).
  { rewrite E2, forallb_app, Hws0. cbn. now rewrite Hb. }
  rewrite forallb_app in Hu. now apply andb_true_iff in Hu as [Hu _].
Qed.

Lemma sub_from_skip (r : Re.regex) (repl u : str) :
  forall pos s,
    sub_from r repl (length u) pos (u ++ s) = sub_from r repl 0 (pos + length u) s.
Proof.
  induction u as [|c u IH]; intros pos s; cbn [length app].
  - now rewrite Nat.add_0_r.
  - cbn [sub_from]. rewrite IH. f_equal. lia.
Qed.

Lemma sub_from_none (r : Re.regex) (repl s : str) :
  forall pos,
    (forall pre rest, s = pre ++ rest -> Re.match_at r (pos + length pre) rest = None) ->
    sub_from r repl 0 pos s = s.
Proof.
  induction s as [|c s IH]; intros pos H.
  - cbn [sub_from]. pose proof (H [] [] eq_refl) as H0. cbn [length] in H0.
    rewrite Nat.add_0_r in H0. now rewrite H0.
  - cbn [sub_from]. pose proof (H [] (c :: s) eq_refl) as H0. cbn [length] in H0.
    rewrite Nat.add_0_r in H0. rewrite H0. f_equal. apply IH.
    intros pre rest ->.
    replace (S pos + length pre)%nat with (pos + length (c :: pre))%nat
      by (cbn [length]; lia).
    now apply H.
Qed.

Lemma clean_end_no_match (pos : nat) :
  Re.match_at (CLEAN_RE decimal) pos [] = None
  /\ Re.match_at (CLEAN_RE decimal) pos [0x0A] = None.
Proof. split; reflexivity. Qed.

Lemma sub_after_match (pos : nat) (s : str) (m : Re.match_obj) :
  Re.match_at (CLEAN_RE decimal) pos s = Some m ->
  exists s', (s' = [] \/ s' = [0x0A]) /\ sub_from (CLEAN_RE decimal) [] 0 pos s = s'.
Proof.
  intros Hm. pose proof (ReFacts.match_at_sound _ _ _ _ Hm) as (_ & s' & M).
  destruct (ReFacts.matches_span _ _ _ _ _ _ _ M) as (w & Es & Ee).
  apply clean_match_shape in M as (ws & ds & ws2 & E & _ & Lws & _ & _ & _ & Hs').
  exists s'. split; [exact Hs'|].
  destruct w as [|c w].
  { exfalso. cbn [app] in Es. rewrite Es in E. destruct ws; [simpl in Lws; lia|].
    apply (f_equal (@length char)) in E. cbn [app length] in E.
    rewrite !length_app in E. lia. }
  clear E. subst s. cbn [app] in Hm. cbn [app sub_from]. rewrite Hm. cbn [app].
  replace (Re.m_end m - pos - 1)%nat with (length w) by (rewrite Ee; cbn [length]; lia).
  rewrite sub_from_skip.
  destruct (clean_end_no_match (S pos + length w)) as [N1 N2].
  destruct Hs' as [-> | ->]; cbn [sub_from].
  - now rewrite N1.
  - rewrite N2. now destruct (Re.match_at (CLEAN_RE decimal) _ []).
Qed.

Section OneNumber.

Variables (w : char) (ds tail : str).
Hypothesis Hw : is_space w = true.
Hypothesis Hne : ds <> [].
Hypothesis Hd : forallb (is_digit decimal) ds = true.
Hypothesis Ht : forallb is_space tail = true.

Lemma clean_no_match (pos : nat) (u : str) :
  forallb is_space u = false ->
  Re.match_at (CLEAN_RE decimal) pos (u ++ w :: ds ++ tail) = None.
Proof.
  intros Hu. destruct (Re.match_at (CLEAN_RE decimal) pos (u ++ w :: ds ++ tail))
    as [m|] eqn:Hm; [exfalso|reflexivity].
  pose proof (ReFacts.match_at_sound _ _ _ _ Hm) as (_ & s' & M).
  apply clean_match_shape in M as (ws & ds' & ws2 & E & Hws & _ & Hd' & Ld' & Hws2 & Hs').
  assert (H : forallb is_space u = true).
  { apply (clean_shape_unique u ds tail ws ds' (ws2 ++ s') w); auto.
    - destruct ds'; [simpl in Ld'; lia|discriminate].
    - rewrite forallb_app, Hws2. destruct Hs' as [-> | ->]; reflexivity. }
  congruence.
Qed.

Lemma clean_match_spaces (pos : nat) (u : str) :
  forallb is_space u = true ->
  exists m, Re.match_at (CLEAN_RE decimal) pos (u ++ w :: ds ++ tail) = Some m.
Proof.
  intros Hu. destruct (Re.match_at (CLEAN_RE decimal) pos (u ++ w :: ds ++ tail))
    as [m|] eqn:Hm; [eauto|exfalso].
  destruct (clean_match_exists pos (u ++ [w]) ds tail) as (e & s' & cs & M).
  - rewrite forallb_app, Hu. cbn. now rewrite Hw.
  - rewrite length_app. cbn. lia.
  - exact Hd.
  - destruct ds; [congruence|simpl; lia].
  - exact Ht.
  - rewrite <- app_assoc in M. cbn [app] in M.
    exact (ReFacts.match_at_none _ _ _ Hm _ _ _ M).
Qed.

Lemma sub_clean (pre : str) :
  forall pos,
  exists p0 tws s',
    pre = p0 ++ tws /\ forallb is_space tws = true /\ forallb is_space s' = true
    /\ sub_from (CLEAN_RE decimal) [] 0 pos (pre ++ w :: ds ++ tail) = p0 ++ s'.
Proof.
  assert (Hall : forall u pos, forallb is_space u = true ->
            exists s', forallb is_space s' = true
                       /\ sub_from (CLEAN_RE decimal) [] 0 pos (u ++ w :: ds ++ tail) = s').
  { intros u pos Hu. destruct (clean_match_spaces pos u Hu) as [m Hm].
    destruct (sub_after_match _ _ _ Hm) as (s' & Hs' & E).
    exists s'. split; [destruct Hs' as [-> | ->]; reflexivity|exact E]. }
  induction pre as [|x pre IH]; intros pos.
  - destruct (Hall [] pos eq_refl) as (s' & Hs' & E).
    exists [], [], s'. auto.
  - destruct (forallb is_space (x :: pre)) eqn:Hsp.
    + destruct (Hall (x :: pre) pos Hsp) as (s' & Hs' & E).
      exists [], (x :: pre), s'. auto.
    + cbn [app sub_from].
      pose proof (clean_no_match pos (x :: pre) Hsp) as Hn. cbn [app] in Hn.
      rewrite Hn. destruct (IH (S pos)) as (p0 & tws & s' & -> & Htws & Hs' & E).
      exists (x :: p0), tws, s'. rewrite E. auto.
Qed.

End OneNumber.

Lemma lstrip_spaces (t : str) : forallb is_space t = true -> lstrip t = [].
Proof.
  induction t as [|c t IH]; [reflexivity|]. cbn [forallb lstrip]. intros H.
  apply andb_true_iff in H as [-> H]. now apply IH.
Qed.

Lemma lstrip_app_spaces (a b : str) :
  forallb is_space a = true -> lstrip (a ++ b) = lstrip b.
Proof.
  induction a as [|c a IH]; [reflexivity|]. cbn [forallb app lstrip]. intros H.
  apply andb_true_iff in H as [-> H]. now apply IH.
Qed.

Lemma rstrip_app_spaces (v t : str) :
  forallb is_space t = true -> rstrip (v ++ t) = rstrip v.
Proof.
  intros H. unfold rstrip. rewrite rev_app_distr, lstrip_app_spaces; [reflexivity|].
  rewrite forallb_forall in *. intros c Hc. apply H. now apply in_rev.
Qed.

Lemma strip_app_spaces (u t : str) :
  forallb is_space t = true -> strip (u ++ t) = strip u.
Proof.
  intros H. unfold strip. induction u as [|c u IH].
  - cbn [app]. now rewrite (lstrip_spaces t H).
  - cbn [app lstrip]. destruct (is_space c); [exact IH|].
    change (c :: u ++ t) with ((c :: u) ++ t). now apply rstrip_app_spaces.
Qed.

Lemma clean_for_lookup_number (jp_title pre ds : str) :
  ends_in_spaced_number (is_digit decimal) jp_title pre ds ->
  _clean_for_lookup decimal jp_title = strip pre.
Proof.
  unfold _clean_for_lookup, re_sub. intros (w & tail & -> & Hw & Hne & Hd & Ht).
  destruct (sub_clean w ds tail Hw Hne Hd Ht pre 0%nat)
    as (p0 & tws & s' & -> & Htws & Hs' & ->).
  now rewrite !strip_app_spaces.
Qed.

Lemma clean_for_lookup_plain (jp_title : str) :
  (~ exists pre ds, ends_in_spaced_number (is_digit decimal) jp_title pre ds) ->
  _clean_for_lookup decimal jp_title = strip jp_title.
Proof.
  unfold _clean_for_lookup, re_sub. intros Hno.
  rewrite sub_from_none; [reflexivity|].
  intros pre rest ->.
  destruct (Re.match_at (CLEAN_RE decimal) (0 + length pre) rest) as [m|] eqn:Hm;
    [exfalso|reflexivity].
  pose proof (ReFacts.match_at_sound _ _ _ _ Hm) as (_ & s' & M).
  apply clean_match_shape in M
      as (ws & ds & ws2 & -> & Hws & Lws & Hd & Ld & Hws2 & Hs').
  destruct (exists_last (l := ws)) as (ws0 & b & ->);
    [intros ->; simpl in Lws; lia|].
  rewrite forallb_app in Hws. apply andb_true_iff in Hws as [_ Hb].
  cbn [forallb] in Hb. rewrite andb_true_r in Hb.
  apply Hno. exists (pre ++ ws0), ds, b, (ws2 ++ s').
  split; [now rewrite <- !app_assoc|]. split; [exact Hb|].
  split; [destruct ds; [simpl in Ld; lia|discriminate]|].
  split; [exact Hd|].
  rewrite forallb_app, Hws2. destruct Hs' as [-> | ->]; reflexivity.
Qed.

(** X13. The lookup key of a title that ends in a whitespace, digits and
    whitespace only is the text before that whitespace, trimmed: the
    last number goes, and only the last.  The key of any other title is
    the title trimmed; a key never begins or ends with whitespace. *)
Theorem clean_for_lookup_spec (jp_title : str) :
  (forall pre ds,
      ends_in_spaced_number (is_digit decimal) jp_title pre ds ->
      _clean_for_lookup decimal jp_title = strip pre)
  /\ ((~ exists pre ds, ends_in_spaced_number (is_digit decimal) jp_title pre ds) ->
      _clean_for_lookup decimal jp_title = strip jp_title)
  /\ trimmed (_clean_for_lookup decimal jp_title).
Proof.
  split; [|split].
  - intros pre ds H. exact (clean_for_lookup_number jp_title pre ds H).
  - apply clean_for_lookup_plain.
  - unfold _clean_for_lookup. apply strip_trimmed.
Qed.

End CleanFacts.

Example clean_for_lookup_fixture :
  map (_clean_for_lookup decimal_basic) [lit "a 1 2"; lit " a b "; lit "a 1x"; lit "5"; lit " 5"]
  = [lit "a 1"; lit "a b"; lit "a 1x"; lit "5"; []].
Proof. vm_compute. reflexivity. Qed.

(** ** Rows and their lookup keys *)

Section RowLookup.

Variable decimal : char -> option Z.
Hypothesis decimal_range : forall c d, decimal c = Some d -> 0 <= d <= 9.
Hypothesis decimal_fullwidth :
  forall c, is_fw_digit c = true -> decimal c = Some (c - 0xFF10).
Hypothesis decimal_not_space : forall c, is_space c = true -> decimal c = None.

Lemma extract_row_Some (raw : str) (rank : Z) (title : str) (volume : option Z) :
  extract_row decimal raw = Ok (Some (rank, title, volume)) ->
  trimmed title /\ title_volume decimal title = Ok volume
  /\ exists g2, title = map ascii_equivalent (strip g2)
                /\ forallb (not_char 0x3C) g2 = true.
Proof.
  intros H. destruct (Re.re_match (ROW_RE decimal) (strip raw)) as [m|] eqn:Hm.
  - destruct (extract_row_matched decimal decimal_range decimal_fullwidth decimal_not_space raw m Hm)
      as (g1 & g2 & rank' & volume' & _ & G2 & _ & _ & He & Hv).
    rewrite He in H. injection H as -> <- ->.
    split; [apply trimmed_map; [apply ascii_equivalent_keeps|apply strip_trimmed]|].
    split; [exact Hv|]. exists g2. split; [reflexivity|].
    unfold Re.re_match in Hm. apply ReFacts.match_at_sound in Hm as (_ & s' & M).
    apply row_match_shape in M as (g1' & g2' & _ & G2' & _ & _ & Hlt & _).
    unfold get_group in G2. rewrite G2' in G2. now injection G2 as <-.
  - unfold extract_row in H. rewrite Hm in H. discriminate.
Qed.

(** X14. The key under which the title of an extracted row is looked up is
    the title without its volume: for a row with no volume the key is the
    title itself, and for a row with volume [n] the title is the key,
    then whitespace, then the digits of [n]. *)
Theorem lookup_key_of_row (raw : str) (rank : Z) (title : str) (volume : option Z) :
  extract_row decimal raw = Ok (Some (rank, title, volume)) ->
  (volume = None -> _clean_for_lookup decimal title = title)
  /\ (forall n, volume = Some n ->
        exists ws ds,
          title = _clean_for_lookup decimal title ++ ws ++ ds
          /\ ws <> [] /\ forallb is_space ws = true
          /\ ds <> [] /\ forallb (is_digit decimal) ds = true
          /\ py_int decimal ds = Ok n).
Proof.
  intros H. apply extract_row_Some in H as (Ht & Hv & _).
  destruct (title_volume_spec decimal decimal_not_space title Ht) as (v & Hv' & Hspec).
  assert (v = volume) by congruence. subst v.
  pose proof (clean_for_lookup_number decimal decimal_not_space title) as Hyes.
  pose proof (clean_for_lookup_plain decimal title) as Hno.
  split.
  - intros ->. rewrite Hno; [exact Ht|].
    intros (pre & ds & w & tail & E & Hw & Hne & Hd & Htail).
    assert (tail = []).
    { destruct tail as [|z tail] using rev_ind; [reflexivity|]. exfalso.
      rewrite forallb_app in Htail. apply andb_true_iff in Htail as [_ Hz].
      cbn [forallb] in Hz. rewrite andb_true_r in Hz.
      assert (is_space z = false).
      { apply (trimmed_last title (pre ++ w :: ds ++ tail) z Ht).
        rewrite E, <- !app_assoc. cbn [app]. now rewrite <- !app_assoc. }
      congruence. }
    subst tail. rewrite app_nil_r in E.
    destruct (py_int_total decimal ds Hd) as [n Hn];
      [destruct ds; [congruence|simpl; lia]|].
    assert (X : None = Some n) by (apply Hspec; exists pre, w, ds; auto).
    discriminate.
  - intros n ->. destruct (proj1 (Hspec n) eq_refl) as (pre & w & ds & E & Hw & Hne & Hd & Hn).
    rewrite (Hyes pre ds).
    2:{ exists w, []. rewrite app_nil_r. auto. }
    assert (Hpre : head_ok pre).
    { pose proof (trimmed_head title Ht) as Hh. rewrite E in Hh.
      destruct pre as [|c pre]; [exact I|exact Hh]. }
    destruct pre as [|c pre].
    { exfalso. pose proof (trimmed_head title Ht) as Hh. rewrite E in Hh.
      cbn in Hh. congruence. }
    unfold strip. rewrite (lstrip_id _ Hpre).
    destruct (rstrip_split (c :: pre)) as (ws0 & Ews & Hws0).
    exists (ws0 ++ [w]), ds.
    split; [|split; [destruct ws0; discriminate|split; [|auto]]].
    + rewrite E. rewrite Ews at 1. rewrite <- !app_assoc. reflexivity.
    + rewrite forallb_app, Hws0. cbn. now rewrite Hw.
Qed.

(** X15. The title of an extracted row holds no [<]: markup of the line
    never gets into a title. *)
Theorem row_title_without_markup (raw : str) (rank : Z) (title : str) (volume : option Z) :
  extract_row decimal raw = Ok (Some (rank, title, volume)) ->
  Forall (fun c => c <> 0x3C) title.
Proof.
  intros H. apply extract_row_Some in H as (_ & _ & g2 & -> & Hg).
  apply Forall_forall. intros c Hc. apply in_map_iff in Hc as (c0 & <- & Hc0).
  assert (Hnot : not_char 0x3C c0 = true).
  { rewrite forallb_forall in Hg. apply Hg.
    unfold strip, rstrip in Hc0. apply in_rev in Hc0.
    destruct (lstrip_split (rev (lstrip g2))) as (ws & E & _).
    assert (In c0 (rev (lstrip g2))) by (rewrite E; apply in_or_app; now right).
    apply in_rev in H. destruct (lstrip_split g2) as (ws' & E' & _).
    rewrite E'. apply in_or_app. now right. }
  unfold not_char in Hnot. apply negb_true_iff, Z.eqb_neq in Hnot.
  unfold ascii_equivalent.
  destruct (is_fw_latin c0 || is_fw_digit c0) eqn:Efw.
  - unfold is_fw_latin, is_fw_digit in Efw. bool_to_Z; lia.
  - destruct (c0 =? 0x3000); lia.
Qed.

End RowLookup.

Lemma lookup_key_of_row_witness :
  (Some 12 = None -> _clean_for_lookup decimal_basic (lit "ABc 12") = lit "ABc 12")
  /\ (forall n, Some 12 = Some n ->
        exists ws ds,
          lit "ABc 12" = _clean_for_lookup decimal_basic (lit "ABc 12") ++ ws ++ ds
          /\ ws <> [] /\ forallb is_space ws = true
          /\ ds <> [] /\ forallb (is_digit decimal_basic) ds = true
          /\ py_int decimal_basic ds = Ok n).
Proof.
  apply (lookup_key_of_row decimal_basic decimal_basic_range decimal_basic_fullwidth
           decimal_basic_not_space fixture_line 12 (lit "ABc 12") (Some 12)).
  vm_compute. reflexivity.
Defined.

Lemma row_title_without_markup_witness :
  Forall (fun c => c <> 0x3C) (lit "ABc 12").
Proof.
  apply (row_title_without_markup decimal_basic decimal_basic_range decimal_basic_fullwidth
           decimal_basic_not_space fixture_line 12 (lit "ABc 12") (Some 12)).
  vm_compute. reflexivity.
Defined.

Lemma clean_for_lookup_spec_witness :
  (forall pre ds,
      ends_in_spaced_number (is_digit decimal_basic) (lit "a 1 2") pre ds ->
      _clean_for_lookup decimal_basic (lit "a 1 2") = strip pre)
  /\ ((~ exists pre ds, ends_in_spaced_number (is_digit decimal_basic) (lit "a 1 2") pre ds) ->
      _clean_for_lookup decimal_basic (lit "a 1 2") = strip (lit "a 1 2"))
  /\ trimmed (_clean_for_lookup decimal_basic (lit "a 1 2")).
Proof.
  apply (clean_for_lookup_spec decimal_basic decimal_basic_not_space (lit "a 1 2")).
Defined.

(** ** The rows of a container, line by line *)

Section RowsByLine.

Variable decimal : char -> option Z.

Lemma starts_with_length (p s : str) :
  starts_with p s = true -> (length p <= length s)%nat.
Proof.
  revert s. induction p as [|a p IH]; intros s H; [simpl; lia|].
  destruct s as [|b s]; [discriminate|]. cbn [starts_with] in H.
  apply andb_true_iff in H as [_ H]. apply IH in H. simpl. lia.
Qed.

(** No [<br/>] of the joined text starts in the first part and ends
    after it. *)
Lemma break_not_astride (x : char) (u c2 : str) :
  starts_with (lit "<br/>") ((x :: u) ++ lit "<br/>" ++ c2)
  = starts_with (lit "<br/>") (x :: u).
Proof.
  change (lit "<br/>") with [60; 98; 114; 47; 62].
  destruct u as [|x2 [|x3 [|x4 [|x5 u]]]]; cbn [app starts_with];
    repeat match goal with
      | |- context [?a =? ?b] => is_var b; destruct (a =? b)
      end; reflexivity.
Qed.

Lemma split_aux_app (c2 : str) (c1 : str) :
  forall skip cur,
    (skip <= length c1)%nat ->
    split_aux (lit "<br/>") skip cur (c1 ++ lit "<br/>" ++ c2)
    = split_aux (lit "<br/>") skip cur c1 ++ split_aux (lit "<br/>") 0 [] c2.
Proof.
  induction c1 as [|x c1 IH]; intros skip cur Hs.
  - destruct skip; [|simpl in Hs; lia]. reflexivity.
  - destruct skip as [|n].
    + cbn [app split_aux].
      pose proof (break_not_astride x c1 c2) as B. cbn [app] in B. rewrite B.
      destruct (starts_with (lit "<br/>") (x :: c1)) eqn:E.
      * apply starts_with_length in E. cbn [app]. rewrite IH; [reflexivity|].
        change (length (lit "<br/>")) with 5%nat in *. simpl in E. lia.
      * cbn [app]. now rewrite IH by lia.
    + cbn [app split_aux]. apply IH. simpl in Hs. lia.
Qed.

Lemma extract_rows_app (l1 l2 : list str) :
  extract_rows decimal (l1 ++ l2)
  = (x <- extract_rows decimal l1 ;; y <- extract_rows decimal l2 ;; Ok (x ++ y)).
Proof.
  induction l1 as [|raw l1 IH]; cbn [app extract_rows bind].
  - now destruct (extract_rows decimal l2).
  - rewrite IH. destruct (extract_row decimal raw) as [[row|]|]; cbn [bind];
      try reflexivity;
      destruct (extract_rows decimal l1); cbn [bind]; try reflexivity;
      destruct (extract_rows decimal l2); reflexivity.
Qed.

(** X16. The rows of a container are the rows of its lines, in the order of
    the lines: a text made of two parts joined by [<br/>] gives the rows
    of the first part followed by the rows of the second, so that what a
    line gives does not depend on the other lines. *)
Theorem rank_list_by_lines (c1 c2 : str) (rows1 rows2 : list RankRow) :
  _extract_rank_list decimal (Some c1) = Ok rows1 ->
  _extract_rank_list decimal (Some c2) = Ok rows2 ->
  _extract_rank_list decimal (Some (c1 ++ lit "<br/>" ++ c2)) = Ok (rows1 ++ rows2).
Proof.
  unfold _extract_rank_list, split. intros H1 H2.
  rewrite split_aux_app by lia. rewrite extract_rows_app, H1, H2. reflexivity.
Qed.

End RowsByLine.

Lemma rank_list_by_lines_witness :
  _extract_rank_list decimal_basic
    (Some (lit "1 <a href=x>9784</a> Alpha 3 Pub Auth 2025.07.01" ++ lit "<br/>"
           ++ lit "junk<br/>2 <a href=x>9785</a> Beta Pub Auth 2025.07.02"))
  = Ok ([(1, lit "Alpha 3", Some 3)] ++ [(2, lit "Beta", None)]).
Proof.
  apply (rank_list_by_lines decimal_basic
           (lit "1 <a href=x>9784</a> Alpha 3 Pub Auth 2025.07.01")
           (lit "junk<br/>2 <a href=x>9785</a> Beta Pub Auth 2025.07.02")).
  - vm_compute. reflexivity.
  - vm_compute. reflexivity.
Defined.

(** ** Dicts and batches *)

Section DictFacts.

Lemma str_eqb_eq (a b : str) : str_eqb a b = true <-> a = b.
Proof.
  revert b. induction a as [|x a IH]; intros [|y b]; cbn [str_eqb];
    try (split; [discriminate|discriminate]); [tauto|].
  rewrite andb_true_iff, Z.eqb_eq, IH. split; [intros [-> ->]; reflexivity|].
  intros [= -> ->]. auto.
Qed.

Lemma str_eqb_refl (a : str) : str_eqb a a = true.
Proof. now apply str_eqb_eq. Qed.

Lemma str_eqb_neq (a b : str) : a <> b -> str_eqb a b = false.
Proof.
  intros H. destruct (str_eqb a b) eqn:E; [|reflexivity].
  apply str_eqb_eq in E. contradiction.
Qed.

Context {V : Type}.

Lemma dict_get_set_same (d : dict V) (k : str) (v : V) :
  dict_get (dict_set d k v) k = Some v.
Proof.
  induction d as [|[k' v'] d IH]; cbn [dict_set dict_get].
  - now rewrite str_eqb_refl.
  - destruct (str_eqb k k') eqn:E; cbn [dict_get]; rewrite E; [reflexivity|exact IH].
Qed.

Lemma dict_get_set_other (d : dict V) (k k' : str) (v : V) :
  k <> k' -> dict_get (dict_set d k v) k' = dict_get d k'.
Proof.
  intros Hne. induction d as [|[k0 v0] d IH]; cbn [dict_set dict_get].
  - rewrite str_eqb_neq; [reflexivity|congruence].
  - destruct (str_eqb k k0) eqn:E; cbn [dict_get].
    + apply str_eqb_eq in E. subst k0. rewrite str_eqb_neq; [reflexivity|congruence].
    + now rewrite IH.
Qed.

Lemma dict_get_keys (d : dict V) (k : str) :
  dict_get d k <> None <-> In k (dict_keys d).
Proof.
  induction d as [|[k' v'] d IH]; cbn [dict_get dict_keys map In fst].
  - tauto.
  - destruct (str_eqb k k') eqn:E.
    + apply str_eqb_eq in E. subst. split; [auto|discriminate].
    + rewrite IH. split; [auto|]. intros [->|H]; [|exact H].
      rewrite str_eqb_refl in E. discriminate.
Qed.

Lemma dict_keys_set (d : dict V) (k k' : str) (v : V) :
  In k' (dict_keys (dict_set d k v)) <-> k' = k \/ In k' (dict_keys d).
Proof.
  rewrite <- !dict_get_keys. destruct (list_eq_dec Z.eq_dec k k') as [->|Hne].
  - rewrite dict_get_set_same. split; [auto|discriminate].
  - rewrite dict_get_set_other by exact Hne. split; [auto|].
    intros [->|H]; [contradiction|exact H].
Qed.

Lemma dict_keys_NoDup_set (d : dict V) (k : str) (v : V) :
  NoDup (dict_keys d) -> NoDup (dict_keys (dict_set d k v)).
Proof.
  induction d as [|[k' v'] d IH]; cbn [dict_set dict_keys map fst]; intros H.
  - repeat constructor. intros [].
  - inversion H as [|? ? Hnin Hnd]; subst.
    destruct (str_eqb k k') eqn:E; cbn [map fst]; [exact H|].
    constructor; [|now apply IH].
    intros Hin. apply (dict_keys_set d k k' v) in Hin as [->|Hin]; [|contradiction].
    rewrite str_eqb_refl in E. discriminate.
Qed.

End DictFacts.

Section Batches.

Context {A : Type}.

Lemma range_from_lt (step stop : nat) :
  forall fuel i j, In j (range_from fuel i stop step) -> (i <= j < stop)%nat.
Proof.
  induction fuel as [|f IH]; intros i j H; [contradiction|].
  cbn [range_from] in H. destruct (i <? stop)%nat eqn:E; [|contradiction].
  apply Nat.ltb_lt in E. destruct H as [<-|H]; [lia|].
  apply IH in H. lia.
Qed.

Lemma slices_concat (l : list A) (step : nat) :
  (1 <= step)%nat ->
  forall fuel i,
    (length l - i <= fuel)%nat ->
    concat (map (fun i => py_slice l i (i + step)) (range_from fuel i (length l) step))
    = skipn i l.
Proof.
  intros Hstep. induction fuel as [|f IH]; intros i Hf.
  - cbn [range_from map concat]. symmetry. apply skipn_all2. lia.
  - cbn [range_from]. destruct (i <? length l)%nat eqn:E.
    + apply Nat.ltb_lt in E. cbn [map concat]. rewrite IH by lia.
      unfold py_slice. replace (i + step - i)%nat with step by lia.
      rewrite Nat.add_comm, <- skipn_skipn. apply firstn_skipn.
    + apply Nat.ltb_ge in E. cbn [map concat]. symmetry. apply skipn_all2. lia.
Qed.

Lemma slice_length (l : list A) (step i : nat) :
  (1 <= step)%nat -> (i < length l)%nat ->
  (1 <= length (py_slice l i (i + step)) <= step)%nat.
Proof.
  intros Hs Hi. unfold py_slice. rewrite length_firstn, length_skipn. lia.
Qed.

End Batches.

Lemma title_batches_concat (unique_titles : list str) :
  concat (title_batches unique_titles) = unique_titles.
Proof.
  unfold title_batches, py_range, ALIAS_BATCH. rewrite slices_concat by lia. reflexivity.
Qed.

(** X17. The requests share the titles out: the batches, put end to end, give
    the list of titles back (no title is left out, none is sent twice,
    the order is kept), and every batch holds at least one and at most
    50 titles. *)
Theorem title_batches_partition (unique_titles : list str) :
  concat (title_batches unique_titles) = unique_titles
  /\ Forall (fun batch => (1 <= length batch <= 50)%nat) (title_batches unique_titles).
Proof.
  split; [apply title_batches_concat|].
  unfold title_batches, py_range, ALIAS_BATCH.
  apply Forall_forall. intros b Hb. apply in_map_iff in Hb as (i & <- & Hi).
    apply range_from_lt in Hi. apply slice_length; lia.
Qed.

Example title_batches_120 :
  map (@length str) (title_batches (repeat (lit "t") 120)) = [50; 50; 20]%nat.
Proof. vm_compute. reflexivity. Qed.

(** ** The lookup of one batch *)

Section BatchFacts.

Variable decimal : char -> option Z.
Variable post : str -> option Json.value.

Lemma answers_loop_keys (data : Json.value) (jp_titles : list str) :
  forall i out out',
    answers_loop data i jp_titles out = inr out' ->
    (NoDup (dict_keys out) -> NoDup (dict_keys out'))
    /\ forall t, In t (dict_keys out') <-> In t jp_titles \/ In t (dict_keys out).
Proof.
  induction jp_titles as [|t0 rest IH]; intros i out out' H; cbn [answers_loop] in H.
  - injection H as <-. split; [auto|]. intros t. cbn [In]. tauto.
  - destruct (alias_answer data i) as [e|v]; [discriminate|].
    apply IH in H as [Hnd Hk]. split.
    + intros H0. apply Hnd. now apply dict_keys_NoDup_set.
    + intros t. rewrite Hk, dict_keys_set. cbn [In]. intuition congruence.
Qed.

Lemma all_none_spec (jp_titles : list str) :
  forall acc,
    let out := fold_left (fun out t => dict_set out t Json.JNull) jp_titles acc in
    (NoDup (dict_keys acc) -> NoDup (dict_keys out))
    /\ (forall t, In t (dict_keys out) <-> In t jp_titles \/ In t (dict_keys acc))
    /\ ((forall t v, dict_get acc t = Some v -> v = Json.JNull) ->
        forall t v, dict_get out t = Some v -> v = Json.JNull).
Proof.
  induction jp_titles as [|t0 rest IH]; intros acc; cbn [fold_left].
  - split; [auto|]. split; [intros t; cbn [In]; tauto|auto].
  - destruct (IH (dict_set acc t0 Json.JNull)) as (Hnd & Hk & Hv).
    split; [|split].
    + intros H0. apply Hnd. now apply dict_keys_NoDup_set.
    + intros t. rewrite Hk, dict_keys_set. cbn [In]. intuition congruence.
    + intros Hacc. apply Hv. intros t v.
      destruct (list_eq_dec Z.eq_dec t0 t) as [->|Hne].
      * rewrite dict_get_set_same. congruence.
      * rewrite dict_get_set_other by exact Hne. apply Hacc.
Qed.

Lemma dict_get_In {V : Type} (d : dict V) (t : str) :
  In t (dict_keys d) -> exists v, dict_get d t = Some v.
Proof.
  intros H. apply dict_get_keys in H. destruct (dict_get d t); [eauto|congruence].
Qed.

Lemma batch_keys (jp_titles : list str) (out : dict Json.value) :
  _query_anilist_batch decimal post jp_titles = inr out ->
  NoDup (dict_keys out) /\ forall t, In t (dict_keys out) <-> In t jp_titles.
Proof.
  unfold _query_anilist_batch. intros H.
  destruct (post (build_query decimal jp_titles)) as [data|].
  - apply answers_loop_keys in H as [Hnd Hk]. split; [apply Hnd; constructor|].
    intros t. rewrite Hk. cbn [dict_keys map In]. tauto.
  - injection H as <-. destruct (all_none_spec jp_titles []) as (Hnd & Hk & _).
    split; [apply Hnd; constructor|].
    intros t. unfold all_none. rewrite Hk. cbn [dict_keys map In]. tauto.
Qed.

Lemma batch_all_none (jp_titles : list str) :
  post (build_query decimal jp_titles) = None ->
  exists out,
    _query_anilist_batch decimal post jp_titles = inr out
    /\ forall t, In t jp_titles -> dict_get out t = Some Json.JNull.
Proof.
  unfold _query_anilist_batch. intros ->.
  exists (all_none jp_titles). split; [reflexivity|].
  intros t Ht. destruct (all_none_spec jp_titles []) as (_ & Hk & Hv).
  destruct (dict_get_In (all_none jp_titles) t) as [v Hget].
  { apply Hk. now left. }
  rewrite Hget. f_equal. apply (Hv ltac:(discriminate) t v Hget).
Qed.

(** X18. Whenever a batch lookup returns, its answer holds one entry for each
    title of the batch and no other: a later [en_map.get] of a title of
    the batch always finds its key.  When the request fails (no network,
    an error status, a reply that is not JSON or has no data), the lookup
    still returns, every title being given [None]. *)
Theorem batch_result_keys (jp_titles : list str) :
  (forall out,
      _query_anilist_batch decimal post jp_titles = inr out ->
      NoDup (dict_keys out) /\ forall t, In t (dict_keys out) <-> In t jp_titles)
  /\ (post (build_query decimal jp_titles) = None ->
      exists out,
        _query_anilist_batch decimal post jp_titles = inr out
        /\ forall t, In t jp_titles -> dict_get out t = Some Json.JNull).
Proof.
  split.
  - intros out H. now apply batch_keys.
  - apply batch_all_none.
Qed.

(** X19. The [try] covers the request only: a reply whose data is not an
    object (null, as replies that report errors have it) makes the lookup
    of a batch that is not empty raise AttributeError. *)
Theorem batch_data_not_object (jp_titles : list str) (data : Json.value) :
  post (build_query decimal jp_titles) = Some data ->
  (forall d, data <> Json.JDict d) -> jp_titles <> [] ->
  _query_anilist_batch decimal post jp_titles = inl Json.AttributeError.
Proof.
  intros Hp Hd Hne. unfold _query_anilist_batch. rewrite Hp.
  destruct jp_titles as [|t rest]; [congruence|].
  cbn [answers_loop]. unfold alias_answer.
  destruct data; try reflexivity. exfalso. now apply (Hd d).
Qed.

Lemma alias_answer_shape (dd : list (str * Json.value)) (i : nat) :
  match dict_get dd (alias i) with
  | None => True
  | Some node => node_shape node
  end ->
  exists v, alias_answer (Json.JDict dd) i = inr v.
Proof.
  unfold alias_answer, Json.get at 1.
  destruct (dict_get dd (alias i)) as [node|]; [|intros _; cbn; eauto].
  intros [Hf|(nd & -> & Hr)]; [rewrite Hf; eauto|].
  destruct (Json.truthy (Json.JDict nd)); [|eauto].
  cbn [Json.get Json.item].
  destruct (dict_get nd (lit "results")) as [r|]; [|cbn; eauto].
  destruct Hr as [Hf|(md & td & rest & -> & Ht)]; [rewrite Hf; eauto|].
  cbn [Json.truthy Json.first Json.item]. rewrite Ht. cbn [Json.get].
  destruct (Json.truthy _); eauto.
Qed.

(** X20. A reply whose data is an object with, under every alias of the
    batch, a node of the documented shape never makes the lookup raise:
    it returns an answer. *)
Theorem batch_returns_on_shape (jp_titles : list str) (dd : list (str * Json.value)) :
  post (build_query decimal jp_titles) = Some (Json.JDict dd) ->
  (forall i, (i < length jp_titles)%nat ->
             match dict_get dd (alias i) with
             | None => True
             | Some node => node_shape node
             end) ->
  exists out, _query_anilist_batch decimal post jp_titles = inr out.
Proof.
  intros Hp Hshape. unfold _query_anilist_batch. rewrite Hp.
  assert (H : forall titles i out,
             (forall j, (j < length titles)%nat ->
                        match dict_get dd (alias (i + j)) with
                        | None => True
                        | Some node => node_shape node
                        end) ->
             exists out', answers_loop (Json.JDict dd) i titles out = inr out').
  { induction titles as [|t rest IH]; intros i out Hs; cbn [answers_loop]; [eauto|].
    destruct (alias_answer_shape dd i) as [v ->].
    - specialize (Hs 0%nat ltac:(simpl; lia)). now rewrite Nat.add_0_r in Hs.
    - apply IH. intros j Hj. specialize (Hs (S j) ltac:(simpl; lia)).
      now replace (S i + j)%nat with (i + S j)%nat by lia. }
  apply H. exact Hshape.
Qed.

Lemma answers_loop_values (data : Json.value) (jp_titles : list str) :
  forall i out out',
    answers_loop data i jp_titles out = inr out' ->
    NoDup jp_titles ->
    (forall t, ~ In t jp_titles -> dict_get out' t = dict_get out t)
    /\ forall j t, nth_error jp_titles j = Some t ->
                   exists v, alias_answer data (i + j) = inr v
                             /\ dict_get out' t = Some v.
Proof.
  induction jp_titles as [|t0 rest IH]; intros i out out' H Hnd; cbn [answers_loop] in H.
  - injection H as <-. split; [reflexivity|]. intros [|j] t; discriminate.
  - destruct (alias_answer data i) as [e|v] eqn:Ea; [discriminate|].
    inversion Hnd as [|? ? Hnin Hnd']; subst.
    destruct (IH _ _ _ H Hnd') as [Hout Hval]. split.
    + intros t Ht. rewrite Hout by (intros Hin; apply Ht; now right).
      apply dict_get_set_other. intros ->. apply Ht. now left.
    + intros [|j] t Hj.
      * cbn [nth_error] in Hj. injection Hj as <-. exists v.
        rewrite Nat.add_0_r. split; [exact Ea|].
        rewrite (Hout t0 Hnin). apply dict_get_set_same.
      * cbn [nth_error] in Hj. destruct (Hval j t Hj) as (v' & Hv' & Hg).
        exists v'. split; [|exact Hg].
        now replace (i + S j)%nat with (S i + j)%nat by lia.
Qed.

(** X21. When the request succeeds and the titles of the batch are distinct,
    the answer of a lookup that returns gives the title number [i] the
    value read under the alias [manga_i] of the reply: the English title
    when the reply holds a non-empty one, the romaji title otherwise,
    [None] for an alias without result. *)
Theorem batch_answers_by_alias (jp_titles : list str) (data : Json.value)
  (out : dict Json.value) :
  post (build_query decimal jp_titles) = Some data ->
  _query_anilist_batch decimal post jp_titles = inr out ->
  NoDup jp_titles ->
  forall i t, nth_error jp_titles i = Some t ->
              exists v, alias_answer data i = inr v /\ dict_get out t = Some v.
Proof.
  intros Hp H Hnd i t Hi. unfold _query_anilist_batch in H. rewrite Hp in H.
  destruct (answers_loop_values data jp_titles 0 [] out H Hnd) as [_ Hval].
  exact (Hval i t Hi).
Qed.

End BatchFacts.

Example alias_answer_fixture :
  map (alias_answer fixture_reply) [0; 1; 2; 3]%nat
  = [inr (Json.JStr (lit "Alpha")); inr (Json.JStr (lit "Beta")); inr Json.JNull;
     inr Json.JNull].
Proof. vm_compute. reflexivity. Qed.

(** The search text of the title Say "hi" 2: the number is removed, the
    quotes are escaped. *)
Example search_text_fixture :
  replace_with 0x22 [0x5C; 0x22]
    (_clean_for_lookup decimal_basic
       (lit "Say " ++ [0x22] ++ lit "hi" ++ [0x22] ++ lit " 2"))
  = lit "Say " ++ [0x5C; 0x22] ++ lit "hi" ++ [0x5C; 0x22].
Proof. vm_compute. reflexivity. Qed.

Example query_batch_fixture :
  _query_anilist_batch decimal_basic fixture_post [lit "A 1"; lit "B"; lit "C"]
  = inr [(lit "A 1", Json.JStr (lit "Alpha")); (lit "B", Json.JStr (lit "Beta"));
         (lit "C", Json.JNull)].
Proof. vm_compute. reflexivity. Qed.

Lemma batch_data_not_object_witness :
  _query_anilist_batch decimal_basic null_post [lit "A 1"] = inl Json.AttributeError.
Proof.
  apply (batch_data_not_object decimal_basic null_post [lit "A 1"] Json.JNull).
  - reflexivity.
  - discriminate.
  - discriminate.
Defined.

Lemma batch_returns_on_shape_witness :
  exists out,
    _query_anilist_batch decimal_basic fixture_post [lit "A 1"; lit "B"; lit "C"] = inr out.
Proof.
  apply (batch_returns_on_shape decimal_basic fixture_post [lit "A 1"; lit "B"; lit "C"]
           [(lit "manga_0", media (Json.JStr (lit "Alpha")) (Json.JStr (lit "Arufa")));
            (lit "manga_1", media Json.JNull (Json.JStr (lit "Beta")));
            (lit "manga_2",
             Json.JDict [(lit "pageInfo", Json.JDict [(lit "total", Json.JInt 0)]);
                         (lit "results", Json.JList [])])]).
  - reflexivity.
  - intros [|[|[|i]]] Hi; [| | |simpl in Hi; lia]; vm_compute; right; eexists;
      (split; [reflexivity|]); vm_compute; [right|right|left; reflexivity];
      eexists _, _, _; split; reflexivity.
Defined.

Lemma batch_answers_by_alias_witness :
  exists v, alias_answer fixture_reply 1 = inr v
            /\ dict_get [(lit "A 1", Json.JStr (lit "Alpha"));
                         (lit "B", Json.JStr (lit "Beta"));
                         (lit "C", Json.JNull)] (lit "B") = Some v.
Proof.
  apply (batch_answers_by_alias decimal_basic fixture_post [lit "A 1"; lit "B"; lit "C"]
           fixture_reply).
  - reflexivity.
  - vm_compute. reflexivity.
  - repeat constructor; simpl; intuition discriminate.
  - reflexivity.
Defined.

(** ** The lookup of all titles *)

Section ResolveFacts.

Variable decimal : char -> option Z.
Variable post : str -> option Json.value.

Lemma merge_batch_spec (batch_result : dict Json.value) :
  forall en_map,
    (NoDup (dict_keys en_map) -> NoDup (dict_keys (merge_batch en_map batch_result)))
    /\ (forall t, In t (dict_keys (merge_batch en_map batch_result))
                  <-> In t (dict_keys batch_result) \/ In t (dict_keys en_map))
    /\ (NoDup (dict_keys batch_result) ->
        forall t, dict_get (merge_batch en_map batch_result) t
                  = match dict_get batch_result t with
                    | Some v => Some v
                    | None => dict_get en_map t
                    end).
Proof.
  unfold merge_batch.
  induction batch_result as [|[k v] rest IH]; intros en_map; cbn [fold_left fst snd].
  - split; [auto|]. split; [intros t; cbn [dict_keys map In]; tauto|reflexivity].
  - destruct (IH (dict_set en_map k v)) as (Hnd & Hk & Hv). split; [|split].
    + intros H. apply Hnd. now apply dict_keys_NoDup_set.
    + intros t. rewrite Hk, dict_keys_set. cbn [dict_keys map fst In]. intuition congruence.
    + intros H t. cbn [dict_keys map fst] in H. inversion H as [|? ? Hnin Hnd']; subst.
      rewrite (Hv Hnd'). cbn [dict_get].
      destruct (str_eqb t k) eqn:E.
      * apply str_eqb_eq in E. subst t.
        destruct (dict_get rest k) eqn:Eg.
        -- exfalso. apply Hnin. apply (dict_get_keys rest k). congruence.
        -- apply dict_get_set_same.
      * destruct (dict_get rest t); [reflexivity|].
        apply dict_get_set_other. intros ->. rewrite str_eqb_refl in E. discriminate.
Qed.

Lemma resolve_loop_spec (batches : list (list str)) :
  forall en_map en_map',
    resolve_loop decimal post batches en_map = inr en_map' ->
    (NoDup (dict_keys en_map) -> NoDup (dict_keys en_map'))
    /\ (forall t, In t (dict_keys en_map')
                  <-> In t (concat batches) \/ In t (dict_keys en_map))
    /\ (forall t, ~ In t (concat batches) -> dict_get en_map' t = dict_get en_map t)
    /\ (NoDup (concat batches) ->
        forall batch out t,
          In batch batches -> _query_anilist_batch decimal post batch = inr out ->
          In t batch -> dict_get en_map' t = dict_get out t).
Proof.
  induction batches as [|b rest IH]; intros en_map en_map' H; cbn [resolve_loop] in H.
  - injection H as <-. split; [auto|]. split; [intros t; cbn [concat In]; tauto|].
    split; [reflexivity|]. intros _ batch out t [].
  - destruct (_query_anilist_batch decimal post b) as [e|br] eqn:Eb; [discriminate|].
    destruct (batch_keys decimal post b br Eb) as [Hbnd Hbk].
    destruct (merge_batch_spec br en_map) as (Mnd & Mk & Mv).
    destruct (IH _ _ H) as (Hnd & Hk & Hout & Hval).
    split; [|split; [|split]].
    + intros H0. apply Hnd, Mnd, H0.
    + intros t. rewrite Hk, Mk, Hbk. cbn [concat]. rewrite in_app_iff. tauto.
    + intros t Ht. cbn [concat] in Ht. rewrite in_app_iff in Ht.
      rewrite Hout by tauto. rewrite (Mv Hbnd).
      destruct (dict_get br t) eqn:Eg; [|reflexivity].
      exfalso. apply Ht. left. apply Hbk, (dict_get_keys br t). congruence.
    + intros Hall batch out t Hin Hq Ht. cbn [concat] in Hall.
      apply NoDup_app_remove_l in Hall as Hrest.
      destruct Hin as [<-|Hin].
      * assert (out = br) by congruence. subst out.
        assert (Hnot : ~ In t (concat rest)).
        { intros Hc. revert Hall Ht Hc. clear. revert t.
          induction b as [|x b IHb]; intros t Hall Ht Hc; [contradiction|].
          cbn [app] in Hall. inversion Hall as [|? ? Hx Hall']; subst.
          destruct Ht as [->|Ht]; [apply Hx, in_or_app; now right|].
          exact (IHb t Hall' Ht Hc). }
        rewrite (Hout t Hnot), (Mv Hbnd).
        destruct (dict_get br t) eqn:Eg; [reflexivity|].
        exfalso. apply (dict_get_keys br t); [|exact Eg]. now apply Hbk.
      * exact (Hval Hrest batch out t Hin Hq Ht).
Qed.

(** X22. Whenever the lookups of all batches return, the map [en_map] of the
    workflow holds exactly the titles it was asked for, each once; and,
    the titles being distinct, it gives every title the answer of its own
    batch: a failed request leaves the titles of its batch without a
    looked-up title and does not touch the titles of the other batches. *)
Theorem resolve_titles_spec (unique_titles : list str) (en_map : dict Json.value) :
  resolve_titles decimal post unique_titles = inr en_map ->
  NoDup (dict_keys en_map)
  /\ (forall t, In t (dict_keys en_map) <-> In t unique_titles)
  /\ (NoDup unique_titles ->
      forall batch out t,
        In batch (title_batches unique_titles) ->
        _query_anilist_batch decimal post batch = inr out ->
        In t batch -> dict_get en_map t = dict_get out t).
Proof.
  unfold resolve_titles. intros H.
  pose proof (title_batches_concat unique_titles) as Hc.
  destruct (resolve_loop_spec _ _ _ H) as (Hnd & Hk & _ & Hval).
  rewrite Hc in *. split; [apply Hnd; constructor|]. split.
  - intros t. rewrite Hk. cbn [dict_keys map In]. tauto.
  - exact Hval.
Qed.

(** X23. Without any reply from the lookup service the workflow goes on: the
    map is built, and it holds [None] for every title, so that each title
    falls to the machine translation. *)
Theorem resolve_titles_offline (unique_titles : list str) :
  (forall query, post query = None) ->
  exists en_map,
    resolve_titles decimal post unique_titles = inr en_map
    /\ forall t, In t unique_titles -> dict_get en_map t = Some Json.JNull.
Proof.
  intros Hoff. unfold resolve_titles.
  pose proof (title_batches_concat unique_titles) as Hc.
  revert Hc. generalize (title_batches unique_titles). intros batches Hc.
  assert (Hloop : forall bs m,
             (forall t v, dict_get m t = Some v -> v = Json.JNull) ->
             exists m', resolve_loop decimal post bs m = inr m'
                        /\ (forall t v, dict_get m' t = Some v -> v = Json.JNull)
                        /\ forall t, In t (concat bs) \/ In t (dict_keys m)
                                     -> In t (dict_keys m')).
  { induction bs as [|b rest IH]; intros m Hm; cbn [resolve_loop].
    - exists m. split; [reflexivity|]. split; [exact Hm|]. intros t [[]|H]; exact H.
    - destruct (batch_all_none decimal post b (Hoff _)) as (out & Eq & Hout).
      rewrite Eq.
      destruct (batch_keys decimal post b out Eq) as [Hbnd Hbk].
      destruct (merge_batch_spec out m) as (_ & Mk & Mv).
      destruct (IH (merge_batch m out)) as (m' & E & Hnull & Hkeys).
      + intros t v. rewrite (Mv Hbnd). destruct (dict_get out t) as [v'|] eqn:Eg.
        * intros [= <-]. assert (In t b) by (apply Hbk, (dict_get_keys out t); congruence).
          specialize (Hout t H). congruence.
        * apply Hm.
      + exists m'. split; [exact E|]. split; [exact Hnull|].
        intros t Ht. apply Hkeys. cbn [concat] in Ht. rewrite in_app_iff in Ht.
        rewrite Mk, Hbk. tauto. }
  destruct (Hloop batches [] ltac:(discriminate)) as (m' & E & Hnull & Hkeys).
  exists m'. split; [exact E|]. intros t Ht.
  destruct (dict_get_In m' t) as [v Hv]; [apply Hkeys; left; now rewrite Hc|].
  rewrite Hv. f_equal. exact (Hnull t v Hv).
Qed.

End ResolveFacts.

Lemma resolve_titles_spec_witness :
  NoDup (dict_keys [(lit "A 1", Json.JStr (lit "Alpha")); (lit "B", Json.JStr (lit "Beta"))])
  /\ (forall t, In t (dict_keys [(lit "A 1", Json.JStr (lit "Alpha"));
                                 (lit "B", Json.JStr (lit "Beta"))])
                <-> In t [lit "A 1"; lit "B"])
  /\ (NoDup [lit "A 1"; lit "B"] ->
      forall batch out t,
        In batch (title_batches [lit "A 1"; lit "B"]) ->
        _query_anilist_batch decimal_basic fixture_post batch = inr out ->
        In t batch ->
        dict_get [(lit "A 1", Json.JStr (lit "Alpha")); (lit "B", Json.JStr (lit "Beta"))] t
        = dict_get out t).
Proof.
  apply (resolve_titles_spec decimal_basic fixture_post [lit "A 1"; lit "B"]).
  vm_compute. reflexivity.
Defined.

Lemma resolve_titles_offline_witness :
  exists en_map,
    resolve_titles decimal_basic offline [lit "A 1"; lit "B"] = inr en_map
    /\ forall t, In t [lit "A 1"; lit "B"] -> dict_get en_map t = Some Json.JNull.
Proof.
  apply (resolve_titles_offline decimal_basic offline [lit "A 1"; lit "B"]).
  reflexivity.
Defined.

(** ** The cached translation *)

Section TranslateFacts.

Variable translator : str -> option str.

(** X24. A call of the cached translation leaves the title in the cache with
    the value it returned, so that the same call made again returns the
    same value and changes nothing; it touches the entry of no other
    title; a title already in the cache gets the cached value and is not
    translated, another one gets its machine translation, which is the
    title itself when the service fails. *)
Theorem jp_to_en_cache (jp_title : str) (cache : dict str) :
  let en := fst (_jp_to_en translator jp_title cache) in
  let cache' := snd (_jp_to_en translator jp_title cache) in
  dict_get cache' jp_title = Some en
  /\ _jp_to_en translator jp_title cache' = (en, cache')
  /\ (forall t, t <> jp_title -> dict_get cache' t = dict_get cache t)
  /\ (forall en0, dict_get cache jp_title = Some en0 -> en = en0 /\ cache' = cache)
  /\ (dict_get cache jp_title = None ->
      en = match translator jp_title with
           | Some x => x
           | None => jp_title
           end).
Proof.
  cbv zeta. destruct (dict_get cache jp_title) as [en0|] eqn:E.
  - assert (H : _jp_to_en translator jp_title cache = (en0, cache))
      by (unfold _jp_to_en; now rewrite E).
    rewrite !H. cbn [fst snd].
    split; [exact E|]. split; [exact H|].
    split; [reflexivity|]. split; [intros ? [= <-]; auto|discriminate].
  - assert (H : _jp_to_en translator jp_title cache
                = (_machine_translate translator jp_title,
                   dict_set cache jp_title (_machine_translate translator jp_title)))
      by (unfold _jp_to_en; now rewrite E).
    rewrite !H. cbn [fst snd].
    split; [apply dict_get_set_same|].
    split; [unfold _jp_to_en; now rewrite dict_get_set_same|].
    split; [intros t Ht; apply dict_get_set_other; congruence|].
    split; [discriminate|reflexivity].
Qed.

End TranslateFacts.

